(** * Sweeping-revocation cost model: address-space state machine and revokers

    A shallow embedding of [model/measure-sweeping-revocation.py]:
    the interval-tagged address-space model ([AllocatorAddrSpaceModel]),
    the fast accounting model ([AccountingAddrSpaceModel]), the two
    sweeping revokers and the chunk classifier of the allocation-map
    renderer, together with the properties the specification states
    about them.

    Conventions.
    - Python integers are unbounded, so addresses and sizes are [Z].
    - A raised exception aborts the replay; calls return [result], and
      the exception class is kept so that an assertion failure can be
      told apart from the other ways a call can fail.
    - [intervaltree.IntervalTree] is a set of intervals; it is modelled
      as a duplicate-free list, queries being filters of that list.
    - The two [while] loops of [intervaltree_query_coalesced] are run
      with a step bound of the number of stored intervals, the outer loop
      of the compacting revoker with one of the number of Freed intervals;
      [OutOfFuel] marks an exhausted bound and is shown never to occur on
      a well-formed tree.
    - An interval is its [begin], its [end] and its data; [state] reads
      the data, also on the pieces that [chop] puts back.
    - [output.update()], which [_update] and [_sweep] call last, prints;
      the allocation-map output also empties its buffer of reused ranges
      there.  The call is left out of [_update] and [_sweep]; the
      renderer is modelled on its own ([AllocationMapOutput_update]) and
      shown not to fail on the models [_update] produces. *)

From stdpp Require Import gmap.
From Stdlib Require Import ZArith List Bool Lia String Ascii Sorted.
From Stdlib Require Import SpecFloat.
Import ListNotations.

Local Open Scope Z_scope.

(** ** Exceptions *)

Inductive exn : Type :=
| AssertionError
| ValueError
| NameError
| AttributeError
| IndexError
| OutOfFuel.  (* not a Python exception: a bounded loop ran out of steps *)

Inductive result (A : Type) : Type :=
| Ok (a : A)
| Raise (e : exn).

Arguments Ok {A} a.
Arguments Raise {A} e.

Definition rbind {A B : Type} (r : result A) (k : A -> result B) : result B :=
  match r with
  | Ok a => k a
  | Raise e => Raise e
  end.

Notation "'do' x <- r ; k" := (rbind r (fun x => k))
  (at level 10, x name, r at level 100, k at level 200).

Definition is_ok {A : Type} (r : result A) : bool :=
  match r with Ok _ => true | Raise _ => false end.

(** ** Intervals and their states *)

Inductive AddrIvalState : Type :=
| ALLOCD
| FREED
| REVOKED
| MAPD
| UNMAPD.

Definition state_eqb (s t : AddrIvalState) : bool :=
  match s, t with
  | ALLOCD, ALLOCD | FREED, FREED | REVOKED, REVOKED
  | MAPD, MAPD | UNMAPD, UNMAPD => true
  | _, _ => false
  end.

(** [AddrIval(begin, end, state)]: the half-open range [[begin, end)]
    tagged with [state]; [None] is Python's [None] ("no data"). *)
Record AddrIval : Type := mkIval {
  begin : Z;
  end_ : Z;
  state : option AddrIvalState
}.

(** [o.state is s] *)
Definition state_is (s : AddrIvalState) (i : AddrIval) : bool :=
  match state i with
  | Some t => state_eqb t s
  | None => false
  end.

Definition ostate_eqb (s t : option AddrIvalState) : bool :=
  match s, t with
  | Some a, Some b => state_eqb a b
  | None, None => true
  | _, _ => false
  end.

Definition ival_eqb (i j : AddrIval) : bool :=
  (begin i =? begin j) && (end_ i =? end_ j) && ostate_eqb (state i) (state j).

(** [Interval.is_null] *)
Definition is_null (i : AddrIval) : bool := end_ i <=? begin i.

(** [Interval.contains_point] *)
Definition contains_point (i : AddrIval) (p : Z) : bool :=
  (begin i <=? p) && (p <? end_ i).

(** [Interval.overlaps(begin, end)] *)
Definition overlaps_range (i : AddrIval) (b e : Z) : bool :=
  (begin i <? e) && (b <? end_ i).

Definition ival_size (i : AddrIval) : Z := end_ i - begin i.

(** ** [intervaltree.IntervalTree] *)

Definition IntervalTree : Type := list AddrIval.

Definition tree_mem (i : AddrIval) (t : IntervalTree) : bool :=
  existsb (ival_eqb i) t.

(** [tree[point]] *)
Definition tree_at (t : IntervalTree) (p : Z) : list AddrIval :=
  List.filter (fun i => contains_point i p) t.

(** [tree[begin:end]]; the library answers the empty set when
    [begin >= end]. *)
Definition tree_search (t : IntervalTree) (b e : Z) : list AddrIval :=
  if e <=? b then [] else List.filter (fun i => overlaps_range i b e) t.

(** [tree.add(interval)] *)
Definition tree_add (t : IntervalTree) (i : AddrIval) : result IntervalTree :=
  if tree_mem i t then Ok t
  else if is_null i then Raise ValueError
  else Ok (i :: t).

(** [tree.discard(interval)] *)
Definition tree_discard (t : IntervalTree) (i : AddrIval) : IntervalTree :=
  List.filter (fun j => negb (ival_eqb i j)) t.

(** [tree.remove(interval)] *)
Definition tree_remove (t : IntervalTree) (i : AddrIval) : result IntervalTree :=
  if tree_mem i t then Ok (tree_discard t i) else Raise ValueError.

(** [tree.difference_update(other)] *)
Definition tree_difference_update (t : IntervalTree) (l : list AddrIval)
  : IntervalTree :=
  fold_left tree_discard l t.

(** [tree.remove_envelop(begin, end)] *)
Definition tree_remove_envelop (t : IntervalTree) (b e : Z) : IntervalTree :=
  let hitlist :=
    List.filter (fun i => (b <=? begin i) && (end_ i <=? e)) (tree_search t b e) in
  tree_difference_update t hitlist.

(** [tree.update(intervals)] for intervals that are not null. *)
Definition tree_update (t : IntervalTree) (l : list AddrIval) : IntervalTree :=
  fold_left (fun acc i => if tree_mem i acc then acc else i :: acc) l t.

(** [tree.chop(begin, end)]: every interval is trimmed back so that
    nothing is left inside [[begin, end)].  The pieces put back are
    [[iv.begin, begin)] with [iv.begin < begin] and [[end, iv.end)] with
    [end < iv.end]; none is null, so the insertion cannot raise. *)
Definition tree_chop (t : IntervalTree) (b e : Z) : IntervalTree :=
  let begin_hits := List.filter (fun i => begin i <? b) (tree_at t b) in
  let end_hits := List.filter (fun i => e <? end_ i) (tree_at t e) in
  let insertions :=
    List.map (fun i => mkIval (begin i) b (state i)) begin_hits ++
    List.map (fun i => mkIval e (end_ i) (state i)) end_hits in
  let t1 := tree_remove_envelop t b e in
  let t2 := tree_difference_update t1 begin_hits in
  let t3 := tree_difference_update t2 end_hits in
  tree_update t3 insertions.

(** [intervaltree_query_checked] *)
Definition intervaltree_query_checked (t : IntervalTree) (point : Z)
  : result (option AddrIval) :=
  match tree_at t point with
  | [] => Ok None
  | [i] => Ok (Some i)
  | _ :: _ :: _ => Raise AssertionError
  end.

(** ** The fast accounting model *)

Module Accounting.

(** [AccountingAddrSpaceModel]: two running totals and the table
    [_va2sz] from allocation start to size. *)
Record AccountingAddrSpaceModel : Type := mkAccounting {
  mapd_size : Z;
  allocd_size : Z;
  _va2sz : gmap Z Z
}.

Definition init : AccountingAddrSpaceModel :=
  {| mapd_size := 0; allocd_size := 0; _va2sz := ∅ |}.

Definition mapd (m : AccountingAddrSpaceModel) (b e : Z) :=
  {| mapd_size := mapd_size m + (e - b);
     allocd_size := allocd_size m;
     _va2sz := _va2sz m |}.

Definition unmapd (m : AccountingAddrSpaceModel) (b e : Z) :=
  {| mapd_size := mapd_size m - (e - b);
     allocd_size := allocd_size m;
     _va2sz := _va2sz m |}.

Definition allocd (m : AccountingAddrSpaceModel) (b e : Z) :=
  let sz := e - b in
  {| mapd_size := mapd_size m;
     allocd_size := allocd_size m + sz;
     _va2sz := <[b := sz]> (_va2sz m) |}.

Definition freed (m : AccountingAddrSpaceModel) (b : Z) :=
  match _va2sz m !! b with
  | Some sz =>
      {| mapd_size := mapd_size m;
         allocd_size := allocd_size m - sz;
         _va2sz := delete b (_va2sz m) |}
  | None => m
  end.

Definition reallocd (m : AccountingAddrSpaceModel) (obegin nbegin nend : Z) :=
  allocd (freed m obegin) nbegin nend.

End Accounting.


(** ** The coalesced interval map *)

(** Modelled from the spec: [common.intervalmap.IntervalMap] is not part
    of the sources at hand.  Following section 4.2 of the specification
    it is an ordered sequence of intervals partitioning the address
    domain; [imap_add] overwrites exactly [[begin, end)] with the given
    state and then merges neighbours that touch and carry the same
    state; [imap_range] answers the intervals overlapping a range,
    clipped to it. *)
Definition IntervalMap : Type := list AddrIval.

Definition imap_from_valued_interval_domain (d : AddrIval) : IntervalMap := [d].

Definition clip (lo hi : Z) (i : AddrIval) : AddrIval :=
  mkIval (Z.max (begin i) lo) (Z.min (end_ i) hi) (state i).

Definition imap_range (m : IntervalMap) (lo hi : Z) : list AddrIval :=
  if hi <=? lo then []
  else List.map (clip lo hi) (List.filter (fun i => overlaps_range i lo hi) m).

(** What is left of the stored intervals outside [[b, e)]. *)
Definition imap_cut (m : IntervalMap) (b e : Z) : IntervalMap :=
  flat_map
    (fun i =>
       (if begin i <? Z.min (end_ i) b
        then [mkIval (begin i) (Z.min (end_ i) b) (state i)] else []) ++
       (if Z.max (begin i) e <? end_ i
        then [mkIval (Z.max (begin i) e) (end_ i) (state i)] else []))
    m.

Fixpoint imap_insert (iv : AddrIval) (m : IntervalMap) : IntervalMap :=
  match m with
  | [] => [iv]
  | i :: m' => if begin iv <=? begin i then iv :: m else i :: imap_insert iv m'
  end.

Fixpoint imap_coalesce (m : IntervalMap) : IntervalMap :=
  match m with
  | [] => []
  | i :: m' =>
      match imap_coalesce m' with
      | j :: r =>
          if (end_ i =? begin j) && ostate_eqb (state i) (state j)
          then mkIval (begin i) (end_ j) (state i) :: r
          else i :: j :: r
      | [] => [i]
      end
  end.

Definition imap_add (m : IntervalMap) (iv : AddrIval) : IntervalMap :=
  if is_null iv then m
  else imap_coalesce (imap_insert iv (imap_cut m (begin iv) (end_ iv))).

(** ** [AllocatorAddrSpaceModel] *)

(** The fields of [BaseAddrSpaceModel] and [BaseIntervalAddrSpaceModel]
    that the allocator model updates, and its own interval tree. *)
Record AllocatorAddrSpaceModel : Type := mkAlloc {
  mapd_size : Z;
  allocd_size : Z;
  __addr_ivals : IntervalMap;
  _addr_ivals : IntervalTree
}.

Definition AllocatorAddrSpaceModel_init : AllocatorAddrSpaceModel :=
  {| mapd_size := 0;
     allocd_size := 0;
     __addr_ivals := imap_from_valued_interval_domain (mkIval 0 (2 ^ 64) None);
     _addr_ivals := [] |}.

Definition set_tree (a : AllocatorAddrSpaceModel) (t : IntervalTree) :=
  {| mapd_size := mapd_size a;
     allocd_size := allocd_size a;
     __addr_ivals := __addr_ivals a;
     _addr_ivals := t |}.

Definition sum_Z (l : list Z) : Z := fold_right Z.add 0 l.

(** [sum((i.end - i.begin) for i in overlaps if i.state is st)] *)
Definition sum_sizes (st : AddrIvalState) (overlaps : list AddrIval) : Z :=
  sum_Z (List.map ival_size (List.filter (state_is st) overlaps)).

(** [BaseIntervalAddrSpaceModel._update] *)
Definition _update (a : AllocatorAddrSpaceModel) (ival : AddrIval)
  : AllocatorAddrSpaceModel :=
  let overlaps := imap_range (__addr_ivals a) (begin ival - 1) (end_ ival + 1) in
  let mapd_size_old := sum_sizes MAPD overlaps in
  let allocd_size_old := sum_sizes ALLOCD overlaps in
  let m' := imap_add (__addr_ivals a) ival in
  let overlaps' := imap_range m' (begin ival - 1) (end_ ival + 1) in
  let mapd_size_new := sum_sizes MAPD overlaps' in
  let allocd_size_new := sum_sizes ALLOCD overlaps' in
  {| mapd_size := mapd_size a + (mapd_size_new - mapd_size_old);
     allocd_size := allocd_size a + (allocd_size_new - allocd_size_old);
     __addr_ivals := m';
     _addr_ivals := _addr_ivals a |}.

(** [BaseIntervalAddrSpaceModel.addr_ivals_coalesced_sorted] *)
Definition addr_ivals_coalesced_sorted (a : AllocatorAddrSpaceModel)
    (b e : option Z) : list AddrIval :=
  let has_value i := match state i with Some _ => true | None => false end in
  match b, e with
  | Some b, Some e => List.filter has_value (imap_range (__addr_ivals a) b e)
  | _, _ => List.filter has_value (__addr_ivals a)
  end.

(** [AllocatorAddrSpaceModel.addr_ivals] *)
Definition addr_ivals (a : AllocatorAddrSpaceModel) (b e : option Z)
  : list AddrIval :=
  match b, e with
  | Some b, Some e => tree_search (_addr_ivals a) b e
  | _, _ => _addr_ivals a
  end.

(** [AllocatorAddrSpaceModel.addr_ival] *)
Definition addr_ival (a : AllocatorAddrSpaceModel) (point : Z)
  : result (option AddrIval) :=
  intervaltree_query_checked (_addr_ivals a) point.

Definition nonempty {A : Type} (l : list A) : bool :=
  match l with [] => false | _ :: _ => true end.

(** One round of the second loop of [revoked]. *)
Definition revoked_one (a : AllocatorAddrSpaceModel) (be : Z * Z)
  : result AllocatorAddrSpaceModel :=
  let ival := mkIval (fst be) (snd be) (Some REVOKED) in
  let a1 := _update a ival in
  let t1 := tree_chop (_addr_ivals a1) (begin ival) (end_ ival) in
  do t2 <- tree_add t1 ival;
  Ok (set_tree a1 t2).

Fixpoint revoked_loop (a : AllocatorAddrSpaceModel) (bes : list (Z * Z))
  : result AllocatorAddrSpaceModel :=
  match bes with
  | [] => Ok a
  | be :: bes' => do a1 <- revoked_one a be; revoked_loop a1 bes'
  end.

(** The intervals of [tree[begin:end]] that are still allocated. *)
Definition ivals_allocd (a : AllocatorAddrSpaceModel) (be : Z * Z) : list AddrIval :=
  List.filter (state_is ALLOCD) (tree_search (_addr_ivals a) (fst be) (snd be)).

(** [AllocatorAddrSpaceModel.revoked]; the call with two integers
    is the call with the one pair they form. *)
Definition revoked (a : AllocatorAddrSpaceModel) (bes : list (Z * Z))
  : result AllocatorAddrSpaceModel :=
  match bes with
  | [] => Raise IndexError
  | _ :: _ =>
      if existsb (fun be => nonempty (ivals_allocd a be)) bes
      then Raise AssertionError
      else revoked_loop a bes
  end.

(** [AllocatorAddrSpaceModel.freed] *)
Definition freed (a : AllocatorAddrSpaceModel) (b : Z)
  : result AllocatorAddrSpaceModel :=
  do q <- intervaltree_query_checked (_addr_ivals a) b;
  match q with
  | Some interval =>
      do t1 <- tree_remove (_addr_ivals a) interval;
      let interval' := mkIval (begin interval) (end_ interval) (Some FREED) in
      let a2 := _update (set_tree a t1) interval' in
      do t3 <- tree_add (_addr_ivals a2) interval';
      Ok (set_tree a2 t3)
  | None =>
      let interval' := mkIval b (b + 1) (Some FREED) in
      let a2 := _update a interval' in
      do t3 <- tree_add (_addr_ivals a2) interval';
      Ok (set_tree a2 t3)
  end.

Fixpoint str_find (frame s : string) : bool :=
  String.prefix frame s ||
  match s with
  | EmptyString => false
  | String _ s' => str_find frame s'
  end.

(** [AllocatorAddrSpaceModel.mapd] and [unmapd] *)
Definition mapd (a : AllocatorAddrSpaceModel) (callstack : string) (b e : Z)
  : AllocatorAddrSpaceModel :=
  if existsb (fun frame => str_find frame callstack)
       ["malloc"; "calloc"; "realloc"; "free"]%string
  then _update a (mkIval b e (Some MAPD))
  else a.

Definition unmapd (a : AllocatorAddrSpaceModel) (callstack : string) (b e : Z)
  : AllocatorAddrSpaceModel :=
  _update a (mkIval b e (Some UNMAPD)).

(** ** The objects of a run *)

(** [BaseSweepingRevoker] *)
Record BaseSweepingRevoker : Type := mkRevoker {
  swept : Z;
  _capacity_ivals : Z
}.

(** The module-level objects the listeners reach: [alloc_state], the
    [size] of [addr_space], [revoker], and the buffer of the
    allocation-map output. *)
Record World : Type := mkWorld {
  alloc_state : AllocatorAddrSpaceModel;
  addr_space_size : Z;
  revoker : BaseSweepingRevoker;
  _addr_ivals_reused : IntervalTree
}.

Definition set_alloc_state (w : World) (a : AllocatorAddrSpaceModel) : World :=
  {| alloc_state := a;
     addr_space_size := addr_space_size w;
     revoker := revoker w;
     _addr_ivals_reused := _addr_ivals_reused w |}.

Definition set_revoker (w : World) (r : BaseSweepingRevoker) : World :=
  {| alloc_state := alloc_state w;
     addr_space_size := addr_space_size w;
     revoker := r;
     _addr_ivals_reused := _addr_ivals_reused w |}.

Definition World_init (capacity_ivals : Z) : World :=
  {| alloc_state := AllocatorAddrSpaceModel_init;
     addr_space_size := 0;
     revoker := {| swept := 0; _capacity_ivals := capacity_ivals |};
     _addr_ivals_reused := [] |}.

(** [BaseAddrSpaceModel.size_measured] on [addr_space] *)
Definition size_measured (w : World) (size : Z) : World :=
  {| alloc_state := alloc_state w;
     addr_space_size := size;
     revoker := revoker w;
     _addr_ivals_reused := _addr_ivals_reused w |}.

(** A subscriber's [reused(alloc_state, begin, end)]. *)
Definition Subscriber : Type := World -> Z -> Z -> result World.

(** Modelled from the spec: [common.misc.Publisher._publish] is not part
    of the sources at hand; it calls every registered subscriber in turn,
    synchronously, each on the state the previous one left. *)
Fixpoint _publish (subscribers : list Subscriber) (w : World) (b e : Z)
  : result World :=
  match subscribers with
  | [] => Ok w
  | s :: rest => do w1 <- s w b e; _publish rest w1 b e
  end.


(** [AllocatorAddrSpaceModel.allocd] *)
Definition allocd (subscribers : list Subscriber) (w : World) (b e : Z)
  : result World :=
  let interval := mkIval b e (Some ALLOCD) in
  let overlaps := tree_search (_addr_ivals (alloc_state w)) b e in
  let overlaps_freed := List.filter (state_is FREED) overlaps in
  do w1 <- (if nonempty overlaps_freed then _publish subscribers w b e else Ok w);
  let a1 := alloc_state w1 in
  let t1 := if nonempty overlaps
            then tree_chop (_addr_ivals a1) b e else _addr_ivals a1 in
  let a2 := _update (set_tree a1 t1) interval in
  do t3 <- tree_add (_addr_ivals a2) interval;
  Ok (set_alloc_state w1 (set_tree a2 t3)).

(** ** The revokers *)

(** [BaseSweepingRevoker._sweep], as the revoker the call leaves behind
    together with the exception it raised, if any.  The name [ValuError]
    is not defined, so the [raise] statement raises [NameError]; it comes
    before the counter is touched. *)
Definition _sweep_run (r : BaseSweepingRevoker) (amount : Z)
    (addr_ivals : list AddrIval) : BaseSweepingRevoker * option exn :=
  if _capacity_ivals r <? Z.of_nat (List.length addr_ivals)
  then (r, Some NameError)
  else ({| swept := swept r + amount; _capacity_ivals := _capacity_ivals r |},
        None).

(** The same call seen from its caller. *)
Definition _sweep (r : BaseSweepingRevoker) (amount : Z) (addr_ivals : list AddrIval)
  : result BaseSweepingRevoker :=
  match _sweep_run r amount addr_ivals with
  | (r', None) => Ok r'
  | (_, Some e) => Raise e
  end.

(** [for ival in intervals: alloc_state.revoked(ival.begin, ival.end)] *)
Fixpoint revoke_each (a : AllocatorAddrSpaceModel) (intervals : list AddrIval)
  : result AllocatorAddrSpaceModel :=
  match intervals with
  | [] => Ok a
  | ival :: rest =>
      do a1 <- revoked a [(begin ival, end_ ival)];
      revoke_each a1 rest
  end.

(** [NaiveSweepingRevoker.reused] *)
Definition NaiveSweepingRevoker_reused : Subscriber := fun w b e =>
  let intervals :=
    List.filter (state_is FREED) (addr_ivals (alloc_state w) (Some b) (Some e)) in
  do r <- (if nonempty intervals
           then _sweep (revoker w) (addr_space_size w) intervals
           else Ok (revoker w));
  do a <- revoke_each (alloc_state w) intervals;
  Ok (set_alloc_state (set_revoker w r) a).

(** [ival.data in data_coalesced] *)
Definition data_in (i : AddrIval) (data_coalesced : list (option AddrIvalState))
  : bool :=
  existsb (ostate_eqb (state i)) data_coalesced.

(** The first loop of [intervaltree_query_coalesced]:
    [while ival_left and ival_left.data in data_coalesced]. *)
Fixpoint coalesce_left (fuel : nat) (tree : IntervalTree)
    (data_coalesced : list (option AddrIvalState))
    (ival_left : option AddrIval) (b : Z) : result Z :=
  match ival_left with
  | Some il =>
      if data_in il data_coalesced then
        match fuel with
        | O => Raise OutOfFuel
        | S fuel' =>
            let b := begin il in
            do next <- intervaltree_query_checked tree (b - 1);
            coalesce_left fuel' tree data_coalesced next b
        end
      else Ok b
  | None => Ok b
  end.

(** The second loop:
    [while ival_right and ival_right.data in data_coalesced]. *)
Fixpoint coalesce_right (fuel : nat) (tree : IntervalTree)
    (data_coalesced : list (option AddrIvalState))
    (ival_right : option AddrIval) (e : Z) : result Z :=
  match ival_right with
  | Some ir =>
      if data_in ir data_coalesced then
        match fuel with
        | O => Raise OutOfFuel
        | S fuel' =>
            let e := end_ ir in
            do next <- intervaltree_query_checked tree e;
            coalesce_right fuel' tree data_coalesced next e
        end
      else Ok e
  | None => Ok e
  end.

(** [intervaltree_query_coalesced(tree, point, coalesce_with=...)].  Both
    loops run at least once, so the values [begin] and [end] start from
    are never the ones returned. *)
Definition intervaltree_query_coalesced (tree : IntervalTree) (point : Z)
    (coalesce_with : list (option AddrIvalState)) : result (option AddrIval) :=
  do q <- intervaltree_query_checked tree point;
  match q with
  | None => Ok None
  | Some ival =>
      let data_coalesced := state ival :: coalesce_with in
      do b <- coalesce_left (List.length tree) tree data_coalesced (Some ival) (begin ival);
      do e <- coalesce_right (List.length tree) tree data_coalesced (Some ival) (end_ ival);
      Ok (Some (mkIval b e (state ival)))
  end.

(** The order of [Interval]s on [(begin, end)]; the intervals compared
    below all carry the same data. *)
Definition ival_leb (i j : AddrIval) : bool :=
  (begin i <? begin j) || ((begin i =? begin j) && (end_ i <=? end_ j)).

Fixpoint sort_insert (i : AddrIval) (l : list AddrIval) : list AddrIval :=
  match l with
  | [] => [i]
  | j :: l' => if ival_leb i j then i :: l else j :: sort_insert i l'
  end.

(** [intervals.sort(reverse=True)] followed by [intervals.pop()] visits
    the intervals in ascending order; [sort_intervals] lists them in that
    order of visit. *)
Definition sort_intervals (l : list AddrIval) : list AddrIval :=
  fold_right sort_insert [] l.

(** The inner loop of [CompactingSweepingRevoker.reused]:
    [while intervals and ival.end >= intervals[-1].begin]. *)
Fixpoint drop_coalesced (ival : AddrIval) (intervals : list AddrIval)
  : result (list AddrIval) :=
  match intervals with
  | [] => Ok []
  | i :: rest =>
      if begin i <=? end_ ival then
        if begin i <? end_ ival then drop_coalesced ival rest
        else Raise AssertionError
      else Ok intervals
  end.

(** The outer loop, [while intervals]; every round pops at least one
    interval, so [length intervals] rounds are enough. *)
Fixpoint coalesce_all (fuel : nat) (tree : IntervalTree) (intervals : list AddrIval)
  : result (list AddrIval) :=
  match intervals with
  | [] => Ok []
  | i :: rest =>
      match fuel with
      | O => Raise OutOfFuel
      | S fuel' =>
          do q <- intervaltree_query_coalesced tree (begin i) [Some REVOKED];
          match q with
          | None => Raise AttributeError
          | Some ival =>
              do rest' <- drop_coalesced ival rest;
              do more <- coalesce_all fuel' tree rest';
              Ok (ival :: more)
          end
      end
  end.

(** The batch [intervals_coalesced] of [CompactingSweepingRevoker.reused]. *)
Definition intervals_coalesced (a : AllocatorAddrSpaceModel)
  : result (list AddrIval) :=
  let intervals :=
    sort_intervals (List.filter (state_is FREED) (addr_ivals a None None)) in
  coalesce_all (List.length intervals) (_addr_ivals a) intervals.

(** [CompactingSweepingRevoker.reused] *)
Definition CompactingSweepingRevoker_reused : Subscriber := fun w b e =>
  do batch <- intervals_coalesced (alloc_state w);
  do r <- (if nonempty batch
           then _sweep (revoker w) (addr_space_size w) batch
           else Ok (revoker w));
  do a <- revoke_each (alloc_state w) batch;
  Ok (set_alloc_state (set_revoker w r) a).

(** ** The allocation-map output *)

(** [AllocationMapOutput.reused] *)
Definition AllocationMapOutput_reused : Subscriber := fun w b e =>
  do t <- tree_add (_addr_ivals_reused w) (mkIval b e None);
  Ok {| alloc_state := alloc_state w;
        addr_space_size := addr_space_size w;
        revoker := revoker w;
        _addr_ivals_reused := t |}.

(** *** [0.80 * csize] in binary64 *)

Definition prec64 : Z := 53.
Definition emax64 : Z := 1024.

(** The double nearest to 0.80: [7205759403792794 * 2^-53]. *)
Definition float_080 : spec_float := S754_finite false 7205759403792794 (-53).

(** Conversion of a Python integer to a double (round to nearest, ties
    to even). *)
Definition float_of_int (n : Z) : spec_float :=
  binary_normalize prec64 emax64 n 0 false.

(** [c >= f] for an integer [c] and a double [f]; Python compares the
    two exactly. *)
Definition int_ge_float (c : Z) (f : spec_float) : bool :=
  match f with
  | S754_zero _ => 0 <=? c
  | S754_infinity s => s
  | S754_nan => false
  | S754_finite s m e =>
      let v := if s then Z.neg m else Z.pos m in
      if 0 <=? e then v * 2 ^ e <=? c else v <=? c * 2 ^ (- e)
  end.

(** [cover >= 0.80 * csize] *)
Definition ge_080 (cover csize : Z) : bool :=
  int_ge_float cover (SFmul prec64 emax64 float_080 (float_of_int csize)).

(** [sum((min(i.end, cend) - max(i.begin, cbegin)) for i in coverlaps)] *)
Definition coverage (coverlaps : list AddrIval) (cbegin cend : Z) : Z :=
  sum_Z (List.map (fun i => Z.min (end_ i) cend - Z.max (begin i) cbegin) coverlaps).

Definition state_in (i : AddrIval) (l : list AddrIvalState) : bool :=
  existsb (fun s => state_is s i) l.

(** [AllocationMapOutput._chunk_state] *)
Definition _chunk_state (w : World) (cbegin cend : Z) : string :=
  let csize := cend - cbegin in
  let coverlaps :=
    addr_ivals_coalesced_sorted (alloc_state w) (Some cbegin) (Some cend) in
  if nonempty (tree_search (_addr_ivals_reused w) cbegin cend) then "~"
  else if forallb (fun i => state_in i [MAPD; UNMAPD; FREED; REVOKED]) coverlaps
  then "0"
  else if forallb (state_is ALLOCD) coverlaps &&
          ge_080 (coverage coverlaps cbegin cend) csize
  then "#"
  else "="%string.

(** ** Sequences of operations *)

Inductive Op : Type :=
| OpAllocd (b e : Z)
| OpFreed (b : Z)
| OpRevoked (bes : list (Z * Z))
| OpMapd (callstack : string) (b e : Z)
| OpUnmapd (callstack : string) (b e : Z)
| OpSizeMeasured (size : Z).

Definition apply_op (subscribers : list Subscriber) (w : World) (op : Op)
  : result World :=
  match op with
  | OpAllocd b e => allocd subscribers w b e
  | OpFreed b =>
      do a <- freed (alloc_state w) b; Ok (set_alloc_state w a)
  | OpRevoked bes =>
      do a <- revoked (alloc_state w) bes; Ok (set_alloc_state w a)
  | OpMapd cs b e => Ok (set_alloc_state w (mapd (alloc_state w) cs b e))
  | OpUnmapd cs b e => Ok (set_alloc_state w (unmapd (alloc_state w) cs b e))
  | OpSizeMeasured size => Ok (size_measured w size)
  end.

Fixpoint apply_ops (subscribers : list Subscriber) (w : World) (ops : list Op)
  : result World :=
  match ops with
  | [] => Ok w
  | op :: ops' => do w1 <- apply_op subscribers w op; apply_ops subscribers w1 ops'
  end.

(** The subscribers the program registers: the revoker of the selected
    class and, when an allocation-map output is requested, that output. *)
Inductive SubscriberKind : Type :=
| Naive
| Compacting
| MapOutput.

Definition subscriber_of (k : SubscriberKind) : Subscriber :=
  match k with
  | Naive => NaiveSweepingRevoker_reused
  | Compacting => CompactingSweepingRevoker_reused
  | MapOutput => AllocationMapOutput_reused
  end.

(** ** Predicates used in the statements *)

(** Some stored interval covers [p] and carries state [s]. *)
Definition covers (t : IntervalTree) (p : Z) (s : option AddrIvalState) : Prop :=
  exists i, In i t /\ begin i <= p < end_ i /\ state i = s.

(** No address is covered by two stored intervals. *)
Definition disjoint (t : IntervalTree) : Prop :=
  forall i j p, In i t -> In j t ->
    begin i <= p < end_ i -> begin j <= p < end_ j -> i = j.

(** The shape every reachable tree has: a set of non-null, pairwise
    disjoint intervals. *)
Definition tree_ok (t : IntervalTree) : Prop :=
  NoDup t /\ (forall i, In i t -> begin i < end_ i) /\ disjoint t.




(** The number of bytes of [[lo, hi)] that the map gives state [st]. *)
Definition bytes_in (st : AddrIvalState) (m : IntervalMap) (lo hi : Z) : Z :=
  sum_Z (List.map
           (fun i => if state_is st i
                     then Z.max 0 (Z.min (end_ i) hi - Z.max (begin i) lo)
                     else 0) m).

(** A subscriber that leaves a well-formed tree well formed. *)
Definition keeps_ok (s : Subscriber) : Prop :=
  forall w b e w',
    tree_ok (_addr_ivals (alloc_state w)) -> s w b e = Ok w' ->
    tree_ok (_addr_ivals (alloc_state w')).

(** Two ranges that do not overlap. *)
Definition separate (x y : AddrIval) : Prop :=
  end_ x <= begin y \/ end_ y <= begin x.



(** A decision procedure for [tree_ok], for concrete trees. *)
Fixpoint tree_okb (t : IntervalTree) : bool :=
  match t with
  | [] => true
  | i :: t' =>
      (begin i <? end_ i) &&
      forallb (fun j => (end_ j <=? begin i) || (end_ i <=? begin j)) t' &&
      tree_okb t'
  end.


(** The Freed intervals of the tree that overlap [[b, e)]. *)
Definition overlaps_freed (t : IntervalTree) (b e : Z) : list AddrIval :=
  filter (state_is FREED) (tree_search t b e).

(** No stored interval of the map is null. *)
Definition imap_nonnull (m : IntervalMap) : bool :=
  forallb (fun i => begin i <? end_ i) m.

(** The call stack names one of the allocator's entry points. *)
Definition allocator_frame (callstack : string) : bool :=
  existsb (fun frame => str_find frame callstack)
    ["malloc"; "calloc"; "realloc"; "free"]%string.


(** ** [reallocd] *)

(** [Interval.overlaps(other)] *)
Definition ival_overlaps (i j : AddrIval) : bool :=
  overlaps_range i (begin j) (end_ j).

(** [Interval.lt(other)], strictly before; null intervals are not compared. *)
Definition ival_lt (i j : AddrIval) : result bool :=
  if is_null i || is_null j then Raise ValueError
  else Ok (end_ i <=? begin j).

(** [Interval.gt(other)], strictly after. *)
Definition ival_gt (i j : AddrIval) : result bool :=
  if is_null i || is_null j then Raise ValueError
  else Ok (end_ j <=? begin i).

(** [AllocatorAddrSpaceModel.reallocd] *)
Definition reallocd (subscribers : list Subscriber) (w : World)
    (begin_old begin_new end_new : Z) : result World :=
  let a := alloc_state w in
  do q <- intervaltree_query_checked (_addr_ivals a) begin_old;
  match q with
  | None => allocd subscribers w begin_new end_new
  | Some interval_old =>
      let interval_new := mkIval begin_new end_new (Some ALLOCD) in
      do w1 <-
        (if ival_overlaps interval_new interval_old then
           let a1 := _update a (mkIval (begin interval_old) (end_ interval_old)
                                  (Some FREED)) in
           do t1 <- tree_remove (_addr_ivals a1) interval_old;
           do is_lt <- ival_lt interval_new interval_old;
           do t2 <- (if is_lt
                     then tree_add t1 (mkIval (end_ interval_new) (end_ interval_old)
                                         (Some FREED))
                     else Ok t1);
           do is_gt <- ival_gt interval_new interval_old;
           do t3 <- (if is_gt
                     then tree_add t2 (mkIval (begin interval_old) (begin interval_new)
                                         (Some FREED))
                     else Ok t2);
           Ok (set_alloc_state w (set_tree a1 t3))
         else
           do a1 <- freed a begin_old; Ok (set_alloc_state w a1));
      allocd subscribers w1 begin_new end_new
  end.

(** The events of a trace that reach the allocator model. *)
Inductive Event : Type :=
| EvOp (op : Op)
| EvReallocd (begin_old begin_new end_new : Z).

Definition apply_event (subscribers : list Subscriber) (w : World) (ev : Event)
  : result World :=
  match ev with
  | EvOp op => apply_op subscribers w op
  | EvReallocd begin_old begin_new end_new =>
      reallocd subscribers w begin_old begin_new end_new
  end.

Fixpoint apply_events (subscribers : list Subscriber) (w : World) (evs : list Event)
  : result World :=
  match evs with
  | [] => Ok w
  | ev :: evs' =>
      do w1 <- apply_event subscribers w ev; apply_events subscribers w1 evs'
  end.

(** The interval tree and the coalesced map record the same state at
    every address that carries one. *)
Definition agree (a : AllocatorAddrSpaceModel) : Prop :=
  forall p st,
    covers (_addr_ivals a) p (Some st) <-> covers (__addr_ivals a) p (Some st).

(** [t'] is [t] with the addresses of [[lo, hi)] given state [x]. *)
Definition overwritten (t t' : list AddrIval) (lo hi : Z) (x : AddrIvalState)
  : Prop :=
  forall p s,
    covers t' p s <->
    (lo <= p < hi /\ s = Some x) \/ ((p < lo \/ hi <= p) /\ covers t p s).

(** What every reachable allocator model satisfies. *)
Definition model_ok (a : AllocatorAddrSpaceModel) : Prop :=
  tree_ok (_addr_ivals a) /\ imap_nonnull (__addr_ivals a) = true.

(** Operations that write to the interval tree and the map alike. *)
Definition lifecycle_op (op : Op) : bool :=
  match op with
  | OpMapd _ _ _ | OpUnmapd _ _ _ => false
  | _ => true
  end.

(** [a'] comes from [a] by calls of [_update] and changes of the
    interval tree: the only ways the operations touch an allocator
    model. *)
Inductive updates (a : AllocatorAddrSpaceModel) : AllocatorAddrSpaceModel -> Prop :=
| updates_refl : updates a a
| updates_update a1 iv : updates a a1 -> updates a (_update a1 iv)
| updates_tree a1 t : updates a a1 -> updates a (set_tree a1 t).

(** The running totals are what a full rescan of the map would give. *)
Definition totals_ok (a : AllocatorAddrSpaceModel) : Prop :=
  allocd_size a = sum_sizes ALLOCD (__addr_ivals a) /\
  mapd_size a = sum_sizes MAPD (__addr_ivals a).

(** ** Traces replayed on the accounting model *)

(** The calls a trace makes on an [AccountingAddrSpaceModel]. *)
Inductive AccEvent : Type :=
| AccMapd (b e : Z)
| AccUnmapd (b e : Z)
| AccAllocd (b e : Z)
| AccFreed (b : Z)
| AccReallocd (obegin nbegin nend : Z).

Definition acc_apply (m : Accounting.AccountingAddrSpaceModel) (ev : AccEvent)
  : Accounting.AccountingAddrSpaceModel :=
  match ev with
  | AccMapd b e => Accounting.mapd m b e
  | AccUnmapd b e => Accounting.unmapd m b e
  | AccAllocd b e => Accounting.allocd m b e
  | AccFreed b => Accounting.freed m b
  | AccReallocd ob nb ne => Accounting.reallocd m ob nb ne
  end.

Definition acc_run (m : Accounting.AccountingAddrSpaceModel) (evs : list AccEvent)
  : Accounting.AccountingAddrSpaceModel :=
  fold_left acc_apply evs m.

(** The sizes recorded in the table [_va2sz], added up. *)
Definition live_total (m : Accounting.AccountingAddrSpaceModel) : Z :=
  map_fold (fun _ sz acc => sz + acc) 0 (Accounting._va2sz m).

(** The size recorded at [b], if any, which an allocation at [b]
    overwrites in the table. *)
Definition clobbered_at (m : Accounting.AccountingAddrSpaceModel) (b : Z) : Z :=
  match Accounting._va2sz m !! b with Some sz => sz | None => 0 end.

(** The sizes overwritten in the table while a trace is replayed. *)
Fixpoint clobbered (m : Accounting.AccountingAddrSpaceModel) (evs : list AccEvent)
  : Z :=
  match evs with
  | [] => 0
  | ev :: evs' =>
      match ev with
      | AccAllocd b _ => clobbered_at m b
      | AccReallocd ob nb _ => clobbered_at (Accounting.freed m ob) nb
      | _ => 0
      end + clobbered (acc_apply m ev) evs'
  end.

(** No allocation of the trace starts at an address whose allocation is
    still recorded. *)
Fixpoint starts_fresh (m : Accounting.AccountingAddrSpaceModel)
    (evs : list AccEvent) : bool :=
  match evs with
  | [] => true
  | ev :: evs' =>
      match ev with
      | AccAllocd b _ =>
          match Accounting._va2sz m !! b with Some _ => false | None => true end
      | AccReallocd ob nb _ =>
          match Accounting._va2sz (Accounting.freed m ob) !! nb with
          | Some _ => false
          | None => true
          end
      | _ => true
      end && starts_fresh (acc_apply m ev) evs'
  end.

(** ** Rendering the allocation map *)

(** [range(start, stop, step)], as the list of its elements; a zero
    step raises [ValueError]. *)
Definition py_range (start stop step : Z) : result (list Z) :=
  if step =? 0 then Raise ValueError
  else
    let n := if 0 <? step
             then (stop - start + step - 1) / step
             else (start - stop - step - 1) / (- step) in
    Ok (List.map (fun k => start + Z.of_nat k * step) (seq 0 (Z.to_nat n))).

(** [itertools.zip_longest(l1, l2, fillvalue=fillvalue)] *)
Fixpoint zip_longest (l1 l2 : list Z) (fillvalue : Z) : list (Z * Z) :=
  match l1 with
  | [] => List.map (fun y => (fillvalue, y)) l2
  | x :: l1' =>
      match l2 with
      | [] => (x, fillvalue) :: zip_longest l1' [] fillvalue
      | y :: l2' => (x, y) :: zip_longest l1' l2' fillvalue
      end
  end.

Definition POOL_MAX_ARTIFICIAL_GROWTH : Z := 4096.
Definition POOL_MAP_RESOLUTION_IN_SYMBOLS : Z := 60.

(** The chunk size printed for a pool and the bounds [(cb, ce)] of its
    chunks, as the loop body of [AllocationMapOutput.update] computes
    them. *)
Definition chunk_bounds (p : AddrIval) : result (Z * list (Z * Z)) :=
  let psize := end_ p - begin p in
  let chunk_size0 := psize / POOL_MAP_RESOLUTION_IN_SYMBOLS in
  let rem0 := psize mod POOL_MAP_RESOLUTION_IN_SYMBOLS in
  let chunk_size := if 0 <? chunk_size0 then chunk_size0 else psize in
  let rem := if 0 <? chunk_size0 then rem0 else 0 in
  do r1 <- py_range 0 (rem * (chunk_size + 1)) (chunk_size + 1);
  do r2 <- py_range (rem * (chunk_size + 1)) psize chunk_size;
  let chunks := List.map (fun co => begin p + co) (r1 ++ r2) in
  Ok (chunk_size, zip_longest chunks (tl chunks) (end_ p)).

(** The line printed for a pool: its bounds, the symbols of its chunks
    and the chunk size. *)
Definition pool_row (w : World) (p : AddrIval) : result (Z * Z * string * Z) :=
  do cb <- chunk_bounds p;
  let chunk_states :=
    List.map (fun be => _chunk_state w (fst be) (snd be)) (snd cb) in
  Ok (begin p, end_ p, String.concat "" chunk_states, fst cb).

Fixpoint pool_rows (w : World) (pools : list AddrIval)
  : result (list (Z * Z * string * Z)) :=
  match pools with
  | [] => Ok []
  | p :: pools' =>
      do row <- pool_row w p;
      do rows <- pool_rows w pools';
      Ok (row :: rows)
  end.

(** The loops of [_get_memory_pools] on the intervals still to be
    popped, in the order they are popped; of the pool being built
    [pool[0].begin] and [pool[-1].end] are kept. *)
Fixpoint pools_from (pool_begin pool_end : Z) (ivals : list AddrIval)
  : result (list AddrIval) :=
  match ivals with
  | [] => Ok [mkIval pool_begin pool_end None]
  | i :: rest =>
      if begin i - pool_end <? POOL_MAX_ARTIFICIAL_GROWTH then
        if pool_end <=? begin i
        then pools_from pool_begin (end_ i) rest
        else Raise AssertionError
      else
        do pools <- pools_from (begin i) (end_ i) rest;
        Ok (mkIval pool_begin pool_end None :: pools)
  end.

Definition memory_pools (ivals : list AddrIval) : result (list AddrIval) :=
  match ivals with
  | [] => Ok []
  | i :: rest => pools_from (begin i) (end_ i) rest
  end.

(** [AllocationMapOutput._get_memory_pools] *)
Definition _get_memory_pools (a : AllocatorAddrSpaceModel)
  : result (list AddrIval) :=
  memory_pools
    (List.filter (fun i => negb (state_is UNMAPD i))
       (addr_ivals_coalesced_sorted a None None)).

(** The body of [AllocationMapOutput.update]: the rows printed after
    the separator line, and the output with its buffer emptied. *)
Definition AllocationMapOutput_update (w : World)
  : result (list (Z * Z * string * Z) * World) :=
  do pools <- _get_memory_pools (alloc_state w);
  do rows <- pool_rows w pools;
  Ok (rows,
      {| alloc_state := alloc_state w;
         addr_space_size := addr_space_size w;
         revoker := revoker w;
         _addr_ivals_reused := [] |}).

(** [BaseOutput.rate_limited_runms]: one call of the wrapped method
    when [run.timestamp_ms] is [timestamp_ms], an integer; the answer
    is whether [meth] runs, and the closure variable [call_last_ms]
    after the call. *)
Definition rate_limited_meth (call_period_ms call_last_ms timestamp_ms : Z)
  : bool * Z :=
  if (call_last_ms =? 0) || (call_period_ms <? timestamp_ms - call_last_ms)
  then (true, timestamp_ms)
  else (false, call_last_ms).

(** The timestamps at which [meth] runs over successive calls. *)
Fixpoint rate_limited_runs (call_period_ms call_last_ms : Z) (timestamps : list Z)
  : list Z :=
  match timestamps with
  | [] => []
  | t :: ts =>
      let r := rate_limited_meth call_period_ms call_last_ms t in
      if fst r
      then t :: rate_limited_runs call_period_ms (snd r) ts
      else rate_limited_runs call_period_ms (snd r) ts
  end.

(** Offset of the [k]-th chunk boundary in a pool of [psize] bytes. *)
Definition chunk_offset (psize k : Z) : Z :=
  k * (psize / POOL_MAP_RESOLUTION_IN_SYMBOLS)
  + Z.min k (psize mod POOL_MAP_RESOLUTION_IN_SYMBOLS).

(** [x] ends where [y] begins, or before. *)
Definition touching (x y : AddrIval) : Prop := end_ x <= begin y.

(** [y] begins at least the pool distance after the end of [x]. *)
Definition far_apart (x y : AddrIval) : Prop :=
  end_ x + POOL_MAX_ARTIFICIAL_GROWTH <= begin y.

(** The number of gaps of at least the pool distance between
    neighbours, the first of which ends at [prev_end]. *)
Fixpoint wide_gaps (prev_end : Z) (ivals : list AddrIval) : nat :=
  match ivals with
  | [] => 0
  | i :: rest =>
      let rest_gaps := wide_gaps (end_ i) rest in
      if begin i - prev_end <? POOL_MAX_ARTIFICIAL_GROWTH
      then rest_gaps else S rest_gaps
  end.

(** The map lists non-empty intervals in ascending order, none
    reaching into a later one. *)
Definition imap_sorted (m : IntervalMap) : Prop :=
  StronglySorted touching m /\ imap_nonnull m = true.

(** A printed row belongs to pool [p]: sixty symbols for a pool of
    sixty bytes or more, one symbol for a smaller one. *)
Definition row_of_pool (p : AddrIval) (row : Z * Z * string * Z) : Prop :=
  exists symbols chunk_size,
    row = (begin p, end_ p, symbols, chunk_size) /\
    ((60 <= end_ p - begin p /\ String.length symbols = 60%nat /\
      chunk_size = (end_ p - begin p) / 60) \/
     (end_ p - begin p < 60 /\ String.length symbols = 1%nat /\
      chunk_size = end_ p - begin p)).

(** Address [p] lies in a stored interval whose data is one of
    [data_coalesced]. *)
Definition covers_in (t : IntervalTree)
    (data_coalesced : list (option AddrIvalState)) (p : Z) : Prop :=
  exists i, In i t /\ begin i <= p < end_ i /\ data_in i data_coalesced = true.

(** * Properties *)

(** ** Equality tests *)

Lemma state_eqb_eq (s t : AddrIvalState) : state_eqb s t = true <-> s = t.
Proof. destruct s, t; simpl; split; intros H; try reflexivity; discriminate. Qed.

Lemma ostate_eqb_eq (s t : option AddrIvalState) : ostate_eqb s t = true <-> s = t.
Proof.
  destruct s as [a|], t as [b|]; simpl.
  - rewrite state_eqb_eq. split; [intros ->; reflexivity | intros [= ->]; reflexivity].
  - split; discriminate.
  - split; discriminate.
  - tauto.
Qed.

Lemma ival_eqb_eq (i j : AddrIval) : ival_eqb i j = true <-> i = j.
Proof.
  unfold ival_eqb. rewrite !andb_true_iff, !Z.eqb_eq, ostate_eqb_eq.
  destruct i, j; simpl. split.
  - intros [[-> ->] ->]. reflexivity.
  - intros [= -> -> ->]. auto.
Qed.

Lemma ival_eqb_neq (i j : AddrIval) : ival_eqb i j = false <-> i <> j.
Proof.
  rewrite <- ival_eqb_eq. destruct (ival_eqb i j); split; congruence.
Qed.


Lemma nonempty_false {A : Type} (l : list A) : nonempty l = false <-> l = [].
Proof. destruct l; simpl; split; congruence. Qed.

Lemma nonempty_true {A : Type} (l : list A) : nonempty l = true <-> l <> [].
Proof. destruct l; simpl; split; congruence. Qed.

(** ** Membership in the results of the tree operations *)

Lemma tree_mem_In (i : AddrIval) (t : IntervalTree) : tree_mem i t = true <-> In i t.
Proof.
  unfold tree_mem. rewrite existsb_exists. split.
  - intros [j [Hj He]]. apply ival_eqb_eq in He. now subst.
  - intros H. exists i. split; [assumption | now apply ival_eqb_eq].
Qed.

Lemma tree_mem_not_In (i : AddrIval) (t : IntervalTree) :
  tree_mem i t = false <-> ~ In i t.
Proof.
  rewrite <- tree_mem_In. destruct (tree_mem i t); split; congruence.
Qed.

Lemma In_tree_at (t : IntervalTree) (p : Z) (i : AddrIval) :
  In i (tree_at t p) <-> In i t /\ begin i <= p < end_ i.
Proof.
  unfold tree_at, contains_point. rewrite filter_In, andb_true_iff.
  rewrite Z.leb_le, Z.ltb_lt. tauto.
Qed.

Lemma In_tree_search (t : IntervalTree) (b e : Z) (i : AddrIval) :
  In i (tree_search t b e) <-> In i t /\ b < e /\ begin i < e /\ b < end_ i.
Proof.
  unfold tree_search, overlaps_range.
  destruct (Z.leb_spec e b).
  - simpl. split; [tauto | lia].
  - rewrite filter_In, andb_true_iff, !Z.ltb_lt. tauto.
Qed.

Lemma In_tree_discard (t : IntervalTree) (i j : AddrIval) :
  In j (tree_discard t i) <-> In j t /\ j <> i.
Proof.
  unfold tree_discard. rewrite filter_In, negb_true_iff, ival_eqb_neq.
  split; intros [H1 H2]; split; auto.
Qed.

Lemma In_tree_difference_update (l : list AddrIval) (t : IntervalTree) (j : AddrIval) :
  In j (tree_difference_update t l) <-> In j t /\ ~ In j l.
Proof.
  unfold tree_difference_update. revert t.
  induction l as [|x l IH]; intros t; simpl.
  - tauto.
  - rewrite IH, In_tree_discard. split.
    + intros [[H1 H2] H3]. split; [assumption|]. intros [->|H]; auto.
    + intros [H1 H2]. repeat split; auto.
Qed.

Lemma In_tree_update (l : list AddrIval) (t : IntervalTree) (j : AddrIval) :
  In j (tree_update t l) <-> In j t \/ In j l.
Proof.
  unfold tree_update. revert t.
  induction l as [|x l IH]; intros t; simpl.
  - tauto.
  - rewrite IH. destruct (tree_mem x t) eqn:Hx.
    + apply tree_mem_In in Hx. split; [tauto|].
      intros [H|[->|H]]; auto.
    + simpl. split; intros H; intuition congruence.
Qed.

Lemma NoDup_tree_discard (t : IntervalTree) (i : AddrIval) :
  NoDup t -> NoDup (tree_discard t i).
Proof. unfold tree_discard. apply NoDup_filter. Qed.

Lemma NoDup_tree_difference_update (l : list AddrIval) (t : IntervalTree) :
  NoDup t -> NoDup (tree_difference_update t l).
Proof.
  unfold tree_difference_update. revert t.
  induction l as [|x l IH]; intros t H; simpl; [assumption|].
  apply IH. now apply NoDup_tree_discard.
Qed.

Lemma NoDup_tree_update (l : list AddrIval) (t : IntervalTree) :
  NoDup t -> NoDup (tree_update t l).
Proof.
  unfold tree_update. revert t.
  induction l as [|x l IH]; intros t H; simpl; [assumption|].
  apply IH. destruct (tree_mem x t) eqn:Hx; [assumption|].
  constructor; [now apply tree_mem_not_In | assumption].
Qed.

Lemma In_begin_hits (t : IntervalTree) (b : Z) (i : AddrIval) :
  In i (filter (fun i => begin i <? b) (tree_at t b)) <->
  In i t /\ begin i < b < end_ i.
Proof. rewrite filter_In, In_tree_at, Z.ltb_lt. split; intros H; repeat split; try tauto; lia. Qed.

Lemma In_end_hits (t : IntervalTree) (e : Z) (i : AddrIval) :
  In i (filter (fun i => e <? end_ i) (tree_at t e)) <->
  In i t /\ begin i <= e < end_ i.
Proof. rewrite filter_In, In_tree_at, Z.ltb_lt. tauto. Qed.

Lemma In_tree_remove_envelop (t : IntervalTree) (b e : Z) (j : AddrIval) :
  In j (tree_remove_envelop t b e) <->
  In j t /\ ~ (b < e /\ b <= begin j /\ end_ j <= e /\ begin j < e /\ b < end_ j).
Proof.
  unfold tree_remove_envelop.
  rewrite In_tree_difference_update, filter_In, In_tree_search.
  rewrite andb_true_iff, !Z.leb_le. tauto.
Qed.

(** What [chop] leaves: the intervals it does not touch, and the pieces
    of the intervals that stick out on either side. *)
Lemma In_tree_chop (t : IntervalTree) (b e : Z) (j : AddrIval) :
  In j (tree_chop t b e) <->
  (In j t /\
   ~ (b < e /\ b <= begin j /\ end_ j <= e /\ begin j < e /\ b < end_ j) /\
   ~ (begin j < b < end_ j) /\
   ~ (begin j <= e < end_ j)) \/
  (exists i, In i t /\ begin i < b < end_ i /\ j = mkIval (begin i) b (state i)) \/
  (exists i, In i t /\ begin i <= e < end_ i /\ j = mkIval e (end_ i) (state i)).
Proof.
  unfold tree_chop.
  rewrite In_tree_update, !In_tree_difference_update, In_tree_remove_envelop.
  rewrite in_app_iff, !in_map_iff, In_begin_hits, In_end_hits.
  split.
  - intros [[[[H1 H2] H3] H4]|[[i [Hi Hin]]|[i [Hi Hin]]]].
    + left. tauto.
    + right; left. apply In_begin_hits in Hin. exists i. intuition auto.
    + right; right. apply In_end_hits in Hin. exists i. intuition auto.
  - intros [[H1 [H2 [H3 H4]]]|[[i [Hi [Hr ->]]]|[i [Hi [Hr ->]]]]].
    + left. tauto.
    + right; left. exists i. split; [reflexivity|]. now apply In_begin_hits.
    + right; right. exists i. split; [reflexivity|]. now apply In_end_hits.
Qed.

(** ** Chopping, address by address *)

Lemma chop_covers (t : IntervalTree) (b e p : Z) (s : option AddrIvalState) :
  b < e ->
  covers (tree_chop t b e) p s <-> covers t p s /\ (p < b \/ e <= p).
Proof.
  intros Hbe. unfold covers. split.
  - intros [j [Hj [Hp Hs]]]. apply In_tree_chop in Hj.
    destruct Hj as [[H1 [H2 [H3 H4]]]|[[i [Hi [Hr ->]]]|[i [Hi [Hr ->]]]]].
    + split; [exists j; auto | lia].
    + simpl in *. split; [exists i; repeat split; auto; lia | lia].
    + simpl in *. split; [exists i; repeat split; auto; lia | lia].
  - intros [[i [Hi [Hp Hs]]] Hout].
    destruct (Z_lt_dec (begin i) b) as [Hb|Hb];
      [destruct (Z_lt_dec b (end_ i)) as [Hb'|Hb']|].
    + (* [i] sticks out on the left *)
      destruct Hout as [Hout|Hout].
      * exists (mkIval (begin i) b (state i)). simpl.
        split; [|split; [lia | assumption]].
        apply In_tree_chop. right; left. exists i. auto.
      * exists (mkIval e (end_ i) (state i)). simpl.
        split; [|split; [lia | assumption]].
        apply In_tree_chop. right; right. exists i. repeat split; auto; lia.
    + exists i. split; [|auto]. apply In_tree_chop. left. repeat split; auto; lia.
    + destruct (Z_le_dec (begin i) e) as [He|He];
        [destruct (Z_lt_dec e (end_ i)) as [He'|He']|].
      * exists (mkIval e (end_ i) (state i)). simpl.
        split; [|split; [lia | assumption]].
        apply In_tree_chop. right; right. exists i. auto.
      * exists i. split; [|auto]. apply In_tree_chop. left. repeat split; auto; lia.
      * exists i. split; [|auto]. apply In_tree_chop. left. repeat split; auto; lia.
Qed.

Lemma chop_no_overlap (t : IntervalTree) (b e : Z) (j : AddrIval) :
  b < e -> In j (tree_chop t b e) -> end_ j <= b \/ e <= begin j.
Proof.
  intros Hbe Hj. apply In_tree_chop in Hj.
  destruct Hj as [[H1 [H2 [H3 H4]]]|[[i [Hi [Hr ->]]]|[i [Hi [Hr ->]]]]];
    simpl; lia.
Qed.

Lemma chop_ok (t : IntervalTree) (b e : Z) :
  b < e -> tree_ok t -> tree_ok (tree_chop t b e).
Proof.
  intros Hbe (Hnd & Hnn & Hdj). split; [|split].
  - unfold tree_chop. apply NoDup_tree_update.
    now repeat apply NoDup_tree_difference_update.
  - intros j Hj. apply In_tree_chop in Hj.
    destruct Hj as [[H1 _]|[[i [Hi [Hr ->]]]|[i [Hi [Hr ->]]]]]; simpl; auto; lia.
  - intros i j p Hi Hj Hpi Hpj.
    apply In_tree_chop in Hi, Hj.
    destruct Hi as [[Hi [Hi2 [Hi3 Hi4]]]|[[i' [Hi [Hri ->]]]|[i' [Hi [Hri ->]]]]];
    destruct Hj as [[Hj [Hj2 [Hj3 Hj4]]]|[[j' [Hj [Hrj ->]]]|[j' [Hj [Hrj ->]]]]];
      simpl in *.
    + eapply Hdj; eauto.
    + assert (i = j') by (eapply (Hdj i j' p); eauto; lia). subst. lia.
    + assert (i = j') by (eapply (Hdj i j' p); eauto; lia). subst. lia.
    + assert (i' = j) by (eapply (Hdj i' j p); eauto; lia). subst. lia.
    + assert (i' = j') by (eapply (Hdj i' j' p); eauto; lia). now subst.
    + lia.
    + assert (i' = j) by (eapply (Hdj i' j p); eauto; lia). subst. lia.
    + lia.
    + assert (i' = j') by (eapply (Hdj i' j' p); eauto; lia). now subst.
Qed.

(** ** Adding and removing, address by address *)

Lemma tree_add_In (t t' : IntervalTree) (i j : AddrIval) :
  tree_add t i = Ok t' -> (In j t' <-> j = i \/ In j t).
Proof.
  unfold tree_add. destruct (tree_mem i t) eqn:Hm.
  - intros [= <-]. apply tree_mem_In in Hm. split; [auto|]. intros [->|H]; auto.
  - destruct (is_null i); [discriminate|]. intros [= <-]. simpl.
    split; intros [H|H]; auto.
Qed.

Lemma tree_add_fresh_ok (t : IntervalTree) (i : AddrIval) :
  begin i < end_ i -> exists t', tree_add t i = Ok t'.
Proof.
  intros H. unfold tree_add. destruct (tree_mem i t); [eauto|].
  unfold is_null. destruct (Z.leb_spec (end_ i) (begin i)); [lia | eauto].
Qed.

Lemma tree_add_nonnull (t t' : IntervalTree) (i : AddrIval) :
  (forall j, In j t -> begin j < end_ j) ->
  tree_add t i = Ok t' -> begin i < end_ i.
Proof.
  intros Hnn. unfold tree_add. destruct (tree_mem i t) eqn:Hm.
  - intros _. apply Hnn. now apply tree_mem_In.
  - unfold is_null. destruct (Z.leb_spec (end_ i) (begin i)); [discriminate | auto].
Qed.

Lemma tree_add_ok (t t' : IntervalTree) (i : AddrIval) :
  tree_ok t ->
  (forall j, In j t -> end_ j <= begin i \/ end_ i <= begin j) ->
  tree_add t i = Ok t' -> tree_ok t'.
Proof.
  intros (Hnd & Hnn & Hdj) Hfree Hadd.
  assert (Hi : begin i < end_ i) by (eapply tree_add_nonnull; eauto).
  unfold tree_add in Hadd. destruct (tree_mem i t) eqn:Hm.
  - injection Hadd as <-. repeat split; auto.
  - destruct (is_null i); [discriminate|]. injection Hadd as <-.
    apply tree_mem_not_In in Hm. split; [|split].
    + now constructor.
    + intros j [<-|Hj]; auto.
    + intros x y p [<-|Hx] [<-|Hy] Hpx Hpy; auto.
      * specialize (Hfree y Hy). lia.
      * specialize (Hfree x Hx). lia.
      * eapply Hdj; eauto.
Qed.

Lemma tree_add_covers (t t' : IntervalTree) (i : AddrIval) (p : Z)
    (s : option AddrIvalState) :
  tree_add t i = Ok t' ->
  covers t' p s <-> (begin i <= p < end_ i /\ state i = s) \/ covers t p s.
Proof.
  intros Hadd. unfold covers. split.
  - intros [j [Hj Hr]]. apply (tree_add_In _ _ _ j Hadd) in Hj.
    destruct Hj as [->|Hj]; [left; tauto | right; eauto].
  - intros [[Hp Hs]|[j [Hj Hr]]].
    + exists i. split; [|auto]. apply (tree_add_In _ _ _ i Hadd). auto.
    + exists j. split; [|auto]. apply (tree_add_In _ _ _ j Hadd). auto.
Qed.

Lemma tree_remove_In (t t' : IntervalTree) (i j : AddrIval) :
  tree_remove t i = Ok t' -> (In j t' <-> In j t /\ j <> i).
Proof.
  unfold tree_remove. destruct (tree_mem i t); [|discriminate].
  intros [= <-]. apply In_tree_discard.
Qed.

Lemma tree_remove_ok (t t' : IntervalTree) (i : AddrIval) :
  tree_ok t -> tree_remove t i = Ok t' -> tree_ok t'.
Proof.
  intros (Hnd & Hnn & Hdj) Hrm.
  assert (Hsub : forall j, In j t' -> In j t)
    by (intros j Hj; now apply (tree_remove_In _ _ _ j Hrm) in Hj).
  unfold tree_remove in Hrm. destruct (tree_mem i t); [|discriminate].
  injection Hrm as <-. split; [|split].
  - now apply NoDup_tree_discard.
  - auto.
  - intros x y p Hx Hy. apply Hdj; auto.
Qed.

(** ** Point queries on a well-formed tree *)

Lemma tree_at_le_1 (t : IntervalTree) (p : Z) :
  tree_ok t -> (List.length (tree_at t p) <= 1)%nat.
Proof.
  intros (Hnd & Hnn & Hdj).
  assert (Hnd' : NoDup (tree_at t p)) by (now apply NoDup_filter).
  destruct (tree_at t p) as [|x [|y l]] eqn:E; simpl; try lia.
  exfalso.
  assert (Hx : In x (tree_at t p)) by (rewrite E; simpl; auto).
  assert (Hy : In y (tree_at t p)) by (rewrite E; simpl; auto).
  apply In_tree_at in Hx, Hy.
  assert (x = y) by (eapply Hdj; intuition eauto).
  subst. inversion Hnd' as [|? ? Hn _]. apply Hn. simpl. auto.
Qed.

Lemma query_checked_ok (t : IntervalTree) (p : Z) :
  tree_ok t ->
  (intervaltree_query_checked t p = Ok None /\
   forall i, In i t -> ~ (begin i <= p < end_ i)) \/
  (exists i, intervaltree_query_checked t p = Ok (Some i) /\
             In i t /\ begin i <= p < end_ i).
Proof.
  intros Hok. pose proof (tree_at_le_1 t p Hok) as Hlen.
  unfold intervaltree_query_checked.
  destruct (tree_at t p) as [|x [|y l]] eqn:E; simpl in Hlen; try lia.
  - left. split; [reflexivity|]. intros i Hi Hp.
    assert (In i (tree_at t p)) by (apply In_tree_at; auto).
    rewrite E in H. contradiction.
  - right. exists x. split; [reflexivity|].
    apply In_tree_at. rewrite E. simpl. auto.
Qed.

(** ** [revoked], one range at a time *)

Lemma _update_tree (a : AllocatorAddrSpaceModel) (iv : AddrIval) :
  _addr_ivals (_update a iv) = _addr_ivals a.
Proof. reflexivity. Qed.

Lemma chop_nonnull (t : IntervalTree) (b e : Z) :
  (forall i, In i t -> begin i < end_ i) ->
  forall j, In j (tree_chop t b e) -> begin j < end_ j.
Proof.
  intros Hnn j Hj. apply In_tree_chop in Hj.
  destruct Hj as [[H1 _]|[[i [Hi [Hr ->]]]|[i [Hi [Hr ->]]]]]; simpl; auto; lia.
Qed.



Lemma revoked_one_tree (a a' : AllocatorAddrSpaceModel) (be : Z * Z) :
  revoked_one a be = Ok a' ->
  tree_add (tree_chop (_addr_ivals a) (fst be) (snd be))
    (mkIval (fst be) (snd be) (Some REVOKED)) = Ok (_addr_ivals a').
Proof.
  unfold revoked_one. simpl.
  destruct (tree_add _ _) as [t'|x]; simpl; [|discriminate].
  now intros [= <-].
Qed.

Lemma revoked_one_covers (a a' : AllocatorAddrSpaceModel) (be : Z * Z) :
  fst be < snd be -> revoked_one a be = Ok a' ->
  forall p s,
    covers (_addr_ivals a') p s <->
    (fst be <= p < snd be /\ s = Some REVOKED) \/
    ((p < fst be \/ snd be <= p) /\ covers (_addr_ivals a) p s).
Proof.
  intros Hbe H p s. apply revoked_one_tree in H.
  rewrite (tree_add_covers _ _ _ p s H), chop_covers by assumption.
  simpl. intuition auto.
Qed.

Lemma revoked_one_ok (a a' : AllocatorAddrSpaceModel) (be : Z * Z) :
  tree_ok (_addr_ivals a) -> revoked_one a be = Ok a' ->
  fst be < snd be /\ tree_ok (_addr_ivals a').
Proof.
  intros Hok H. apply revoked_one_tree in H.
  assert (Hbe : fst be < snd be).
  { apply (tree_add_nonnull _ _ _ (chop_nonnull _ _ _ (proj1 (proj2 Hok))) H). }
  split; [assumption|].
  eapply tree_add_ok; [apply chop_ok; eassumption| |exact H].
  intros j Hj. simpl. apply chop_no_overlap in Hj; auto.
Qed.



Lemma revoked_loop_ok (bes : list (Z * Z)) (a a' : AllocatorAddrSpaceModel) :
  tree_ok (_addr_ivals a) -> revoked_loop a bes = Ok a' ->
  tree_ok (_addr_ivals a').
Proof.
  revert a. induction bes as [|be bes IH]; intros a Hok; simpl.
  - now intros [= <-].
  - destruct (revoked_one a be) as [a1|x] eqn:H1; simpl; [|discriminate].
    intros H. apply (IH a1); [|assumption].
    now apply (revoked_one_ok a a1 be).
Qed.

Lemma revoked_loop_of_revoked (a a' : AllocatorAddrSpaceModel) (bes : list (Z * Z)) :
  revoked a bes = Ok a' -> revoked_loop a bes = Ok a'.
Proof.
  unfold revoked. destruct bes; [discriminate|].
  destruct (existsb _ _); [discriminate | auto].
Qed.

Lemma revoked_ok (a a' : AllocatorAddrSpaceModel) (bes : list (Z * Z)) :
  tree_ok (_addr_ivals a) -> revoked a bes = Ok a' -> tree_ok (_addr_ivals a').
Proof.
  intros Hok H. apply revoked_loop_of_revoked in H. eapply revoked_loop_ok; eauto.
Qed.

Lemma revoke_each_ok (l : list AddrIval) (a a' : AllocatorAddrSpaceModel) :
  tree_ok (_addr_ivals a) -> revoke_each a l = Ok a' -> tree_ok (_addr_ivals a').
Proof.
  revert a. induction l as [|m l IH]; intros a Hok; cbn [revoke_each].
  - now intros [= <-].
  - destruct (revoked a [(begin m, end_ m)]) as [a1|x] eqn:H1; cbn [rbind];
      [|discriminate].
    intros H. apply (IH a1); [|assumption]. eapply revoked_ok; eauto.
Qed.

(** ** [freed] and [allocd] keep the tree well formed *)

Lemma freed_ok (a a' : AllocatorAddrSpaceModel) (b : Z) :
  tree_ok (_addr_ivals a) -> freed a b = Ok a' -> tree_ok (_addr_ivals a').
Proof.
  intros Hok. unfold freed.
  destruct (query_checked_ok (_addr_ivals a) b Hok) as [[Hq Hnone]|[i [Hq [Hi Hp]]]];
    rewrite Hq; simpl.
  - destruct (tree_add _ _) as [t3|x] eqn:Hadd; simpl; [|discriminate].
    intros [= <-]. simpl.
    eapply tree_add_ok; [exact Hok| |exact Hadd].
    intros j Hj. simpl. specialize (Hnone j Hj). lia.
  - destruct (tree_remove (_addr_ivals a) i) as [t1|x] eqn:Hrm; simpl; [|discriminate].
    destruct (tree_add _ _) as [t3|x] eqn:Hadd; simpl; [|discriminate].
    intros [= <-]. simpl.
    pose proof (tree_remove_ok _ _ _ Hok Hrm) as Hok1.
    eapply tree_add_ok; [exact Hok1| |exact Hadd].
    intros j Hj. simpl. apply (tree_remove_In _ _ _ j Hrm) in Hj.
    destruct Hj as [Hj Hne]. destruct Hok as (_ & Hnn & Hdj).
    pose proof (Hnn j Hj) as Hjn.
    destruct (Z_le_dec (end_ j) (begin i)); [auto|].
    destruct (Z_le_dec (end_ i) (begin j)); [auto|].
    exfalso. apply Hne.
    apply (Hdj j i (Z.max (begin i) (begin j))); auto; lia.
Qed.

Lemma _publish_ok (subscribers : list Subscriber) :
  Forall keeps_ok subscribers ->
  forall w b e w',
    tree_ok (_addr_ivals (alloc_state w)) -> _publish subscribers w b e = Ok w' ->
    tree_ok (_addr_ivals (alloc_state w')).
Proof.
  induction 1 as [|s rest Hs _ IH]; intros w b e w' Hok; simpl.
  - now intros [= <-].
  - destruct (s w b e) as [w1|x] eqn:H1; simpl; [|discriminate].
    intros H. eapply IH; [|exact H]. eapply Hs; eauto.
Qed.

Lemma allocd_ok (subscribers : list Subscriber) (w w' : World) (b e : Z) :
  Forall keeps_ok subscribers ->
  tree_ok (_addr_ivals (alloc_state w)) -> allocd subscribers w b e = Ok w' ->
  tree_ok (_addr_ivals (alloc_state w')).
Proof.
  intros Hsubs Hok. unfold allocd.
  set (overlaps := tree_search (_addr_ivals (alloc_state w)) b e).
  destruct (nonempty overlaps) eqn:Hov.
  - (* something overlaps: the range is chopped out *)
    assert (Hbe : b < e).
    { apply nonempty_true in Hov. destruct overlaps as [|i l] eqn:E; [congruence|].
      assert (Hi : In i (tree_search (_addr_ivals (alloc_state w)) b e))
        by (fold overlaps; rewrite E; simpl; auto).
      apply In_tree_search in Hi. tauto. }
    destruct (if nonempty (filter (state_is FREED) overlaps)
              then _publish subscribers w b e else Ok w) as [w1|x] eqn:Hpub;
      simpl; [|discriminate].
    assert (Hok1 : tree_ok (_addr_ivals (alloc_state w1))).
    { destruct (nonempty (filter (state_is FREED) overlaps)).
      - eapply _publish_ok; eauto.
      - now injection Hpub as <-. }
    destruct (tree_add _ _) as [t3|x] eqn:Hadd; simpl; [|discriminate].
    intros [= <-]. simpl.
    eapply tree_add_ok; [apply chop_ok; eassumption| |exact Hadd].
    intros j Hj. simpl. apply chop_no_overlap in Hj; auto.
  - (* nothing overlaps: no notification, no chop *)
    apply nonempty_false in Hov. rewrite Hov. simpl.
    destruct (tree_add _ _) as [t3|x] eqn:Hadd; simpl; [|discriminate].
    intros [= <-]. simpl.
    assert (Hbe : b < e)
      by (apply (tree_add_nonnull _ _ _ (proj1 (proj2 Hok)) Hadd)).
    eapply tree_add_ok; [exact Hok| |exact Hadd].
    intros j Hj. simpl.
    destruct (Z_le_dec (end_ j) b); [auto|].
    destruct (Z_le_dec e (begin j)); [auto|].
    exfalso.
    assert (Hin : In j overlaps) by (apply In_tree_search; repeat split; auto; lia).
    rewrite Hov in Hin. contradiction.
Qed.

Lemma subscriber_of_keeps_ok (k : SubscriberKind) : keeps_ok (subscriber_of k).
Proof.
  intros w b e w' Hok. destruct k; simpl.
  - unfold NaiveSweepingRevoker_reused.
    destruct (if nonempty _ then _ else _) as [r|x]; simpl; [|discriminate].
    destruct (revoke_each _ _) as [a|x] eqn:Hr; simpl; [|discriminate].
    intros [= <-]. simpl. eapply revoke_each_ok; eauto.
  - unfold CompactingSweepingRevoker_reused.
    destruct (intervals_coalesced _) as [batch|x]; simpl; [|discriminate].
    destruct (if nonempty _ then _ else _) as [r|x]; simpl; [|discriminate].
    destruct (revoke_each _ _) as [a|x] eqn:Hr; simpl; [|discriminate].
    intros [= <-]. simpl. eapply revoke_each_ok; eauto.
  - unfold AllocationMapOutput_reused.
    destruct (tree_add _ _) as [t|x]; simpl; [|discriminate].
    now intros [= <-].
Qed.

Lemma apply_op_ok (subscribers : list Subscriber) (w w' : World) (op : Op) :
  Forall keeps_ok subscribers ->
  tree_ok (_addr_ivals (alloc_state w)) -> apply_op subscribers w op = Ok w' ->
  tree_ok (_addr_ivals (alloc_state w')).
Proof.
  intros Hsubs Hok. destruct op; simpl.
  - now apply allocd_ok.
  - destruct (freed _ _) as [a|x] eqn:H; simpl; [|discriminate].
    intros [= <-]. simpl. eapply freed_ok; eauto.
  - destruct (revoked _ _) as [a|x] eqn:H; simpl; [|discriminate].
    intros [= <-]. simpl. eapply revoked_ok; eauto.
  - intros [= <-]. simpl. unfold mapd. now destruct (existsb _ _).
  - now intros [= <-].
  - now intros [= <-].
Qed.


(** ** Revoking a list of ranges, address by address *)








(** ** The coalescing walks *)



Lemma filter_length_lt {A : Type} (f g : A -> bool) (l : list A) (a : A) :
  (forall x, f x = true -> g x = true) ->
  In a l -> f a = false -> g a = true ->
  (List.length (filter f l) < List.length (filter g l))%nat.
Proof.
  intros Hfg. 
  assert (Hle : forall l', (List.length (filter f l') <= List.length (filter g l'))%nat).
  { induction l' as [|x l' IH]; simpl; [lia|].
    destruct (f x) eqn:Hf.
    - rewrite (Hfg x Hf). simpl. lia.
    - destruct (g x); simpl; lia. }
  induction l as [|x l IH]; simpl; [contradiction|].
  intros [->|Hin] Hfa Hga.
  - rewrite Hfa, Hga. simpl. specialize (Hle l). lia.
  - specialize (IH Hin Hfa Hga). destruct (f x) eqn:Hf.
    + rewrite (Hfg x Hf). simpl. lia.
    + destruct (g x); simpl; lia.
Qed.

Lemma filter_length_pos {A : Type} (f : A -> bool) (l : list A) (a : A) :
  In a l -> f a = true -> (0 < List.length (filter f l))%nat.
Proof.
  intros Hin Hf.
  assert (H : In a (filter f l)) by (apply filter_In; auto).
  destruct (filter f l); [contradiction | simpl; lia].
Qed.

(** The query of a point on a well-formed tree, given its answer. *)
Lemma query_checked_inv (t : IntervalTree) (p : Z) (r : option AddrIval) :
  tree_ok t -> intervaltree_query_checked t p = Ok r ->
  match r with
  | None => forall i, In i t -> ~ (begin i <= p < end_ i)
  | Some i => In i t /\ begin i <= p < end_ i
  end.
Proof.
  intros Hok Hq.
  destruct (query_checked_ok t p Hok) as [[Hq' Hnone]|[i [Hq' Hi]]];
    rewrite Hq' in Hq; injection Hq as <-; assumption.
Qed.

Lemma query_checked_total (t : IntervalTree) (p : Z) :
  tree_ok t -> exists r, intervaltree_query_checked t p = Ok r.
Proof.
  intros Hok.
  destruct (query_checked_ok t p Hok) as [[Hq _]|[i [Hq _]]]; eauto.
Qed.



Lemma filter_length_lt_all {A : Type} (f : A -> bool) (l : list A) (a : A) :
  In a l -> f a = false -> (List.length (filter f l) < List.length l)%nat.
Proof.
  induction l as [|x l IH]; simpl; [contradiction|].
  intros [->|Hin] Hfa.
  - rewrite Hfa. pose proof (filter_length_le f l). lia.
  - specialize (IH Hin Hfa). destruct (f x); simpl; lia.
Qed.


(** ** Sorting the Freed intervals *)





(** ** The loops of the compacting revoker *)




(** ** Further facts about well-formed trees *)

Lemma tree_okb_correct (t : IntervalTree) : tree_okb t = true -> tree_ok t.
Proof.
  induction t as [|i t IH]; simpl.
  - intros _. split; [constructor|]. split; [intros i []|intros i j p []].
  - rewrite !andb_true_iff, Z.ltb_lt, forallb_forall.
    intros [[Hi Hsep] Ht]. destruct (IH Ht) as (Hnd & Hnn & Hdj).
    assert (Hsep' : forall j, In j t -> end_ j <= begin i \/ end_ i <= begin j).
    { intros j Hj. specialize (Hsep j Hj). apply orb_true_iff in Hsep.
      rewrite !Z.leb_le in Hsep. assumption. }
    split; [|split].
    + constructor; [|assumption]. intros Hin. specialize (Hsep' i Hin). lia.
    + intros j [<-|Hj]; auto.
    + intros x y p [<-|Hx] [<-|Hy] Hpx Hpy; auto.
      * specialize (Hsep' y Hy). lia.
      * specialize (Hsep' x Hx). lia.
      * eapply Hdj; eauto.
Qed.


Lemma tree_ok_separate (t : IntervalTree) (i j : AddrIval) :
  tree_ok t -> In i t -> In j t -> i <> j -> separate i j.
Proof.
  intros (_ & Hnn & Hdj) Hi Hj Hne. unfold separate.
  pose proof (Hnn i Hi). pose proof (Hnn j Hj).
  destruct (Z_le_dec (end_ i) (begin j)); [auto|].
  destruct (Z_le_dec (end_ j) (begin i)); [auto|].
  exfalso. apply Hne. apply (Hdj i j (Z.max (begin i) (begin j))); auto; lia.
Qed.



(** ** The compacting revoker *)


(** ** The naive revoker *)






(** ** Disjointness of the stored intervals *)



(** ** The accounting model *)

(** C10: in the fast accounting model [freed(begin)] for an address
    with no allocation recorded at key [begin] leaves the model as it
    was -- allocated-bytes total, mapped-bytes total and address-to-size
    table; hence the second of two [freed] calls for the same [begin]
    changes nothing, and freeing an allocation twice takes its size off
    the allocated-bytes total once. *)
Theorem accounting_freed_unknown_is_noop :
  forall (m : Accounting.AccountingAddrSpaceModel) (b : Z),
    (Accounting._va2sz m !! b = None ->
     Accounting.allocd_size (Accounting.freed m b) = Accounting.allocd_size m /\
     Accounting.mapd_size (Accounting.freed m b) = Accounting.mapd_size m /\
     Accounting._va2sz (Accounting.freed m b) = Accounting._va2sz m) /\
    Accounting.freed (Accounting.freed m b) b = Accounting.freed m b /\
    (forall e,
       Accounting.allocd_size
         (Accounting.freed (Accounting.freed (Accounting.allocd m b e) b) b) =
       Accounting.allocd_size m).
Proof.
  intros m b.
  assert (Hidem : forall m', Accounting.freed (Accounting.freed m' b) b =
                             Accounting.freed m' b).
  { intros m'. unfold Accounting.freed at 2 3.
    destruct (Accounting._va2sz m' !! b) as [sz|] eqn:Hb.
    - unfold Accounting.freed; simpl. now rewrite lookup_delete_eq.
    - unfold Accounting.freed. now rewrite Hb. }
  split; [|split].
  - intros Hb. unfold Accounting.freed. rewrite Hb. auto.
  - apply Hidem.
  - intros e. rewrite Hidem. unfold Accounting.freed, Accounting.allocd. simpl.
    rewrite lookup_insert_eq. simpl. lia.
Qed.

Lemma accounting_freed_unknown_is_noop_witness :
  Accounting._va2sz Accounting.init !! 5 = None /\
  Accounting.allocd_size (Accounting.freed Accounting.init 5) =
    Accounting.allocd_size Accounting.init.
Proof.
  assert (H : Accounting._va2sz Accounting.init !! 5 = None) by reflexivity.
  split; [exact H|].
  exact (proj1 (proj1 (accounting_freed_unknown_is_noop Accounting.init 5) H)).
Defined.

(** ** The sweep ceiling *)

(** C5: a sweep handed more intervals than the configured ceiling
    raises an error -- [NameError], the class named in the [raise]
    statement being undefined -- before the counter is touched: the
    revoker the failed call leaves behind is the one it was given, with
    the same cumulative swept-bytes counter.  The reuse handlers do not
    catch the error: a batch over the ceiling makes them fail with it. *)
Theorem sweep_over_ceiling_fails :
  forall (r : BaseSweepingRevoker) (amount : Z) (addr_ivals : list AddrIval),
    _capacity_ivals r < Z.of_nat (List.length addr_ivals) ->
    _sweep r amount addr_ivals = Raise NameError /\
    _sweep_run r amount addr_ivals = (r, Some NameError) /\
    swept (fst (_sweep_run r amount addr_ivals)) = swept r /\
    (forall w b e,
       revoker w = r -> addr_ivals <> [] ->
       overlaps_freed (_addr_ivals (alloc_state w)) b e = addr_ivals ->
       NaiveSweepingRevoker_reused w b e = Raise NameError) /\
    (forall w b e,
       revoker w = r -> addr_ivals <> [] ->
       intervals_coalesced (alloc_state w) = Ok addr_ivals ->
       CompactingSweepingRevoker_reused w b e = Raise NameError).
Proof.
  intros r amount l Hcap.
  assert (Hrun : forall x, _sweep_run r x l = (r, Some NameError)).
  { intros x. unfold _sweep_run.
    destruct (Z.ltb_spec (_capacity_ivals r) (Z.of_nat (List.length l)));
      [reflexivity | lia]. }
  assert (Hsw : forall x, _sweep r x l = Raise NameError).
  { intros x. unfold _sweep. now rewrite Hrun. }
  split; [apply Hsw|]. split; [apply Hrun|]. split; [now rewrite Hrun|].
  split.
  - intros w b e Hr Hne Hl. apply nonempty_true in Hne.
    unfold NaiveSweepingRevoker_reused. cbn [addr_ivals].
    unfold overlaps_freed in Hl. rewrite Hl, Hne, Hr, Hsw. reflexivity.
  - intros w b e Hr Hne Hl. apply nonempty_true in Hne.
    unfold CompactingSweepingRevoker_reused.
    rewrite Hl. cbn [rbind]. rewrite Hne, Hr, Hsw. reflexivity.
Qed.

Lemma sweep_over_ceiling_fails_witness :
  _capacity_ivals {| swept := 7; _capacity_ivals := 1 |} <
    Z.of_nat (List.length [mkIval 0 10 (Some FREED); mkIval 20 30 (Some FREED)]) /\
  swept (fst (_sweep_run {| swept := 7; _capacity_ivals := 1 |} 1000
                [mkIval 0 10 (Some FREED); mkIval 20 30 (Some FREED)])) = 7.
Proof.
  assert (H : _capacity_ivals {| swept := 7; _capacity_ivals := 1 |} <
              Z.of_nat (List.length [mkIval 0 10 (Some FREED);
                                     mkIval 20 30 (Some FREED)]))
    by (simpl; lia).
  split; [exact H|].
  exact (proj1 (proj2 (proj2
    (sweep_over_ceiling_fails {| swept := 7; _capacity_ivals := 1 |} 1000
       [mkIval 0 10 (Some FREED); mkIval 20 30 (Some FREED)] H)))).
Defined.

(** ** What a sweep adds to the counter *)

(** C1, as the code has it: a sweep adds to the cumulative swept-bytes
    counter the amount it is called with, and both reuse handlers call
    it with the measured size of the address space, [addr_space.size],
    once per notification whose batch is not empty -- whatever the
    sizes of the Freed intervals being revoked.  For a model with no
    size sample yet that amount is zero: under the naive strategy the
    sequence allocate(0,100); free(0); allocate(50,150) leaves the
    counter at 0, and after a size sample of [size] bytes the same
    sequence adds exactly [size]. *)
Theorem sweep_adds_address_space_size :
  (forall r amount addr_ivals r',
     _sweep r amount addr_ivals = Ok r' -> swept r' = swept r + amount) /\
  (forall w b e w',
     NaiveSweepingRevoker_reused w b e = Ok w' ->
     swept (revoker w') =
       swept (revoker w) +
       (if nonempty (overlaps_freed (_addr_ivals (alloc_state w)) b e)
        then addr_space_size w else 0)) /\
  (forall w b e w',
     CompactingSweepingRevoker_reused w b e = Ok w' ->
     exists batch,
       intervals_coalesced (alloc_state w) = Ok batch /\
       swept (revoker w') =
         swept (revoker w) + (if nonempty batch then addr_space_size w else 0)) /\
  (forall size,
     exists w',
       apply_ops [NaiveSweepingRevoker_reused]
         (size_measured (World_init (2 ^ 64)) size)
         [OpAllocd 0 100; OpFreed 0; OpAllocd 50 150] = Ok w' /\
       swept (revoker w') = size) /\
  (exists w',
     apply_ops [NaiveSweepingRevoker_reused] (World_init (2 ^ 64))
       [OpAllocd 0 100; OpFreed 0; OpAllocd 50 150] = Ok w' /\
     swept (revoker w') = 0).
Proof.
  assert (Hsw : forall r amount l r',
            _sweep r amount l = Ok r' -> swept r' = swept r + amount).
  { intros r amount l r'. unfold _sweep, _sweep_run.
    destruct (_ <? _); [discriminate|]. now intros [= <-]. }
  split; [exact Hsw|]. split; [|split; [|split]].
  - intros w b e w'. unfold NaiveSweepingRevoker_reused. cbn [addr_ivals].
    fold (overlaps_freed (_addr_ivals (alloc_state w)) b e).
    destruct (nonempty _).
    + destruct (_sweep _ _ _) as [r|x] eqn:Hr; cbn [rbind]; [|discriminate].
      destruct (revoke_each _ _) as [a|x]; cbn [rbind]; [|discriminate].
      intros [= <-]. simpl. now apply Hsw in Hr.
    + cbn [rbind].
      destruct (revoke_each _ _) as [a|x]; cbn [rbind]; [|discriminate].
      intros [= <-]. simpl. lia.
  - intros w b e w'. unfold CompactingSweepingRevoker_reused.
    destruct (intervals_coalesced _) as [batch|x]; cbn [rbind]; [|discriminate].
    intros H. exists batch. split; [reflexivity|]. revert H.
    destruct (nonempty batch).
    + destruct (_sweep _ _ _) as [r|x] eqn:Hr; cbn [rbind]; [|discriminate].
      destruct (revoke_each _ _) as [a|x]; cbn [rbind]; [|discriminate].
      intros [= <-]. simpl. now apply Hsw in Hr.
    + cbn [rbind].
      destruct (revoke_each _ _) as [a|x]; cbn [rbind]; [|discriminate].
      intros [= <-]. simpl. lia.
  - intros size. eexists. split; [vm_compute; reflexivity|]. reflexivity.
  - eexists. split; [vm_compute; reflexivity|]. reflexivity.
Qed.

Lemma sweep_adds_address_space_size_witness :
  _sweep {| swept := 7; _capacity_ivals := 4 |} 1000 [mkIval 0 50 (Some FREED)] =
    Ok {| swept := 1007; _capacity_ivals := 4 |} /\
  swept {| swept := 1007; _capacity_ivals := 4 |} = 7 + 1000.
Proof.
  assert (H : _sweep {| swept := 7; _capacity_ivals := 4 |} 1000
                [mkIval 0 50 (Some FREED)] =
              Ok {| swept := 1007; _capacity_ivals := 4 |}) by reflexivity.
  split; [exact H|].
  exact (proj1 sweep_adds_address_space_size _ _ _ _ H).
Defined.

(** C1, as the specification words it, fails: in a fresh model under
    the naive strategy the sequence allocate(0,100); free(0);
    allocate(50,150) revokes a Freed interval, yet the counter does not
    grow by 50 -- it stays at 0. *)
Lemma swept_is_not_freed_size_counterexample :
  exists w',
    apply_ops [NaiveSweepingRevoker_reused] (World_init (2 ^ 64))
      [OpAllocd 0 100; OpFreed 0; OpAllocd 50 150] = Ok w' /\
    In (mkIval 0 50 (Some REVOKED)) (_addr_ivals (alloc_state w')) /\
    swept (revoker w') - swept (revoker (World_init (2 ^ 64))) <> 50.
Proof.
  eexists. split; [vm_compute; reflexivity|]. simpl.
  split; [auto | discriminate].
Qed.

(** ** [revoked]: the assertion and the result *)

Lemma not_nil_iff {A : Type} (l : list A) : l <> [] <-> exists x, In x l.
Proof.
  destruct l as [|x l]; split.
  - congruence.
  - intros [x []].
  - intros _. exists x. simpl. auto.
  - discriminate.
Qed.









(** ** The notification and the commit *)








(** ** The aggregates kept by [_update] *)

Lemma imap_nonnull_iff (m : IntervalMap) :
  imap_nonnull m = true <-> forall i, In i m -> begin i < end_ i.
Proof.
  unfold imap_nonnull. rewrite forallb_forall.
  split; intros H i Hi; specialize (H i Hi); now apply Z.ltb_lt.
Qed.

Lemma bytes_in_cons (st : AddrIvalState) (i : AddrIval) (m : IntervalMap) (lo hi : Z) :
  bytes_in st (i :: m) lo hi =
  (if state_is st i then Z.max 0 (Z.min (end_ i) hi - Z.max (begin i) lo) else 0) +
  bytes_in st m lo hi.
Proof. reflexivity. Qed.

Lemma bytes_in_app (st : AddrIvalState) (m1 m2 : IntervalMap) (lo hi : Z) :
  bytes_in st (m1 ++ m2) lo hi = bytes_in st m1 lo hi + bytes_in st m2 lo hi.
Proof.
  induction m1 as [|i m1 IH]; [reflexivity|].
  simpl app. rewrite !bytes_in_cons, IH. lia.
Qed.

Lemma bytes_in_empty_window (st : AddrIvalState) (m : IntervalMap) (lo hi : Z) :
  hi <= lo -> bytes_in st m lo hi = 0.
Proof.
  intros H. induction m as [|i m IH]; [reflexivity|].
  rewrite bytes_in_cons, IH. destruct (state_is st i); lia.
Qed.

(** The sums [_update] takes over a slice of the map are the numbers of
    bytes of the window in each state. *)
Lemma sum_sizes_range (st : AddrIvalState) (m : IntervalMap) (lo hi : Z) :
  imap_nonnull m = true ->
  sum_sizes st (imap_range m lo hi) = bytes_in st m lo hi.
Proof.
  intros Hnn. unfold imap_range.
  destruct (Z.leb_spec hi lo) as [Hle|Hlt].
  - now rewrite bytes_in_empty_window.
  - induction m as [|i m IH]; [reflexivity|].
    simpl in Hnn. apply andb_true_iff in Hnn. destruct Hnn as [Hi Hm].
    apply Z.ltb_lt in Hi. specialize (IH Hm).
    rewrite bytes_in_cons, <- IH. cbn [filter]. unfold overlaps_range.
    destruct (Z.ltb_spec (begin i) hi) as [H1|H1];
      destruct (Z.ltb_spec lo (end_ i)) as [H2|H2]; cbn [andb List.map].
    + unfold sum_sizes. cbn [filter].
      change (state_is st (clip lo hi i)) with (state_is st i).
      destruct (state_is st i); [|lia].
      cbn [List.map sum_Z fold_right]. unfold ival_size at 1. simpl. 
      unfold sum_Z. lia.
    + destruct (state_is st i); lia.
    + destruct (state_is st i); lia.
    + destruct (state_is st i); lia.
Qed.

Lemma imap_cut_nonnull (m : IntervalMap) (b e : Z) :
  imap_nonnull (imap_cut m b e) = true.
Proof.
  apply imap_nonnull_iff. intros j Hj. unfold imap_cut in Hj.
  apply in_flat_map in Hj. destruct Hj as [i [_ Hj]].
  apply in_app_or in Hj. destruct Hj as [Hj|Hj].
  - destruct (Z.ltb_spec (begin i) (Z.min (end_ i) b)); [|contradiction].
    destruct Hj as [<-|[]]. simpl. lia.
  - destruct (Z.ltb_spec (Z.max (begin i) e) (end_ i)); [|contradiction].
    destruct Hj as [<-|[]]. simpl. lia.
Qed.

Lemma bytes_in_cut_one (st : AddrIvalState) (i : AddrIval) (b e lo hi : Z) :
  b < e -> begin i < end_ i ->
  bytes_in st
    ((if begin i <? Z.min (end_ i) b
      then [mkIval (begin i) (Z.min (end_ i) b) (state i)] else []) ++
     (if Z.max (begin i) e <? end_ i
      then [mkIval (Z.max (begin i) e) (end_ i) (state i)] else [])) lo hi =
  bytes_in st [i] lo hi - bytes_in st [i] (Z.max lo b) (Z.min hi e).
Proof.
  intros Hbe Hi. unfold bytes_in, state_is.
  destruct i as [bi ei si]. cbn [state begin end_] in *.
  destruct (Z.min_spec ei b) as [[? ->]|[? ->]];
    destruct (Z.max_spec bi e) as [[? ->]|[? ->]];
    destruct (Z.ltb_spec bi ei); try lia;
    try destruct (Z.ltb_spec bi b); try destruct (Z.ltb_spec e ei);
    cbn [app List.map sum_Z fold_right state begin end_];
    destruct si as [s|]; try (destruct (state_eqb s st)); lia.
Qed.

Lemma bytes_in_cut (st : AddrIvalState) (m : IntervalMap) (b e lo hi : Z) :
  b < e -> imap_nonnull m = true ->
  bytes_in st (imap_cut m b e) lo hi =
  bytes_in st m lo hi - bytes_in st m (Z.max lo b) (Z.min hi e).
Proof.
  intros Hbe Hnn. induction m as [|i m IH]; [reflexivity|].
  simpl in Hnn. apply andb_true_iff in Hnn. destruct Hnn as [Hi Hm].
  apply Z.ltb_lt in Hi. specialize (IH Hm).
  unfold imap_cut in *. cbn [flat_map].
  rewrite (bytes_in_app st _ (flat_map _ m)), IH.
  rewrite (bytes_in_cut_one st i b e lo hi Hbe Hi).
  rewrite (bytes_in_cons st i m lo hi).
  rewrite (bytes_in_cons st i m (Z.max lo b) (Z.min hi e)).
  rewrite (bytes_in_cons st i [] lo hi).
  rewrite (bytes_in_cons st i [] (Z.max lo b) (Z.min hi e)).
  change (bytes_in st [] lo hi) with 0.
  change (bytes_in st [] (Z.max lo b) (Z.min hi e)) with 0.
  lia.
Qed.

Lemma imap_insert_nonnull (iv : AddrIval) (m : IntervalMap) :
  begin iv < end_ iv -> imap_nonnull m = true ->
  imap_nonnull (imap_insert iv m) = true.
Proof.
  intros Hiv. induction m as [|i m IH]; simpl.
  - intros _. rewrite andb_true_r. now apply Z.ltb_lt.
  - intros H. apply andb_true_iff in H. destruct H as [Hi Hm].
    destruct (begin iv <=? begin i); simpl.
    + rewrite Hi, Hm, andb_true_r. now apply Z.ltb_lt.
    + now rewrite Hi, IH.
Qed.

Lemma bytes_in_insert (st : AddrIvalState) (iv : AddrIval) (m : IntervalMap) (lo hi : Z) :
  bytes_in st (imap_insert iv m) lo hi = bytes_in st [iv] lo hi + bytes_in st m lo hi.
Proof.
  assert (H0 : bytes_in st [] lo hi = 0) by reflexivity.
  induction m as [|i m IH]; simpl imap_insert.
  - rewrite H0. lia.
  - destruct (begin iv <=? begin i).
    + rewrite (bytes_in_cons st iv (i :: m)), (bytes_in_cons st iv []), H0. lia.
    + rewrite (bytes_in_cons st i (imap_insert iv m)), IH,
        (bytes_in_cons st i m). lia.
Qed.

Lemma imap_coalesce_spec (st : AddrIvalState) (m : IntervalMap) (lo hi : Z) :
  imap_nonnull m = true ->
  imap_nonnull (imap_coalesce m) = true /\
  bytes_in st (imap_coalesce m) lo hi = bytes_in st m lo hi.
Proof.
  induction m as [|i m IH]; [auto|].
  simpl imap_nonnull. intros H. apply andb_true_iff in H. destruct H as [Hi Hm].
  destruct (IH Hm) as [Hnn Hb]. cbn [imap_coalesce].
  rewrite bytes_in_cons, <- Hb.
  destruct (imap_coalesce m) as [|j r].
  - simpl. rewrite Hi. split; reflexivity.
  - simpl in Hnn. apply andb_true_iff in Hnn. destruct Hnn as [Hj Hr].
    destruct ((end_ i =? begin j) && ostate_eqb (state i) (state j)) eqn:E.
    + apply andb_true_iff in E. destruct E as [E1 E2].
      apply Z.eqb_eq in E1. apply ostate_eqb_eq in E2.
      apply Z.ltb_lt in Hi, Hj. split.
      * simpl. rewrite Hr, andb_true_r. apply Z.ltb_lt. lia.
      * rewrite !bytes_in_cons. unfold state_is. simpl. rewrite <- E2.
        destruct (state i) as [s|]; [destruct (state_eqb s st)|]; lia.
    + split.
      * simpl. now rewrite Hi, Hj, Hr.
      * rewrite !bytes_in_cons. reflexivity.
Qed.

Lemma imap_add_nonnull (m : IntervalMap) (iv : AddrIval) :
  imap_nonnull m = true -> imap_nonnull (imap_add m iv) = true.
Proof.
  intros Hnn. unfold imap_add, is_null.
  destruct (Z.leb_spec (end_ iv) (begin iv)); [assumption|].
  apply (imap_coalesce_spec ALLOCD _ 0 0).
  apply imap_insert_nonnull; [lia | apply imap_cut_nonnull].
Qed.

(** Assigning a state other than [st] to [[begin, end)] takes away the
    bytes of the range that had state [st], and nothing else. *)
Lemma bytes_in_add_other (st : AddrIvalState) (m : IntervalMap) (iv : AddrIval)
    (lo hi : Z) :
  imap_nonnull m = true -> state_is st iv = false ->
  bytes_in st (imap_add m iv) lo hi =
  bytes_in st m lo hi - bytes_in st m (Z.max lo (begin iv)) (Z.min hi (end_ iv)).
Proof.
  intros Hnn Hst. unfold imap_add, is_null.
  destruct (Z.leb_spec (end_ iv) (begin iv)) as [Hnull|Hiv].
  - rewrite (bytes_in_empty_window st m (Z.max lo (begin iv))); lia.
  - rewrite (proj2 (imap_coalesce_spec st _ lo hi
               (imap_insert_nonnull iv _ Hiv (imap_cut_nonnull m _ _)))).
    rewrite bytes_in_insert, bytes_in_cut by assumption.
    rewrite bytes_in_cons, Hst. change (bytes_in st [] lo hi) with 0. lia.
Qed.

Lemma _update_allocd_size (a : AllocatorAddrSpaceModel) (iv : AddrIval) :
  imap_nonnull (__addr_ivals a) = true -> state_is ALLOCD iv = false ->
  allocd_size (_update a iv) =
  allocd_size a - bytes_in ALLOCD (__addr_ivals a) (begin iv) (end_ iv).
Proof.
  intros Hnn Hst. unfold _update. cbn [allocd_size].
  rewrite !sum_sizes_range by (try apply imap_add_nonnull; assumption).
  rewrite bytes_in_add_other by assumption.
  replace (Z.max (begin iv - 1) (begin iv)) with (begin iv) by lia.
  replace (Z.min (end_ iv + 1) (end_ iv)) with (end_ iv) by lia.
  lia.
Qed.

(** C8, as the code has it: [mapd] and [unmapd] never touch the
    interval tree, and they leave the allocated-bytes total unchanged
    exactly as long as the range holds no byte that the coalesced map
    records as Allocated.  The map keeps all five states together, and
    the new state overwrites the range: the allocated-bytes total drops
    by the number of Allocated bytes of [[begin, end)].  A [mapd] whose
    call stack names no allocator frame changes nothing at all. *)
Theorem mapd_unmapd_allocd_size :
  forall (a : AllocatorAddrSpaceModel) (callstack : string) (b e : Z),
    imap_nonnull (__addr_ivals a) = true ->
    allocd_size (unmapd a callstack b e) =
      allocd_size a - bytes_in ALLOCD (__addr_ivals a) b e /\
    allocd_size (mapd a callstack b e) =
      allocd_size a -
      (if allocator_frame callstack
       then bytes_in ALLOCD (__addr_ivals a) b e else 0) /\
    (allocator_frame callstack = false -> mapd a callstack b e = a) /\
    (bytes_in ALLOCD (__addr_ivals a) b e = 0 ->
     allocd_size (unmapd a callstack b e) = allocd_size a /\
     allocd_size (mapd a callstack b e) = allocd_size a) /\
    _addr_ivals (unmapd a callstack b e) = _addr_ivals a /\
    _addr_ivals (mapd a callstack b e) = _addr_ivals a /\
    imap_nonnull (__addr_ivals (unmapd a callstack b e)) = true /\
    imap_nonnull (__addr_ivals (mapd a callstack b e)) = true.
Proof.
  intros a cs b e Hnn.
  assert (Hu : allocd_size (unmapd a cs b e) =
               allocd_size a - bytes_in ALLOCD (__addr_ivals a) b e).
  { unfold unmapd. now rewrite _update_allocd_size. }
  assert (Hm : allocd_size (mapd a cs b e) =
               allocd_size a -
               (if allocator_frame cs
                then bytes_in ALLOCD (__addr_ivals a) b e else 0)).
  { unfold mapd. fold (allocator_frame cs). destruct (allocator_frame cs).
    - now rewrite _update_allocd_size.
    - lia. }
  split; [exact Hu|]. split; [exact Hm|]. split; [|split; [|split; [|split; [|split]]]].
  - intros H. unfold mapd. fold (allocator_frame cs). now rewrite H.
  - intros H0. rewrite Hu, Hm, H0. destruct (allocator_frame cs); lia.
  - reflexivity.
  - unfold mapd. now destruct (existsb _ _).
  - unfold unmapd. simpl. now apply imap_add_nonnull.
  - unfold mapd. destruct (existsb _ _); [|assumption].
    simpl. now apply imap_add_nonnull.
Qed.

Lemma mapd_unmapd_allocd_size_witness :
  imap_nonnull [mkIval 0 100 (Some ALLOCD); mkIval 100 (2 ^ 64) None] = true /\
  allocd_size
    (unmapd {| mapd_size := 0; allocd_size := 100;
               __addr_ivals := [mkIval 0 100 (Some ALLOCD);
                                mkIval 100 (2 ^ 64) None];
               _addr_ivals := [mkIval 0 100 (Some ALLOCD)] |} "" 40 60) =
  100 - bytes_in ALLOCD [mkIval 0 100 (Some ALLOCD); mkIval 100 (2 ^ 64) None] 40 60.
Proof.
  assert (H : imap_nonnull [mkIval 0 100 (Some ALLOCD);
                            mkIval 100 (2 ^ 64) None] = true) by reflexivity.
  split; [exact H|].
  exact (proj1 (mapd_unmapd_allocd_size
                  {| mapd_size := 0; allocd_size := 100;
                     __addr_ivals := [mkIval 0 100 (Some ALLOCD);
                                      mkIval 100 (2 ^ 64) None];
                     _addr_ivals := [mkIval 0 100 (Some ALLOCD)] |} "" 40 60 H)).
Defined.

(** C8, as the specification words it, fails: after allocate(0,100) the
    allocated-bytes total is 100, and a map of [[0, 100)] from inside
    [malloc] brings it down to 0. *)
Lemma mapd_changes_allocd_size_counterexample :
  exists w,
    apply_ops [] (World_init (2 ^ 64)) [OpAllocd 0 100] = Ok w /\
    allocd_size (alloc_state w) = 100 /\
    allocd_size (mapd (alloc_state w) "malloc" 0 100) = 0 /\
    allocd_size (unmapd (alloc_state w) "munmap" 0 100) = 0.
Proof.
  eexists. split; [vm_compute; reflexivity|].
  split; [reflexivity|]. split; vm_compute; reflexivity.
Qed.

(** ** The threshold test in binary64 *)














(** ** The chunk classifier *)




Example chunk_state_7999_of_10000 :
  _chunk_state
    {| alloc_state :=
         {| mapd_size := 0; allocd_size := 7999;
            __addr_ivals := [mkIval 0 7999 (Some ALLOCD);
                             mkIval 7999 (2 ^ 64) None];
            _addr_ivals := [mkIval 0 7999 (Some ALLOCD)] |};
       addr_space_size := 0;
       revoker := {| swept := 0; _capacity_ivals := 2 ^ 64 |};
       _addr_ivals_reused := [] |} 0 10000 = "="%string.
Proof. vm_compute. reflexivity. Qed.


(** * Further properties of the code *)

(** ** [reallocd] *)

(** Inside the branch for overlapping ranges neither [lt] nor [gt] can
    hold, so no remainder is put back. *)
Lemma reallocd_overlap_tree (a : AllocatorAddrSpaceModel) (old new : AddrIval)
    (t1 : IntervalTree) :
  ival_overlaps new old = true ->
  forall t3,
    (do is_lt <- ival_lt new old;
     do t2 <- (if is_lt
               then tree_add t1 (mkIval (end_ new) (end_ old) (Some FREED))
               else Ok t1);
     do is_gt <- ival_gt new old;
     do t3 <- (if is_gt
               then tree_add t2 (mkIval (begin old) (begin new) (Some FREED))
               else Ok t2);
     Ok t3) = Ok t3 ->
    t3 = t1 /\ begin new < end_ new.
Proof.
  unfold ival_overlaps, overlaps_range, ival_lt, ival_gt, is_null.
  rewrite andb_true_iff, !Z.ltb_lt. intros [H1 H2] t3.
  destruct (Z.leb_spec (end_ new) (begin new)); cbn [orb rbind]; [discriminate|].
  destruct (Z.leb_spec (end_ old) (begin old)); cbn [orb rbind]; [discriminate|].
  destruct (Z.leb_spec (end_ new) (begin old)); [lia|]. cbn [rbind].
  destruct (Z.leb_spec (end_ old) (begin new)); [lia|]. cbn [rbind].
  intros [= <-]. auto.
Qed.

Lemma reallocd_ok (subscribers : list Subscriber) (w w' : World)
    (begin_old begin_new end_new : Z) :
  Forall keeps_ok subscribers ->
  tree_ok (_addr_ivals (alloc_state w)) ->
  reallocd subscribers w begin_old begin_new end_new = Ok w' ->
  tree_ok (_addr_ivals (alloc_state w')).
Proof.
  intros Hsubs Hok. unfold reallocd.
  destruct (query_checked_ok (_addr_ivals (alloc_state w)) begin_old Hok)
    as [[Hq _]|[old [Hq [Hold Hp]]]]; rewrite Hq; cbn [rbind].
  - now apply allocd_ok.
  - destruct (ival_overlaps _ old) eqn:Hov.
    + rewrite _update_tree.
      destruct (tree_remove _ old) as [t1|x] eqn:Hrm; cbn [rbind]; [|discriminate].
      pose proof (reallocd_overlap_tree (alloc_state w) old
                    (mkIval begin_new end_new (Some ALLOCD)) t1 Hov) as Hsame.
      destruct (ival_lt _ old) as [is_lt|x]; cbn [rbind] in *; [|discriminate].
      destruct (if is_lt then _ else _) as [t2|x]; cbn [rbind] in *; [|discriminate].
      destruct (ival_gt _ old) as [is_gt|x]; cbn [rbind] in *; [|discriminate].
      destruct (if is_gt then _ else _) as [t3|x]; cbn [rbind] in *; [|discriminate].
      destruct (Hsame t3 eq_refl) as [-> _].
      intros H. eapply allocd_ok; [exact Hsubs| |exact H].
      simpl. eapply tree_remove_ok; eauto.
    + destruct (freed (alloc_state w) begin_old) as [a1|x] eqn:Hfr; cbn [rbind];
        [|discriminate].
      intros H. eapply allocd_ok; [exact Hsubs| |exact H].
      simpl. eapply freed_ok; eauto.
Qed.

Lemma apply_events_ok (subscribers : list Subscriber) (evs : list Event) :
  Forall keeps_ok subscribers ->
  forall w w',
    tree_ok (_addr_ivals (alloc_state w)) -> apply_events subscribers w evs = Ok w' ->
    tree_ok (_addr_ivals (alloc_state w')).
Proof.
  intros Hsubs. induction evs as [|ev evs IH]; intros w w' Hok; cbn [apply_events].
  - now intros [= <-].
  - destruct (apply_event subscribers w ev) as [w1|x] eqn:H1; cbn [rbind];
      [|discriminate].
    intros H. eapply IH; [|exact H].
    destruct ev as [op|bo bn en]; cbn [apply_event] in H1.
    + eapply apply_op_ok; eauto.
    + eapply reallocd_ok; eauto.
Qed.

(** X1: reallocate keeps the stored intervals disjoint too: after any
    sequence of events -- allocate, free, revoke, reallocate, map,
    unmap, size samples -- on a fresh model, with any of the program's
    subscribers registered, two distinct stored intervals never
    overlap, none is empty, and a point query never fails its
    assertion. *)
Theorem events_keep_intervals_disjoint :
  forall (kinds : list SubscriberKind) (capacity_ivals : Z) (evs : list Event)
         (w : World),
    apply_events (List.map subscriber_of kinds) (World_init capacity_ivals) evs
      = Ok w ->
    (forall i j, In i (_addr_ivals (alloc_state w)) ->
                 In j (_addr_ivals (alloc_state w)) ->
                 i <> j -> end_ i <= begin j \/ end_ j <= begin i) /\
    (forall i, In i (_addr_ivals (alloc_state w)) -> begin i < end_ i) /\
    (forall p, exists r, addr_ival (alloc_state w) p = Ok r).
Proof.
  intros kinds cap evs w Hrun.
  assert (Hok : tree_ok (_addr_ivals (alloc_state w))).
  { apply (apply_events_ok (List.map subscriber_of kinds) evs) with (w := World_init cap).
    - apply Forall_forall. intros s Hs. apply in_map_iff in Hs.
      destruct Hs as [k [<- _]]. apply subscriber_of_keeps_ok.
    - apply tree_okb_correct. reflexivity.
    - exact Hrun. }
  split; [|split].
  - intros i j Hi Hj Hne. now apply (tree_ok_separate _ i j Hok).
  - apply Hok.
  - intros p. now apply query_checked_total.
Qed.

Lemma events_keep_intervals_disjoint_witness :
  exists w,
    apply_events (List.map subscriber_of [Compacting]) (World_init (2 ^ 64))
      [EvOp (OpAllocd 0 100); EvReallocd 0 50 150; EvOp (OpFreed 50);
       EvReallocd 50 200 300; EvOp (OpAllocd 40 60)] = Ok w /\
    (forall i, In i (_addr_ivals (alloc_state w)) -> begin i < end_ i).
Proof.
  eexists. split; [vm_compute; reflexivity|].
  refine (proj1 (proj2 (events_keep_intervals_disjoint [Compacting] (2 ^ 64)
            [EvOp (OpAllocd 0 100); EvReallocd 0 50 150; EvOp (OpFreed 50);
             EvReallocd 50 200 300; EvOp (OpAllocd 40 60)] _ _))).
  vm_compute. reflexivity.
Defined.

(** ** The coalesced map, address by address *)

Lemma imap_cut_covers (m : IntervalMap) (b e p : Z) (s : option AddrIvalState) :
  covers (imap_cut m b e) p s <-> covers m p s /\ (p < b \/ e <= p).
Proof.
  unfold covers, imap_cut. split.
  - intros [j [Hj [Hp Hs]]]. apply in_flat_map in Hj. destruct Hj as [i [Hi Hj]].
    apply in_app_or in Hj. destruct Hj as [Hj|Hj].
    + destruct (Z.ltb_spec (begin i) (Z.min (end_ i) b)); [|contradiction].
      destruct Hj as [<-|[]]. simpl in *.
      split; [exists i; split; [assumption|]; split; [lia | assumption] | lia].
    + destruct (Z.ltb_spec (Z.max (begin i) e) (end_ i)); [|contradiction].
      destruct Hj as [<-|[]]. simpl in *.
      split; [exists i; split; [assumption|]; split; [lia | assumption] | lia].
  - intros [[i [Hi [Hp Hs]]] Hout]. destruct Hout as [Hout|Hout].
    + exists (mkIval (begin i) (Z.min (end_ i) b) (state i)). simpl.
      split; [|split; [lia | assumption]].
      apply in_flat_map. exists i. split; [assumption|]. apply in_or_app. left.
      destruct (Z.ltb_spec (begin i) (Z.min (end_ i) b)); [simpl; auto | lia].
    + exists (mkIval (Z.max (begin i) e) (end_ i) (state i)). simpl.
      split; [|split; [lia | assumption]].
      apply in_flat_map. exists i. split; [assumption|]. apply in_or_app. right.
      destruct (Z.ltb_spec (Z.max (begin i) e) (end_ i)); [simpl; auto | lia].
Qed.

Lemma In_imap_insert (iv x : AddrIval) (m : IntervalMap) :
  In x (imap_insert iv m) <-> x = iv \/ In x m.
Proof.
  induction m as [|i m IH]; simpl.
  - intuition auto.
  - destruct (begin iv <=? begin i); simpl; [intuition auto|].
    rewrite IH. intuition auto.
Qed.

Lemma imap_insert_covers (iv : AddrIval) (m : IntervalMap) (p : Z)
    (s : option AddrIvalState) :
  covers (imap_insert iv m) p s <->
  (begin iv <= p < end_ iv /\ state iv = s) \/ covers m p s.
Proof.
  unfold covers. split.
  - intros [j [Hj Hr]]. apply In_imap_insert in Hj.
    destruct Hj as [->|Hj]; [left; tauto | right; eauto].
  - intros [[Hp Hs]|[j [Hj Hr]]].
    + exists iv. split; [apply In_imap_insert; auto | auto].
    + exists j. split; [apply In_imap_insert; auto | auto].
Qed.

Lemma imap_coalesce_covers (m : IntervalMap) (p : Z) (s : option AddrIvalState) :
  imap_nonnull m = true ->
  covers (imap_coalesce m) p s <-> covers m p s.
Proof.
  induction m as [|i m IH]; [tauto|].
  simpl imap_nonnull. intros H. apply andb_true_iff in H. destruct H as [Hi Hm].
  specialize (IH Hm).
  pose proof (proj1 (imap_coalesce_spec ALLOCD m 0 0 Hm)) as Hnn.
  cbn [imap_coalesce].
  assert (Hcons : forall x l, covers (x :: l) p s <->
            (begin x <= p < end_ x /\ state x = s) \/ covers l p s).
  { intros x l. unfold covers. simpl. split.
    - intros [j [[<-|Hj] Hr]]; [left; tauto | right; eauto].
    - intros [Hr|[j [Hj Hr]]]; [exists x; auto | exists j; auto]. }
  rewrite (Hcons i m), <- IH.
  destruct (imap_coalesce m) as [|j r].
  - apply Hcons.
  - simpl in Hnn. apply andb_true_iff in Hnn. destruct Hnn as [Hj Hr].
    apply Z.ltb_lt in Hi, Hj.
    destruct ((end_ i =? begin j) && ostate_eqb (state i) (state j)) eqn:E.
    + apply andb_true_iff in E. destruct E as [E1 E2].
      apply Z.eqb_eq in E1. apply ostate_eqb_eq in E2.
      rewrite (Hcons (mkIval (begin i) (end_ j) (state i)) r), (Hcons j r).
      simpl. rewrite <- E2.
      destruct (Z_lt_dec p (end_ i)); intuition (auto; lia).
    + apply Hcons.
Qed.

Lemma imap_add_covers (m : IntervalMap) (iv : AddrIval) (x : AddrIvalState) :
  imap_nonnull m = true -> begin iv < end_ iv -> state iv = Some x ->
  overwritten m (imap_add m iv) (begin iv) (end_ iv) x.
Proof.
  intros Hnn Hiv Hx p s. unfold imap_add, is_null.
  destruct (Z.leb_spec (end_ iv) (begin iv)); [lia|].
  rewrite imap_coalesce_covers
    by (apply imap_insert_nonnull; [assumption | apply imap_cut_nonnull]).
  rewrite imap_insert_covers, imap_cut_covers, Hx.
  intuition (auto; lia).
Qed.

(** ** [freed] and [allocd], address by address *)

Lemma tree_remove_covers (t t' : IntervalTree) (i : AddrIval) (p : Z)
    (s : option AddrIvalState) :
  tree_ok t -> tree_remove t i = Ok t' ->
  covers t' p s <-> covers t p s /\ (p < begin i \/ end_ i <= p).
Proof.
  intros (_ & Hnn & Hdj) Hrm.
  assert (Hi : In i t).
  { unfold tree_remove in Hrm. destruct (tree_mem i t) eqn:E; [|discriminate].
    now apply tree_mem_In. }
  unfold covers. split.
  - intros [j [Hj [Hp Hs]]]. apply (tree_remove_In _ _ _ j Hrm) in Hj.
    destruct Hj as [Hj Hne]. split; [exists j; auto|].
    destruct (Z_lt_dec p (begin i)); [auto|].
    destruct (Z_le_dec (end_ i) p); [auto|].
    exfalso. apply Hne. apply (Hdj j i p); auto; lia.
  - intros [[j [Hj [Hp Hs]]] Hout]. exists j. split; [|auto].
    apply (tree_remove_In _ _ _ j Hrm). split; [assumption|].
    intros ->. lia.
Qed.

(** What [freed(begin)] frees: the stored interval that holds [begin],
    or else the one byte at [begin]. *)
Lemma freed_spec (a : AllocatorAddrSpaceModel) (b : Z) :
  tree_ok (_addr_ivals a) -> imap_nonnull (__addr_ivals a) = true ->
  exists a' lo hi,
    freed a b = Ok a' /\
    lo <= b < hi /\
    ((exists i, In i (_addr_ivals a) /\ begin i = lo /\ end_ i = hi) \/
     ((forall i, In i (_addr_ivals a) -> ~ (begin i <= b < end_ i)) /\
      lo = b /\ hi = b + 1)) /\
    overwritten (_addr_ivals a) (_addr_ivals a') lo hi FREED /\
    overwritten (__addr_ivals a) (__addr_ivals a') lo hi FREED /\
    In (mkIval lo hi (Some FREED)) (_addr_ivals a').
Proof.
  intros Hok Hnn. unfold freed.
  destruct (query_checked_ok (_addr_ivals a) b Hok) as [[Hq Hnone]|[i [Hq [Hi Hp]]]];
    rewrite Hq; cbn [rbind].
  - destruct (tree_add_fresh_ok (_addr_ivals a) (mkIval b (b + 1) (Some FREED)))
      as [t3 Hadd]; [simpl; lia|].
    rewrite _update_tree, Hadd. cbn [rbind].
    eexists; exists b, (b + 1). split; [reflexivity|]. split; [lia|].
    split; [right; auto|]. simpl. split; [|split].
    + intros p s. rewrite (tree_add_covers _ _ _ p s Hadd). simpl.
      split.
      * intros [[Hp Hs]|Hc]; [left; auto|].
        destruct (Z.eq_dec p b) as [->|Hne]; [|right; split; [lia | assumption]].
        exfalso. destruct Hc as [j [Hj [Hpj _]]]. apply (Hnone j Hj Hpj).
      * intros [[Hp Hs]|[_ Hc]]; auto.
    + apply (imap_add_covers _ (mkIval b (b + 1) (Some FREED)) FREED); simpl;
        auto; lia.
    + apply (tree_add_In _ _ _ _ Hadd). auto.
  - pose proof (proj1 (proj2 Hok) i Hi) as Hin.
    assert (Hrm : tree_remove (_addr_ivals a) i = Ok (tree_discard (_addr_ivals a) i)).
    { unfold tree_remove. now rewrite (proj2 (tree_mem_In i _) Hi). }
    rewrite Hrm. cbn [rbind].
    destruct (tree_add_fresh_ok (tree_discard (_addr_ivals a) i)
                (mkIval (begin i) (end_ i) (Some FREED))) as [t3 Hadd];
      [simpl; lia|].
    simpl. rewrite Hadd. cbn [rbind].
    eexists; exists (begin i), (end_ i). split; [reflexivity|]. split; [lia|].
    split; [left; exists i; auto|]. simpl. split; [|split].
    + intros p s. rewrite (tree_add_covers _ _ _ p s Hadd).
      rewrite (tree_remove_covers _ _ i p s Hok Hrm). simpl.
      intuition (auto; lia).
    + apply (imap_add_covers _ (mkIval (begin i) (end_ i) (Some FREED)) FREED);
        simpl; auto.
    + apply (tree_add_In _ _ _ _ Hadd). auto.
Qed.

(** The commit of [allocd], after the subscribers have run. *)
Lemma allocd_commit (subscribers : list Subscriber) (w w' : World) (b e : Z) :
  Forall keeps_ok subscribers ->
  tree_ok (_addr_ivals (alloc_state w)) ->
  allocd subscribers w b e = Ok w' ->
  exists w1,
    (if nonempty (overlaps_freed (_addr_ivals (alloc_state w)) b e)
     then _publish subscribers w b e else Ok w) = Ok w1 /\
    b < e /\
    overwritten (_addr_ivals (alloc_state w1)) (_addr_ivals (alloc_state w')) b e ALLOCD /\
    __addr_ivals (alloc_state w') =
      imap_add (__addr_ivals (alloc_state w1)) (mkIval b e (Some ALLOCD)) /\
    In (mkIval b e (Some ALLOCD)) (_addr_ivals (alloc_state w')).
Proof.
  intros Hsubs Hok. unfold allocd, overlaps_freed.
  set (overlaps := tree_search (_addr_ivals (alloc_state w)) b e).
  destruct (nonempty overlaps) eqn:Hov.
  - assert (Hbe : b < e).
    { apply nonempty_true, not_nil_iff in Hov. destruct Hov as [i Hi].
      apply In_tree_search in Hi. tauto. }
    destruct (if nonempty (filter (state_is FREED) overlaps)
              then _publish subscribers w b e else Ok w) as [w1|x] eqn:Hpub;
      cbn [rbind]; [|discriminate].
    destruct (tree_add _ _) as [t3|x] eqn:Hadd; cbn [rbind]; [|discriminate].
    intros [= <-]. exists w1. split; [reflexivity|]. split; [assumption|].
    simpl in *. split; [|split; [reflexivity|]].
    + intros p s. rewrite (tree_add_covers _ _ _ p s Hadd), chop_covers by assumption.
      simpl. intuition (auto; lia).
    + apply (tree_add_In _ _ _ _ Hadd). auto.
  - apply nonempty_false in Hov. rewrite Hov. cbn [filter nonempty rbind].
    destruct (tree_add _ _) as [t3|x] eqn:Hadd; cbn [rbind]; [|discriminate].
    intros [= <-]. exists w. split; [reflexivity|]. simpl in *.
    assert (Hbe : b < e)
      by (apply (tree_add_nonnull _ _ _ (proj1 (proj2 Hok)) Hadd)).
    split; [assumption|]. split; [|split; [reflexivity|]].
    + intros p s. rewrite (tree_add_covers _ _ _ p s Hadd). simpl. split.
      * intros [[Hp Hs]|Hc]; [left; auto|].
        destruct (Z_lt_dec p b); [right; auto|].
        destruct (Z_le_dec e p); [right; auto|].
        exfalso. destruct Hc as [j [Hj [Hpj _]]].
        assert (Hin : In j overlaps) by (apply In_tree_search; repeat split; auto; lia).
        rewrite Hov in Hin. contradiction.
      * intros [[Hp Hs]|[_ Hc]]; auto.
    + apply (tree_add_In _ _ _ _ Hadd). auto.
Qed.



Lemma freed_frees_containing_interval_aux (a : AllocatorAddrSpaceModel) (b : Z) :
  tree_ok (_addr_ivals a) -> imap_nonnull (__addr_ivals a) = true ->
  exists a' lo hi,
    freed a b = Ok a' /\
    overwritten (_addr_ivals a) (_addr_ivals a') lo hi FREED /\
    overwritten (__addr_ivals a) (__addr_ivals a') lo hi FREED /\
    tree_ok (_addr_ivals a') /\ imap_nonnull (__addr_ivals a') = true.
Proof.
  intros Hok Hnn.
  destruct (freed_spec a b Hok Hnn)
    as [a' [lo [hi [Hrun [Hb [Hwhich [Ht [Hm Hin]]]]]]]].
  exists a', lo, hi. split; [assumption|]. split; [assumption|].
  split; [assumption|]. split; [eapply freed_ok; eauto|].
  unfold freed in Hrun.
  destruct (intervaltree_query_checked _ _) as [[i|]|x]; cbn [rbind] in Hrun;
    try discriminate.
  - destruct (tree_remove _ _) as [t1|x]; cbn [rbind] in Hrun; [|discriminate].
    destruct (tree_add _ _) as [t3|x]; cbn [rbind] in Hrun; [|discriminate].
    injection Hrun as <-. simpl. now apply imap_add_nonnull.
  - destruct (tree_add _ _) as [t3|x]; cbn [rbind] in Hrun; [|discriminate].
    injection Hrun as <-. simpl. now apply imap_add_nonnull.
Qed.





(** ** Agreement of the interval tree and the coalesced map *)

Lemma overwritten_agree (a a' : AllocatorAddrSpaceModel) (lo hi : Z)
    (x : AddrIvalState) :
  agree a ->
  overwritten (_addr_ivals a) (_addr_ivals a') lo hi x ->
  overwritten (__addr_ivals a) (__addr_ivals a') lo hi x ->
  agree a'.
Proof.
  intros Hag Ht Hm p st. rewrite (Ht p (Some st)), (Hm p (Some st)), (Hag p st).
  tauto.
Qed.

Lemma revoked_one_model (a a' : AllocatorAddrSpaceModel) (be : Z * Z) :
  model_ok a -> revoked_one a be = Ok a' ->
  model_ok a' /\ (agree a -> agree a').
Proof.
  intros [Hok Hnn] Hrun.
  destruct (revoked_one_ok a a' be Hok Hrun) as [Hbe Hok'].
  assert (Hmap : __addr_ivals a' =
                 imap_add (__addr_ivals a) (mkIval (fst be) (snd be) (Some REVOKED))).
  { unfold revoked_one in Hrun.
    destruct (tree_add _ _) as [t2|x]; cbn [rbind] in Hrun; [|discriminate].
    now injection Hrun as <-. }
  split; [split; [assumption|]|].
  - rewrite Hmap. now apply imap_add_nonnull.
  - intros Hag. apply (overwritten_agree a a' (fst be) (snd be) REVOKED Hag).
    + intros p s. apply (revoked_one_covers a a' be Hbe Hrun).
    + rewrite Hmap.
      apply (imap_add_covers _ (mkIval (fst be) (snd be) (Some REVOKED)) REVOKED);
        auto.
Qed.

Lemma revoked_loop_model (bes : list (Z * Z)) (a a' : AllocatorAddrSpaceModel) :
  model_ok a -> revoked_loop a bes = Ok a' ->
  model_ok a' /\ (agree a -> agree a').
Proof.
  revert a. induction bes as [|be bes IH]; intros a Hok; cbn [revoked_loop].
  - intros [= <-]. auto.
  - destruct (revoked_one a be) as [a1|x] eqn:H1; cbn [rbind]; [|discriminate].
    intros Hrun. destruct (revoked_one_model a a1 be Hok H1) as [Hok1 Hag1].
    destruct (IH a1 Hok1 Hrun) as [Hok' Hag']. auto.
Qed.

Lemma revoke_each_model (l : list AddrIval) (a a' : AllocatorAddrSpaceModel) :
  model_ok a -> revoke_each a l = Ok a' ->
  model_ok a' /\ (agree a -> agree a').
Proof.
  revert a. induction l as [|m l IH]; intros a Hok; cbn [revoke_each].
  - intros [= <-]. auto.
  - destruct (revoked a [(begin m, end_ m)]) as [a1|x] eqn:H1; cbn [rbind];
      [|discriminate].
    intros Hrun. apply revoked_loop_of_revoked in H1.
    destruct (revoked_loop_model _ a a1 Hok H1) as [Hok1 Hag1].
    destruct (IH a1 Hok1 Hrun) as [Hok' Hag']. auto.
Qed.

Lemma subscriber_of_model (k : SubscriberKind) (w w' : World) (b e : Z) :
  model_ok (alloc_state w) -> subscriber_of k w b e = Ok w' ->
  model_ok (alloc_state w') /\ (agree (alloc_state w) -> agree (alloc_state w')).
Proof.
  intros Hok. destruct k; simpl.
  - unfold NaiveSweepingRevoker_reused.
    destruct (if nonempty _ then _ else _) as [r|x]; cbn [rbind]; [|discriminate].
    destruct (revoke_each _ _) as [a|x] eqn:Hr; cbn [rbind]; [|discriminate].
    intros [= <-]. simpl. eapply revoke_each_model; eauto.
  - unfold CompactingSweepingRevoker_reused.
    destruct (intervals_coalesced _) as [batch|x]; cbn [rbind]; [|discriminate].
    destruct (if nonempty _ then _ else _) as [r|x]; cbn [rbind]; [|discriminate].
    destruct (revoke_each _ _) as [a|x] eqn:Hr; cbn [rbind]; [|discriminate].
    intros [= <-]. simpl. eapply revoke_each_model; eauto.
  - unfold AllocationMapOutput_reused.
    destruct (tree_add _ _) as [t|x]; cbn [rbind]; [|discriminate].
    intros [= <-]. auto.
Qed.

Lemma _publish_model (b e : Z) (kinds : list SubscriberKind) :
  forall w w',
    model_ok (alloc_state w) ->
    _publish (List.map subscriber_of kinds) w b e = Ok w' ->
    model_ok (alloc_state w') /\ (agree (alloc_state w) -> agree (alloc_state w')).
Proof.
  induction kinds as [|k kinds IH]; intros w w' Hok; cbn [List.map _publish].
  - intros [= <-]. auto.
  - destruct (subscriber_of k w b e) as [w1|x] eqn:H1; cbn [rbind]; [|discriminate].
    intros Hrun. destruct (subscriber_of_model k w w1 b e Hok H1) as [Hok1 Hag1].
    destruct (IH w1 w' Hok1 Hrun) as [Hok' Hag']. auto.
Qed.

Lemma kinds_keep_ok (kinds : list SubscriberKind) :
  Forall keeps_ok (List.map subscriber_of kinds).
Proof.
  apply Forall_forall. intros s Hs. apply in_map_iff in Hs.
  destruct Hs as [k [<- _]]. apply subscriber_of_keeps_ok.
Qed.

Lemma allocd_model (kinds : list SubscriberKind) (w w' : World) (b e : Z) :
  model_ok (alloc_state w) ->
  allocd (List.map subscriber_of kinds) w b e = Ok w' ->
  model_ok (alloc_state w') /\ (agree (alloc_state w) -> agree (alloc_state w')).
Proof.
  intros [Hok Hnn] Hrun.
  pose proof (allocd_ok _ _ _ _ _ (kinds_keep_ok kinds) Hok Hrun) as Hok'.
  destruct (allocd_commit _ _ _ _ _ (kinds_keep_ok kinds) Hok Hrun)
    as [w1 [Hpub [Hbe [Ht [Hm _]]]]].
  assert (H1 : model_ok (alloc_state w1) /\
               (agree (alloc_state w) -> agree (alloc_state w1))).
  { destruct (nonempty _).
    - apply (_publish_model b e kinds w w1); [split; assumption | assumption].
    - injection Hpub as <-. split; [split; assumption | auto]. }
  destruct H1 as [[Hok1 Hnn1] Hag1].
  split; [split; [assumption|]|].
  - rewrite Hm. now apply imap_add_nonnull.
  - intros Hag. apply (overwritten_agree (alloc_state w1) (alloc_state w') b e ALLOCD);
      auto.
    rewrite Hm. apply (imap_add_covers _ (mkIval b e (Some ALLOCD)) ALLOCD); auto.
Qed.

Lemma freed_model (a a' : AllocatorAddrSpaceModel) (b : Z) :
  model_ok a -> freed a b = Ok a' -> model_ok a' /\ (agree a -> agree a').
Proof.
  intros [Hok Hnn] Hrun.
  destruct (freed_frees_containing_interval_aux a b Hok Hnn)
    as [a'' [lo [hi [Hrun' [Ht [Hm [Hok' Hnn']]]]]]].
  rewrite Hrun in Hrun'. injection Hrun' as <-.
  split; [split; assumption|].
  intros Hag. now apply (overwritten_agree a a' lo hi FREED).
Qed.

Lemma apply_op_model (kinds : list SubscriberKind) (w w' : World) (op : Op) :
  model_ok (alloc_state w) ->
  apply_op (List.map subscriber_of kinds) w op = Ok w' ->
  model_ok (alloc_state w') /\
  (lifecycle_op op = true -> agree (alloc_state w) -> agree (alloc_state w')).
Proof.
  intros Hok. destruct op; cbn [apply_op lifecycle_op].
  - intros H. destruct (allocd_model kinds w w' b e Hok H). auto.
  - destruct (freed _ _) as [a|x] eqn:H; cbn [rbind]; [|discriminate].
    intros [= <-]. simpl. destruct (freed_model _ _ _ Hok H). auto.
  - destruct (revoked _ _) as [a|x] eqn:H; cbn [rbind]; [|discriminate].
    intros [= <-]. simpl. apply revoked_loop_of_revoked in H.
    destruct (revoked_loop_model _ _ _ Hok H). auto.
  - intros [= <-]. simpl. split; [|discriminate].
    destruct Hok as [Hok Hnn]. unfold mapd.
    destruct (existsb _ _); [|split; assumption].
    split; [assumption | simpl; now apply imap_add_nonnull].
  - intros [= <-]. simpl. split; [|discriminate].
    destruct Hok as [Hok Hnn]. split; [assumption | simpl; now apply imap_add_nonnull].
  - intros [= <-]. simpl. auto.
Qed.

Lemma model_ok_init (capacity_ivals : Z) :
  model_ok (alloc_state (World_init capacity_ivals)) /\
  agree (alloc_state (World_init capacity_ivals)).
Proof.
  split; [split; [apply tree_okb_correct|]; reflexivity|].
  intros p st. simpl. split.
  - intros [i [[] _]].
  - intros [i [[<-|[]] [_ Hs]]]. discriminate.
Qed.

(** X4: as long as only allocate, free, revoke and size samples are
    replayed -- with any of the program's subscribers registered,
    revocations by the revokers included -- the interval tree the
    revokers read and the coalesced map the renderer reads record the
    same state at every address: an address is covered by a stored
    interval of some state if and only if the map gives it that state. *)
Theorem tree_and_map_agree :
  forall (kinds : list SubscriberKind) (capacity_ivals : Z) (ops : list Op)
         (w : World),
    forallb lifecycle_op ops = true ->
    apply_ops (List.map subscriber_of kinds) (World_init capacity_ivals) ops = Ok w ->
    forall p st,
      covers (_addr_ivals (alloc_state w)) p (Some st) <->
      covers (__addr_ivals (alloc_state w)) p (Some st).
Proof.
  intros kinds cap ops w Hlc Hrun.
  destruct (model_ok_init cap) as [Hok0 Hag0].
  revert Hlc Hrun Hok0 Hag0. generalize (World_init cap) as w0.
  induction ops as [|op ops IH]; intros w0 Hlc Hrun Hok0 Hag0; cbn [apply_ops] in Hrun.
  - injection Hrun as <-. exact Hag0.
  - simpl in Hlc. apply andb_true_iff in Hlc. destruct Hlc as [Hop Hlc].
    destruct (apply_op _ w0 op) as [w1|x] eqn:H1; cbn [rbind] in Hrun;
      [|discriminate].
    destruct (apply_op_model kinds w0 w1 op Hok0 H1) as [Hok1 Hag1].
    apply (IH w1); auto.
Qed.

Lemma tree_and_map_agree_witness :
  exists w,
    apply_ops (List.map subscriber_of [Naive]) (World_init (2 ^ 64))
      [OpAllocd 0 100; OpFreed 30; OpAllocd 50 150; OpRevoked [(200, 300)]]
      = Ok w /\
    (covers (_addr_ivals (alloc_state w)) 10 (Some REVOKED) <->
     covers (__addr_ivals (alloc_state w)) 10 (Some REVOKED)).
Proof.
  eexists. split; [vm_compute; reflexivity|].
  refine (tree_and_map_agree [Naive] (2 ^ 64)
            [OpAllocd 0 100; OpFreed 30; OpAllocd 50 150; OpRevoked [(200, 300)]]
            _ _ _ 10 REVOKED).
  - reflexivity.
  - vm_compute. reflexivity.
Defined.



(** ** The running totals against a full rescan *)

Lemma sum_sizes_cons (st : AddrIvalState) (i : AddrIval) (m : list AddrIval) :
  sum_sizes st (i :: m) =
  (if state_is st i then end_ i - begin i else 0) + sum_sizes st m.
Proof.
  unfold sum_sizes. cbn [filter]. destruct (state_is st i); [|lia].
  cbn [List.map sum_Z fold_right]. unfold ival_size at 1. reflexivity.
Qed.

Lemma sum_sizes_app (st : AddrIvalState) (m1 m2 : list AddrIval) :
  sum_sizes st (m1 ++ m2) = sum_sizes st m1 + sum_sizes st m2.
Proof.
  induction m1 as [|i m1 IH]; [reflexivity|].
  simpl app. rewrite !sum_sizes_cons, IH. lia.
Qed.

Lemma sum_sizes_nonneg (st : AddrIvalState) (m : IntervalMap) :
  imap_nonnull m = true -> 0 <= sum_sizes st m.
Proof.
  induction m as [|i m IH]; [intros _; reflexivity|].
  simpl imap_nonnull. intros H. apply andb_true_iff in H. destruct H as [Hi Hm].
  apply Z.ltb_lt in Hi. specialize (IH Hm). rewrite sum_sizes_cons.
  destruct (state_is st i); lia.
Qed.

Lemma sum_sizes_cut_one (st : AddrIvalState) (i : AddrIval) (b e : Z) :
  b < e -> begin i < end_ i ->
  sum_sizes st
    ((if begin i <? Z.min (end_ i) b
      then [mkIval (begin i) (Z.min (end_ i) b) (state i)] else []) ++
     (if Z.max (begin i) e <? end_ i
      then [mkIval (Z.max (begin i) e) (end_ i) (state i)] else [])) =
  sum_sizes st [i] - bytes_in st [i] b e.
Proof.
  intros Hbe Hi. unfold bytes_in.
  destruct i as [bi ei si]. cbn [state begin end_] in *.
  destruct (Z.min_spec ei b) as [[? ->]|[? ->]];
    destruct (Z.max_spec bi e) as [[? ->]|[? ->]];
    destruct (Z.ltb_spec bi ei); try lia;
    try destruct (Z.ltb_spec bi b); try destruct (Z.ltb_spec e ei);
    cbn [app]; rewrite ?sum_sizes_cons; unfold sum_sizes, state_is;
    cbn [filter List.map sum_Z fold_right state begin end_];
    destruct si as [s|]; try (destruct (state_eqb s st));
    cbn [filter List.map sum_Z fold_right]; lia.
Qed.

Lemma sum_sizes_cut (st : AddrIvalState) (m : IntervalMap) (b e : Z) :
  b < e -> imap_nonnull m = true ->
  sum_sizes st (imap_cut m b e) = sum_sizes st m - bytes_in st m b e.
Proof.
  intros Hbe Hnn. induction m as [|i m IH]; [reflexivity|].
  simpl in Hnn. apply andb_true_iff in Hnn. destruct Hnn as [Hi Hm].
  apply Z.ltb_lt in Hi. specialize (IH Hm).
  unfold imap_cut in *. cbn [flat_map].
  rewrite (sum_sizes_app st _ (flat_map _ m)), IH.
  rewrite (sum_sizes_cut_one st i b e Hbe Hi).
  rewrite (sum_sizes_cons st i m), (sum_sizes_cons st i []).
  rewrite (bytes_in_cons st i m b e), (bytes_in_cons st i [] b e).
  change (bytes_in st [] b e) with 0. change (sum_sizes st []) with 0.
  lia.
Qed.

Lemma sum_sizes_insert (st : AddrIvalState) (iv : AddrIval) (m : IntervalMap) :
  sum_sizes st (imap_insert iv m) = sum_sizes st [iv] + sum_sizes st m.
Proof.
  assert (H0 : sum_sizes st [] = 0) by reflexivity.
  induction m as [|i m IH]; simpl imap_insert.
  - rewrite H0. lia.
  - destruct (begin iv <=? begin i).
    + rewrite (sum_sizes_cons st iv (i :: m)), (sum_sizes_cons st iv []), H0. lia.
    + rewrite (sum_sizes_cons st i (imap_insert iv m)), IH,
        (sum_sizes_cons st i m). lia.
Qed.

Lemma sum_sizes_coalesce (st : AddrIvalState) (m : IntervalMap) :
  imap_nonnull m = true ->
  sum_sizes st (imap_coalesce m) = sum_sizes st m.
Proof.
  induction m as [|i m IH]; [auto|].
  simpl imap_nonnull. intros H. apply andb_true_iff in H. destruct H as [Hi Hm].
  specialize (IH Hm). cbn [imap_coalesce].
  rewrite (sum_sizes_cons st i m), <- IH.
  destruct (imap_coalesce m) as [|j r]; [apply sum_sizes_cons|].
  destruct ((end_ i =? begin j) && ostate_eqb (state i) (state j)) eqn:E.
  - apply andb_true_iff in E. destruct E as [E1 E2].
    apply Z.eqb_eq in E1. apply ostate_eqb_eq in E2.
    rewrite !sum_sizes_cons. unfold state_is. simpl. rewrite <- E2.
    destruct (state i) as [s|]; [destruct (state_eqb s st)|]; lia.
  - rewrite !sum_sizes_cons. reflexivity.
Qed.

(** How an assignment changes the bytes of a state, in any window and
    in total. *)
Lemma bytes_in_add (st : AddrIvalState) (m : IntervalMap) (iv : AddrIval)
    (lo hi : Z) :
  imap_nonnull m = true ->
  bytes_in st (imap_add m iv) lo hi =
  bytes_in st m lo hi - bytes_in st m (Z.max lo (begin iv)) (Z.min hi (end_ iv))
  + (if is_null iv then 0 else bytes_in st [iv] lo hi).
Proof.
  intros Hnn. unfold imap_add, is_null.
  destruct (Z.leb_spec (end_ iv) (begin iv)) as [Hnull|Hiv].
  - rewrite (bytes_in_empty_window st m (Z.max lo (begin iv))); lia.
  - rewrite (proj2 (imap_coalesce_spec st _ lo hi
               (imap_insert_nonnull iv _ Hiv (imap_cut_nonnull m _ _)))).
    rewrite bytes_in_insert, bytes_in_cut by assumption. lia.
Qed.

Lemma sum_sizes_add (st : AddrIvalState) (m : IntervalMap) (iv : AddrIval) :
  imap_nonnull m = true ->
  sum_sizes st (imap_add m iv) =
  sum_sizes st m - bytes_in st m (begin iv) (end_ iv)
  + (if is_null iv then 0 else sum_sizes st [iv]).
Proof.
  intros Hnn. unfold imap_add, is_null.
  destruct (Z.leb_spec (end_ iv) (begin iv)) as [Hnull|Hiv].
  - rewrite (bytes_in_empty_window st m (begin iv)); lia.
  - rewrite sum_sizes_coalesce
      by (apply imap_insert_nonnull; [assumption | apply imap_cut_nonnull]).
    rewrite sum_sizes_insert, sum_sizes_cut by assumption. lia.
Qed.

Lemma _update_totals (a : AllocatorAddrSpaceModel) (iv : AddrIval) :
  imap_nonnull (__addr_ivals a) = true -> totals_ok a -> totals_ok (_update a iv).
Proof.
  intros Hnn [Ha Hm].
  assert (Hwin : forall st,
            sum_sizes st (imap_range (imap_add (__addr_ivals a) iv)
                            (begin iv - 1) (end_ iv + 1)) -
            sum_sizes st (imap_range (__addr_ivals a) (begin iv - 1) (end_ iv + 1)) =
            sum_sizes st (imap_add (__addr_ivals a) iv) -
            sum_sizes st (__addr_ivals a)).
  { intros st.
    rewrite !sum_sizes_range by (try apply imap_add_nonnull; assumption).
    rewrite bytes_in_add, sum_sizes_add by assumption.
    replace (Z.max (begin iv - 1) (begin iv)) with (begin iv) by lia.
    replace (Z.min (end_ iv + 1) (end_ iv)) with (end_ iv) by lia.
    unfold is_null. destruct (Z.leb_spec (end_ iv) (begin iv)); [lia|].
    rewrite bytes_in_cons, sum_sizes_cons.
    change (bytes_in st [] (begin iv - 1) (end_ iv + 1)) with 0.
    change (sum_sizes st []) with 0.
    destruct (state_is st iv); lia. }
  unfold totals_ok, _update. cbn [allocd_size mapd_size __addr_ivals].
  pose proof (Hwin ALLOCD). pose proof (Hwin MAPD). lia.
Qed.

Lemma updates_totals (a a' : AllocatorAddrSpaceModel) :
  updates a a' ->
  imap_nonnull (__addr_ivals a) = true -> totals_ok a ->
  imap_nonnull (__addr_ivals a') = true /\ totals_ok a'.
Proof.
  induction 1 as [|a1 iv _ IH|a1 t _ IH]; intros Hnn Htot.
  - auto.
  - destruct (IH Hnn Htot) as [Hnn1 Htot1]. split.
    + simpl. now apply imap_add_nonnull.
    + now apply _update_totals.
  - destruct (IH Hnn Htot) as [Hnn1 Htot1]. split; assumption.
Qed.

Lemma updates_trans (a b c : AllocatorAddrSpaceModel) :
  updates a b -> updates b c -> updates a c.
Proof.
  intros Hab Hbc. induction Hbc; [assumption | now constructor | now constructor].
Qed.

Local Ltac upd_step :=
  repeat first
    [ assumption
    | apply updates_tree
    | apply updates_update
    | apply updates_refl ].

Lemma revoked_one_updates (a a' : AllocatorAddrSpaceModel) (be : Z * Z) :
  revoked_one a be = Ok a' -> updates a a'.
Proof.
  unfold revoked_one. cbn [begin end_].
  destruct (tree_add _ _) as [t|x]; cbn [rbind]; [|discriminate].
  intros H. injection H as <-. upd_step.
Qed.

Lemma revoked_loop_updates (bes : list (Z * Z)) :
  forall a a', revoked_loop a bes = Ok a' -> updates a a'.
Proof.
  induction bes as [|be bes IH]; intros a a'; cbn [revoked_loop].
  - intros H. injection H as <-. constructor.
  - destruct (revoked_one a be) as [a1|x] eqn:E; cbn [rbind]; [|discriminate].
    intros H. eapply updates_trans; [eapply revoked_one_updates, E | eauto].
Qed.

Lemma revoked_updates (a a' : AllocatorAddrSpaceModel) (bes : list (Z * Z)) :
  revoked a bes = Ok a' -> updates a a'.
Proof.
  unfold revoked. destruct bes as [|be bes]; [discriminate|].
  destruct (existsb _ _); [discriminate|]. apply revoked_loop_updates.
Qed.

Lemma revoke_each_updates (l : list AddrIval) :
  forall a a', revoke_each a l = Ok a' -> updates a a'.
Proof.
  induction l as [|i l IH]; intros a a'; cbn [revoke_each].
  - intros H. injection H as <-. constructor.
  - destruct (revoked a _) as [a1|x] eqn:E; cbn [rbind]; [|discriminate].
    intros H. eapply updates_trans; [eapply revoked_updates, E | eauto].
Qed.

Lemma freed_updates (a a' : AllocatorAddrSpaceModel) (b : Z) :
  freed a b = Ok a' -> updates a a'.
Proof.
  unfold freed.
  destruct (intervaltree_query_checked _ _) as [[i|]|x]; cbn [rbind];
    [| |discriminate].
  - destruct (tree_remove _ _) as [t1|x]; cbn [rbind]; [|discriminate].
    destruct (tree_add _ _) as [t3|x]; cbn [rbind]; [|discriminate].
    intros H. injection H as <-. upd_step.
  - destruct (tree_add _ _) as [t3|x]; cbn [rbind]; [|discriminate].
    intros H. injection H as <-. upd_step.
Qed.

Lemma subscriber_of_updates (k : SubscriberKind) (w w' : World) (b e : Z) :
  subscriber_of k w b e = Ok w' -> updates (alloc_state w) (alloc_state w').
Proof.
  destruct k; cbn [subscriber_of].
  - unfold NaiveSweepingRevoker_reused.
    destruct (if nonempty _ then _ else _) as [r|x]; cbn [rbind]; [|discriminate].
    destruct (revoke_each _ _) as [a|x] eqn:E; cbn [rbind]; [|discriminate].
    intros H. injection H as <-. cbn [alloc_state set_alloc_state].
    eapply revoke_each_updates, E.
  - unfold CompactingSweepingRevoker_reused.
    destruct (intervals_coalesced _) as [batch|x]; cbn [rbind]; [|discriminate].
    destruct (if nonempty _ then _ else _) as [r|x]; cbn [rbind]; [|discriminate].
    destruct (revoke_each _ _) as [a|x] eqn:E; cbn [rbind]; [|discriminate].
    intros H. injection H as <-. cbn [alloc_state set_alloc_state].
    eapply revoke_each_updates, E.
  - unfold AllocationMapOutput_reused.
    destruct (tree_add _ _) as [t|x]; cbn [rbind]; [|discriminate].
    intros H. injection H as <-. cbn [alloc_state]. constructor.
Qed.

Lemma _publish_updates (ks : list SubscriberKind) :
  forall (w w' : World) (b e : Z),
    _publish (List.map subscriber_of ks) w b e = Ok w' ->
    updates (alloc_state w) (alloc_state w').
Proof.
  induction ks as [|k ks IH]; intros w w' b e; cbn [List.map _publish].
  - intros H. injection H as <-. constructor.
  - destruct (subscriber_of k w b e) as [w1|x] eqn:E; cbn [rbind]; [|discriminate].
    intros H. eapply updates_trans; [eapply subscriber_of_updates, E | eauto].
Qed.

Lemma allocd_updates (ks : list SubscriberKind) (w w' : World) (b e : Z) :
  allocd (List.map subscriber_of ks) w b e = Ok w' ->
  updates (alloc_state w) (alloc_state w').
Proof.
  unfold allocd.
  destruct (if nonempty (List.filter _ _) then _ else _) as [w1|x] eqn:E;
    cbn [rbind]; [|discriminate].
  assert (H1 : updates (alloc_state w) (alloc_state w1)).
  { destruct (nonempty (List.filter _ _)).
    - eapply _publish_updates, E.
    - injection E as <-. constructor. }
  destruct (tree_add _ _) as [t3|x]; cbn [rbind]; [|discriminate].
  intros H. injection H as <-. cbn [alloc_state set_alloc_state]. upd_step.
Qed.

Lemma reallocd_updates (ks : list SubscriberKind) (w w' : World) (bo bn en : Z) :
  reallocd (List.map subscriber_of ks) w bo bn en = Ok w' ->
  updates (alloc_state w) (alloc_state w').
Proof.
  unfold reallocd.
  destruct (intervaltree_query_checked _ _) as [[old|]|x]; cbn [rbind];
    [| |discriminate].
  - destruct (if ival_overlaps _ _ then _ else _) as [w1|x] eqn:E;
      cbn [rbind]; [|discriminate].
    intros H. apply allocd_updates in H.
    eapply updates_trans; [|exact H]. clear H.
    destruct (ival_overlaps _ _).
    + destruct (tree_remove _ _) as [t1|x]; cbn [rbind] in E; [|discriminate].
      destruct (ival_lt _ _) as [l|x]; cbn [rbind] in E; [|discriminate].
      destruct (if l then _ else _) as [t2|x]; cbn [rbind] in E; [|discriminate].
      destruct (ival_gt _ _) as [g|x]; cbn [rbind] in E; [|discriminate].
      destruct (if g then _ else _) as [t3|x]; cbn [rbind] in E; [|discriminate].
      injection E as <-. cbn [alloc_state set_alloc_state]. upd_step.
    + destruct (freed _ _) as [a1|x] eqn:F; cbn [rbind] in E; [|discriminate].
      injection E as <-. cbn [alloc_state set_alloc_state].
      eapply freed_updates, F.
  - apply allocd_updates.
Qed.

Lemma apply_op_updates (ks : list SubscriberKind) (w w' : World) (op : Op) :
  apply_op (List.map subscriber_of ks) w op = Ok w' ->
  updates (alloc_state w) (alloc_state w').
Proof.
  destruct op as [b e|b|bes|cs b e|cs b e|sz]; cbn [apply_op].
  - apply allocd_updates.
  - destruct (freed _ _) as [a|x] eqn:E; cbn [rbind]; [|discriminate].
    intros H. injection H as <-. cbn [alloc_state set_alloc_state].
    eapply freed_updates, E.
  - destruct (revoked _ _) as [a|x] eqn:E; cbn [rbind]; [|discriminate].
    intros H. injection H as <-. cbn [alloc_state set_alloc_state].
    eapply revoked_updates, E.
  - intros H. injection H as <-. cbn [alloc_state set_alloc_state].
    unfold mapd. destruct (existsb _ _); upd_step.
  - intros H. injection H as <-. cbn [alloc_state set_alloc_state].
    unfold unmapd. upd_step.
  - intros H. injection H as <-. cbn [alloc_state size_measured]. constructor.
Qed.

Lemma apply_events_updates (ks : list SubscriberKind) (evs : list Event) :
  forall w w',
    apply_events (List.map subscriber_of ks) w evs = Ok w' ->
    updates (alloc_state w) (alloc_state w').
Proof.
  induction evs as [|ev evs IH]; intros w w'; cbn [apply_events].
  - intros H. injection H as <-. constructor.
  - destruct (apply_event _ w ev) as [w1|x] eqn:E; cbn [rbind]; [|discriminate].
    intros H. eapply updates_trans; [|eapply IH, H].
    destruct ev as [op|bo bn en]; cbn [apply_event] in E.
    + eapply apply_op_updates, E.
    + eapply reallocd_updates, E.
Qed.

(** X6.  The counters [allocd_size] and [mapd_size], which [_update]
    maintains from the intervals around each change only, are after any
    sequence of allocator events (allocations, reallocations, frees,
    revocations, mappings and unmappings, with any of the program's
    subscribers registered) exactly the total size of the ALLOCD and of
    the MAPD intervals of the whole map; in particular they never go
    negative. *)
Theorem running_totals_match_rescan (ks : list SubscriberKind)
    (capacity : Z) (evs : list Event) (w : World) :
  apply_events (List.map subscriber_of ks) (World_init capacity) evs = Ok w ->
  allocd_size (alloc_state w) = sum_sizes ALLOCD (__addr_ivals (alloc_state w)) /\
  mapd_size (alloc_state w) = sum_sizes MAPD (__addr_ivals (alloc_state w)) /\
  0 <= allocd_size (alloc_state w) /\
  0 <= mapd_size (alloc_state w).
Proof.
  intros H. apply apply_events_updates in H.
  apply updates_totals in H; [| reflexivity | split; reflexivity].
  destruct H as [Hnn [Ha Hm]].
  split; [exact Ha|]. split; [exact Hm|].
  rewrite Ha, Hm. split; apply sum_sizes_nonneg; exact Hnn.
Qed.

Lemma running_totals_match_rescan_witness :
  let w := {| alloc_state :=
                {| mapd_size := 4064; allocd_size := 16;
                   __addr_ivals :=
                     [mkIval 0 32 (Some MAPD); mkIval 32 48 (Some ALLOCD);
                      mkIval 48 64 (Some FREED); mkIval 64 4096 (Some MAPD);
                      mkIval 4096 (2 ^ 64) None];
                   _addr_ivals := [mkIval 32 48 (Some ALLOCD)] |};
              addr_space_size := 0;
              revoker := {| swept := 0; _capacity_ivals := 10 |};
              _addr_ivals_reused := [] |} in
  apply_events (List.map subscriber_of [Naive]) (World_init 10)
    [EvOp (OpMapd "malloc" 0 4096); EvOp (OpAllocd 32 64);
     EvReallocd 32 32 48] = Ok w /\
  allocd_size (alloc_state w) = sum_sizes ALLOCD (__addr_ivals (alloc_state w)) /\
  mapd_size (alloc_state w) = sum_sizes MAPD (__addr_ivals (alloc_state w)) /\
  0 <= allocd_size (alloc_state w) /\
  0 <= mapd_size (alloc_state w).
Proof.
  cbv zeta.
  match goal with |- ?r = Ok ?w /\ _ =>
    assert (E : r = Ok w) by (vm_compute; reflexivity) end.
  split; [exact E|].
  exact (running_totals_match_rescan [Naive] 10 _ _ E).
Defined.

(** ** The accounting model over a trace *)

Lemma live_total_insert (m : Accounting.AccountingAddrSpaceModel) (b sz : Z) :
  map_fold (fun _ sz acc => sz + acc) 0 (<[b := sz]> (Accounting._va2sz m)) =
  live_total m - clobbered_at m b + sz.
Proof.
  unfold live_total, clobbered_at.
  assert (Hc : forall (t : gmap Z Z) (j1 j2 z1 z2 y : Z),
            j1 <> j2 -> t !! j1 = Some z1 -> t !! j2 = Some z2 ->
            z1 + (z2 + y) = z2 + (z1 + y)) by (intros; lia).
  destruct (Accounting._va2sz m !! b) as [s0|] eqn:Hb.
  - rewrite <- (insert_delete_eq (Accounting._va2sz m) b sz).
    rewrite map_fold_insert_L; [| apply Hc | apply lookup_delete_eq].
    rewrite (map_fold_delete_L _ 0 b s0 (Accounting._va2sz m) (Hc _) Hb). lia.
  - rewrite map_fold_insert_L; [lia | apply Hc | exact Hb].
Qed.

Lemma live_total_delete (m : Accounting.AccountingAddrSpaceModel) (b sz : Z) :
  Accounting._va2sz m !! b = Some sz ->
  map_fold (fun _ sz acc => sz + acc) 0 (delete b (Accounting._va2sz m)) =
  live_total m - sz.
Proof.
  intros Hb. unfold live_total.
  rewrite (map_fold_delete_L _ 0 b sz (Accounting._va2sz m)); [lia | | exact Hb].
  intros; lia.
Qed.

Lemma accounting_allocd_total (m : Accounting.AccountingAddrSpaceModel) (b e : Z) :
  Accounting.allocd_size (Accounting.allocd m b e)
    - live_total (Accounting.allocd m b e) =
  Accounting.allocd_size m - live_total m + clobbered_at m b.
Proof.
  unfold live_total at 1. unfold Accounting.allocd.
  cbn [Accounting.allocd_size Accounting._va2sz].
  rewrite live_total_insert. lia.
Qed.

Lemma accounting_freed_total (m : Accounting.AccountingAddrSpaceModel) (b : Z) :
  Accounting.allocd_size (Accounting.freed m b) - live_total (Accounting.freed m b) =
  Accounting.allocd_size m - live_total m.
Proof.
  unfold Accounting.freed.
  destruct (Accounting._va2sz m !! b) as [sz|] eqn:Hb; [|reflexivity].
  unfold live_total at 1. cbn [Accounting.allocd_size Accounting._va2sz].
  rewrite (live_total_delete m b sz Hb). lia.
Qed.

Lemma acc_run_total (evs : list AccEvent) :
  forall m,
    Accounting.allocd_size (acc_run m evs) - live_total (acc_run m evs) =
    Accounting.allocd_size m - live_total m + clobbered m evs.
Proof.
  unfold acc_run.
  induction evs as [|ev evs IH]; intros m; cbn [fold_left clobbered]; [lia|].
  rewrite IH.
  destruct ev as [b e|b e|b e|b|ob nb ne]; cbn [acc_apply].
  - unfold Accounting.mapd, live_total. cbn. lia.
  - unfold Accounting.unmapd, live_total. cbn. lia.
  - rewrite accounting_allocd_total. lia.
  - rewrite accounting_freed_total. lia.
  - unfold Accounting.reallocd.
    rewrite accounting_allocd_total, accounting_freed_total. lia.
Qed.

Lemma starts_fresh_clobbered (evs : list AccEvent) :
  forall m, starts_fresh m evs = true -> clobbered m evs = 0.
Proof.
  induction evs as [|ev evs IH]; intros m; cbn [starts_fresh clobbered];
    [reflexivity|].
  intros H. apply andb_true_iff in H. destruct H as [H1 H2].
  rewrite (IH _ H2).
  destruct ev as [b e|b e|b e|b|ob nb ne]; try reflexivity; unfold clobbered_at.
  - destruct (Accounting._va2sz m !! b); [discriminate | reflexivity].
  - destruct (Accounting._va2sz (Accounting.freed m ob) !! nb);
      [discriminate | reflexivity].
Qed.

(** X7.  In the fast accounting model, after any trace replayed on a
    fresh model, [allocd_size] is the sum of the sizes recorded in the
    table [_va2sz] plus every size that an allocation overwrote there
    by starting at an address whose allocation was still recorded:
    [allocd] adds the new size without taking the old one off, and no
    later [freed] does.  On a trace where no allocation starts at a
    recorded address the counter is exactly the sum of the recorded
    sizes. *)
Theorem accounting_allocd_size_exact (evs : list AccEvent) :
  let m := acc_run Accounting.init evs in
  Accounting.allocd_size m = live_total m + clobbered Accounting.init evs /\
  (starts_fresh Accounting.init evs = true ->
   Accounting.allocd_size m = live_total m).
Proof.
  cbv zeta. pose proof (acc_run_total evs Accounting.init) as H.
  change (Accounting.allocd_size Accounting.init) with 0 in H.
  change (live_total Accounting.init) with 0 in H.
  split; [lia|]. intros Hf. rewrite (starts_fresh_clobbered _ _ Hf) in H. lia.
Qed.

Lemma accounting_allocd_size_exact_witness :
  starts_fresh Accounting.init
    [AccAllocd 0 16; AccAllocd 32 64; AccReallocd 0 64 80; AccFreed 32] = true /\
  Accounting.allocd_size
    (acc_run Accounting.init
       [AccAllocd 0 16; AccAllocd 32 64; AccReallocd 0 64 80; AccFreed 32]) =
  live_total
    (acc_run Accounting.init
       [AccAllocd 0 16; AccAllocd 32 64; AccReallocd 0 64 80; AccFreed 32]).
Proof.
  assert (H : starts_fresh Accounting.init
                [AccAllocd 0 16; AccAllocd 32 64; AccReallocd 0 64 80; AccFreed 32]
              = true) by (vm_compute; reflexivity).
  split; [exact H|].
  exact (proj2 (accounting_allocd_size_exact _) H).
Defined.

(** X8.  In the fast accounting model, allocating at an address and
    freeing it again gives back the model as it was when the address
    had no allocation recorded: both totals and the table.  When one was
    recorded, the pair removes its entry but leaves [allocd_size] as it
    was, so the size of the allocation that was recorded stays counted
    with no entry left to take it off. *)
Theorem accounting_alloc_free_round_trip
    (m : Accounting.AccountingAddrSpaceModel) (b e : Z) :
  (Accounting._va2sz m !! b = None ->
   Accounting.freed (Accounting.allocd m b e) b = m) /\
  (forall sz, Accounting._va2sz m !! b = Some sz ->
     Accounting.allocd_size (Accounting.freed (Accounting.allocd m b e) b) =
       Accounting.allocd_size m /\
     Accounting.mapd_size (Accounting.freed (Accounting.allocd m b e) b) =
       Accounting.mapd_size m /\
     Accounting._va2sz (Accounting.freed (Accounting.allocd m b e) b) =
       delete b (Accounting._va2sz m) /\
     live_total (Accounting.freed (Accounting.allocd m b e) b) =
       live_total m - sz).
Proof.
  assert (E : Accounting.freed (Accounting.allocd m b e) b =
              {| Accounting.mapd_size := Accounting.mapd_size m;
                 Accounting.allocd_size := Accounting.allocd_size m + (e - b) - (e - b);
                 Accounting._va2sz := delete b (Accounting._va2sz m) |}).
  { unfold Accounting.freed, Accounting.allocd.
    cbn [Accounting._va2sz Accounting.allocd_size Accounting.mapd_size].
    rewrite lookup_insert_eq, delete_insert_eq. reflexivity. }
  split.
  - intros Hb. rewrite E, (delete_id _ _ Hb). destruct m as [ms al t].
    cbn [Accounting.mapd_size Accounting.allocd_size Accounting._va2sz].
    f_equal. lia.
  - intros sz Hb. rewrite E.
    cbn [Accounting.allocd_size Accounting.mapd_size Accounting._va2sz].
    split; [lia|]. split; [reflexivity|]. split; [reflexivity|].
    unfold live_total at 1. cbn [Accounting._va2sz].
    apply (live_total_delete m b sz Hb).
Qed.

Lemma accounting_alloc_free_round_trip_witness :
  (Accounting._va2sz (Accounting.allocd Accounting.init 0 16) !! 32 = None /\
   Accounting.freed
     (Accounting.allocd (Accounting.allocd Accounting.init 0 16) 32 64) 32 =
   Accounting.allocd Accounting.init 0 16) /\
  (Accounting._va2sz (Accounting.allocd Accounting.init 0 16) !! 0 = Some 16 /\
   Accounting.allocd_size
     (Accounting.freed
        (Accounting.allocd (Accounting.allocd Accounting.init 0 16) 0 8) 0) =
   Accounting.allocd_size (Accounting.allocd Accounting.init 0 16)).
Proof.
  assert (H : Accounting._va2sz (Accounting.allocd Accounting.init 0 16) !! 32
              = None) by (vm_compute; reflexivity).
  assert (H' : Accounting._va2sz (Accounting.allocd Accounting.init 0 16) !! 0
               = Some 16) by (vm_compute; reflexivity).
  split; (split; [assumption|]).
  - exact (proj1 (accounting_alloc_free_round_trip _ 32 64) H).
  - exact (proj1 (proj2 (accounting_alloc_free_round_trip _ 0 8) 16 H')).
Defined.

(** ** The allocation-map renderer *)

Lemma py_range_pos (start step : Z) (n : nat) (stop : Z) :
  0 < step ->
  start + (Z.of_nat n - 1) * step < stop <= start + Z.of_nat n * step ->
  py_range start stop step =
  Ok (List.map (fun k => start + Z.of_nat k * step) (seq 0 n)).
Proof.
  intros Hs H. unfold py_range.
  destruct (Z.eqb_spec step 0); [lia|].
  destruct (Z.ltb_spec 0 step); [|lia].
  replace (Z.to_nat ((stop - start + step - 1) / step)) with n; [reflexivity|].
  assert ((stop - start + step - 1) / step = Z.of_nat n); [|lia].
  symmetry. apply Z.div_unique with (r := stop - start + step - 1 - step * Z.of_nat n).
  - left. nia.
  - lia.
Qed.

Lemma zip_longest_nil_r (l : list Z) (fill : Z) :
  zip_longest l [] fill = List.map (fun x => (x, fill)) l.
Proof. induction l as [|x l IH]; [reflexivity|]. simpl. now rewrite IH. Qed.

Lemma zip_longest_tl (f : nat -> Z) (n : nat) (fill : Z) :
  forall s,
    f (s + n)%nat = fill ->
    zip_longest (List.map f (seq s n)) (tl (List.map f (seq s n))) fill =
    List.map (fun k => (f k, f (S k))) (seq s n).
Proof.
  induction n as [|n IH]; intros s Hf; [reflexivity|].
  cbn [seq List.map tl].
  destruct n as [|n].
  - cbn. replace (S s) with (s + 1)%nat by lia. now rewrite Hf.
  - specialize (IH (S s)). cbn [seq List.map tl] in IH |- *.
    cbn [zip_longest]. f_equal. apply IH.
    rewrite <- Hf. f_equal. lia.
Qed.

Lemma chunk_offset_step (psize : Z) (k : Z) :
  chunk_offset psize (k + 1) - chunk_offset psize k =
  psize / 60 + (if k <? psize mod 60 then 1 else 0).
Proof.
  unfold chunk_offset, POOL_MAP_RESOLUTION_IN_SYMBOLS.
  destruct (Z.ltb_spec k (psize mod 60)); lia.
Qed.

Lemma seq_add_map (b : nat) :
  forall s a, seq (a + s) b = List.map (Nat.add a) (seq s b).
Proof.
  induction b as [|b IH]; intros s a; [reflexivity|].
  cbn [seq List.map]. f_equal. rewrite <- IH. f_equal. lia.
Qed.

Lemma map_seq_app (f g h : nat -> Z) (a b : nat) :
  (forall k, (k < a)%nat -> f k = h k) ->
  (forall k, (k < b)%nat -> g k = h (a + k)%nat) ->
  List.map f (seq 0 a) ++ List.map g (seq 0 b) = List.map h (seq 0 (a + b)).
Proof.
  intros Hf Hg. rewrite seq_app, List.map_app. f_equal.
  - apply map_ext_in. intros k Hk. apply in_seq in Hk. apply Hf. lia.
  - rewrite Nat.add_0_l, <- (Nat.add_0_r a) at 1.
    rewrite seq_add_map, List.map_map.
    apply map_ext_in. intros k Hk. apply in_seq in Hk. apply Hg. lia.
Qed.

Lemma chunk_bounds_wide (p : AddrIval) :
  60 <= end_ p - begin p ->
  chunk_bounds p =
  Ok ((end_ p - begin p) / 60,
      List.map (fun k => (begin p + chunk_offset (end_ p - begin p) (Z.of_nat k),
                          begin p + chunk_offset (end_ p - begin p) (Z.of_nat (S k))))
        (seq 0 60)).
Proof.
  intros Hp. unfold chunk_bounds, POOL_MAP_RESOLUTION_IN_SYMBOLS.
  set (psize := end_ p - begin p) in *.
  pose proof (Z.div_mod psize 60 ltac:(lia)) as Hdm.
  pose proof (Z.mod_pos_bound psize 60 ltac:(lia)) as Hr.
  assert (Hoff : forall k, chunk_offset psize k = k * (psize / 60) + Z.min k (psize mod 60))
    by reflexivity.
  set (cs := psize / 60) in *. set (rem := psize mod 60) in *.
  assert (Hcs : 1 <= cs) by lia.
  destruct (Z.ltb_spec 0 cs); [|lia].
  rewrite (py_range_pos 0 (cs + 1) (Z.to_nat rem)) by nia.
  rewrite (py_range_pos (rem * (cs + 1)) cs (Z.to_nat (60 - rem))) by nia.
  cbn [rbind]. f_equal. f_equal.
  rewrite (map_seq_app _ _ (fun k => chunk_offset psize (Z.of_nat k))).
  - replace (Z.to_nat rem + Z.to_nat (60 - rem))%nat with 60%nat by lia.
    rewrite List.map_map.
    apply (zip_longest_tl (fun k => begin p + chunk_offset psize (Z.of_nat k))).
    rewrite Hoff. change (Z.of_nat (0 + 60)) with 60.
    assert (Hps : psize = end_ p - begin p) by reflexivity.
    clearbody cs rem psize. lia.
  - intros k Hk. rewrite Hoff. clearbody cs rem. lia.
  - intros k Hk. rewrite Hoff. clearbody cs rem.
    rewrite Nat2Z.inj_add, Z2Nat.id by lia. rewrite Z.min_r by lia. ring.
Qed.

Lemma chunk_bounds_narrow (p : AddrIval) :
  0 < end_ p - begin p < 60 ->
  chunk_bounds p = Ok (end_ p - begin p, [(begin p, end_ p)]).
Proof.
  intros Hp. unfold chunk_bounds, POOL_MAP_RESOLUTION_IN_SYMBOLS.
  set (psize := end_ p - begin p) in *.
  rewrite (Z.div_small psize 60) by lia.
  change (0 <? 0) with false. cbv iota.
  rewrite (py_range_pos 0 (psize + 1) 0) by lia.
  rewrite (py_range_pos (0 * (psize + 1)) psize 1) by lia.
  cbn. replace (begin p + (0 * (psize + 1) + Z.of_nat 0 * psize)) with (begin p) by (simpl; lia). reflexivity.
Qed.

Lemma chunk_bounds_empty (p : AddrIval) :
  end_ p - begin p = 0 -> chunk_bounds p = Raise ValueError.
Proof.
  intros Hp. unfold chunk_bounds, POOL_MAP_RESOLUTION_IN_SYMBOLS. rewrite Hp.
  reflexivity.
Qed.

Lemma chunk_state_length (w : World) (cb ce : Z) :
  String.length (_chunk_state w cb ce) = 1%nat.
Proof.
  unfold _chunk_state.
  destruct (nonempty _); [reflexivity|].
  destruct (forallb _ _); [reflexivity|].
  destruct (_ && _); reflexivity.
Qed.

Lemma string_length_append (s t : string) :
  String.length (s ++ t) = (String.length s + String.length t)%nat.
Proof. induction s as [|c s IH]; simpl; [reflexivity | now rewrite IH]. Qed.

Lemma concat_symbols_length (w : World) (l : list (Z * Z)) :
  String.length
    (String.concat "" (List.map (fun be => _chunk_state w (fst be) (snd be)) l)) =
  List.length l.
Proof.
  induction l as [|x l IH]; [reflexivity|].
  cbn [List.map String.concat].
  pose proof (chunk_state_length w (fst x) (snd x)) as H1.
  destruct (List.map _ l) as [|s r] eqn:E.
  - destruct l; [|discriminate]. simpl. exact H1.
  - rewrite !string_length_append, H1. cbn [String.length List.length] in *.
    rewrite IH. reflexivity.
Qed.

(** X9.  Where [AllocationMapOutput.update] cuts a pool into chunks: a
    pool of sixty bytes or more gets exactly sixty chunks, chunk [k]
    running from offset [k * (psize // 60) + min(k, psize % 60)] to the
    next such offset, so that the chunks are contiguous, start at the
    pool's begin, end at its end, and the first [psize % 60] of them are
    one byte longer than the others; its row has sixty symbols.  A pool
    of fewer than sixty bytes is drawn as one chunk, the whole pool, with
    one symbol.  An empty pool makes [range] raise [ValueError]. *)

Theorem pool_chunks_partition (w : World) (p : AddrIval) :
  let psize := end_ p - begin p in
  (60 <= psize ->
   chunk_bounds p =
     Ok (psize / 60,
         List.map (fun k => (begin p + chunk_offset psize (Z.of_nat k),
                             begin p + chunk_offset psize (Z.of_nat k + 1)))
           (seq 0 60)) /\
   chunk_offset psize 0 = 0 /\ chunk_offset psize 60 = psize /\
   (forall k, chunk_offset psize (k + 1) - chunk_offset psize k =
              psize / 60 + (if k <? psize mod 60 then 1 else 0)) /\
   exists symbols,
     pool_row w p = Ok (begin p, end_ p, symbols, psize / 60) /\
     String.length symbols = 60%nat) /\
  (0 < psize < 60 ->
   chunk_bounds p = Ok (psize, [(begin p, end_ p)]) /\
   pool_row w p =
     Ok (begin p, end_ p, _chunk_state w (begin p) (end_ p), psize)) /\
  (psize = 0 ->
   chunk_bounds p = Raise ValueError /\ pool_row w p = Raise ValueError).
Proof.
  cbv zeta. split; [|split].
  - intros Hp. pose proof (chunk_bounds_wide p Hp) as E.
    assert (E' : chunk_bounds p =
      Ok ((end_ p - begin p) / 60,
          List.map (fun k =>
             (begin p + chunk_offset (end_ p - begin p) (Z.of_nat k),
              begin p + chunk_offset (end_ p - begin p) (Z.of_nat k + 1)))
            (seq 0 60))).
    { rewrite E. f_equal; f_equal; apply map_ext; intros k;
        now rewrite Nat2Z.inj_succ. }
    split; [exact E'|].
    pose proof (Z.div_mod (end_ p - begin p) 60 ltac:(lia)) as Hdm.
    pose proof (Z.mod_pos_bound (end_ p - begin p) 60 ltac:(lia)) as Hr.
    split; [|split; [|split]].
    + unfold chunk_offset, POOL_MAP_RESOLUTION_IN_SYMBOLS. lia.
    + unfold chunk_offset, POOL_MAP_RESOLUTION_IN_SYMBOLS. lia.
    + apply chunk_offset_step.
    + unfold pool_row. rewrite E'. cbn [rbind fst snd].
      eexists. split; [reflexivity|].
      rewrite concat_symbols_length, length_map, length_seq. reflexivity.
  - intros Hp. pose proof (chunk_bounds_narrow p Hp) as E.
    split; [exact E|]. unfold pool_row. rewrite E. reflexivity.
  - intros Hp. pose proof (chunk_bounds_empty p Hp) as E.
    split; [exact E|]. unfold pool_row. rewrite E. reflexivity.
Qed.

Lemma StronglySorted_app {A : Type} (R : A -> A -> Prop) (l1 l2 : list A) :
  StronglySorted R l1 -> StronglySorted R l2 ->
  (forall x y, In x l1 -> In y l2 -> R x y) ->
  StronglySorted R (l1 ++ l2).
Proof.
  induction l1 as [|a l1 IH]; intros H1 H2 H; [exact H2|].
  inversion H1 as [|? ? Hs Hf]; subst. simpl. constructor.
  - apply IH; [assumption | assumption |]. intros x y Hx Hy. apply H; [now right | assumption].
  - apply Forall_app. split; [assumption|].
    apply Forall_forall. intros y Hy. apply H; [now left | assumption].
Qed.

Lemma StronglySorted_filter_keeps {A : Type} (R : A -> A -> Prop) (f : A -> bool)
    (l : list A) :
  StronglySorted R l -> StronglySorted R (List.filter f l).
Proof.
  induction 1 as [|a l Hs IH Hf]; simpl; [constructor|].
  destruct (f a); [|assumption]. constructor; [assumption|].
  apply Forall_forall. intros x Hx. apply filter_In in Hx.
  rewrite Forall_forall in Hf. apply Hf, Hx.
Qed.

Lemma In_imap_cut (m : IntervalMap) (b e : Z) (x : AddrIval) :
  In x (imap_cut m b e) ->
  exists i, In i m /\ begin i <= begin x /\ end_ x <= end_ i /\
            begin x < end_ x /\ (end_ x <= b \/ e <= begin x).
Proof.
  unfold imap_cut. intros Hx. apply in_flat_map in Hx. destruct Hx as [i [Hi Hx]].
  exists i. split; [assumption|].
  apply in_app_or in Hx. destruct Hx as [Hx|Hx].
  - destruct (Z.ltb_spec (begin i) (Z.min (end_ i) b)); [|contradiction].
    destruct Hx as [<-|[]]. simpl. lia.
  - destruct (Z.ltb_spec (Z.max (begin i) e) (end_ i)); [|contradiction].
    destruct Hx as [<-|[]]. simpl. lia.
Qed.

Lemma imap_cut_sorted (m : IntervalMap) (b e : Z) :
  b < e -> imap_sorted m -> StronglySorted touching (imap_cut m b e).
Proof.
  intros Hbe [Hs Hnn]. rewrite imap_nonnull_iff in Hnn.
  induction Hs as [|i m Hs IH Hf].
  - constructor.
  - change (imap_cut (i :: m) b e) with
      (((if begin i <? Z.min (end_ i) b
         then [mkIval (begin i) (Z.min (end_ i) b) (state i)] else []) ++
        (if Z.max (begin i) e <? end_ i
         then [mkIval (Z.max (begin i) e) (end_ i) (state i)] else [])) ++
       imap_cut m b e).
    apply StronglySorted_app.
    + destruct (_ <? _); destruct (_ <? _); simpl; repeat constructor.
      unfold touching. simpl. lia.
    + apply IH. intros j Hj. apply Hnn. now right.
    + intros x y Hx Hy.
      apply In_imap_cut in Hy. destruct Hy as (j & Hj & Hy1 & _).
      rewrite Forall_forall in Hf. specialize (Hf j Hj).
      unfold touching in *.
      assert (end_ x <= end_ i); [|lia].
      apply in_app_or in Hx. destruct Hx as [Hx|Hx].
      * destruct (_ <? _); [|contradiction]. destruct Hx as [<-|[]]. simpl. lia.
      * destruct (_ <? _); [|contradiction]. destruct Hx as [<-|[]]. simpl. lia.
Qed.

Lemma imap_insert_sorted (iv : AddrIval) (m : IntervalMap) :
  begin iv < end_ iv ->
  StronglySorted touching m ->
  (forall x, In x m ->
     begin x < end_ x /\ (end_ x <= begin iv \/ end_ iv <= begin x)) ->
  StronglySorted touching (imap_insert iv m).
Proof.
  intros Hiv Hs. induction Hs as [|i m Hs IH Hf]; intros Hout.
  - simpl. repeat constructor.
  - rewrite Forall_forall in Hf. cbn [imap_insert].
    destruct (Hout i (or_introl eq_refl)) as [Hi Hio].
    destruct (Z.leb_spec (begin iv) (begin i)).
    + constructor; [constructor; [assumption | now apply Forall_forall]|].
      apply Forall_forall. intros x [<-|Hx]; unfold touching.
      * lia.
      * specialize (Hf x Hx). unfold touching in Hf. lia.
    + constructor.
      * apply IH. intros x Hx. apply Hout. now right.
      * apply Forall_forall. intros x Hx. apply In_imap_insert in Hx.
        destruct Hx as [->|Hx]; [unfold touching; lia | apply Hf, Hx].
Qed.

Lemma In_imap_coalesce_begin (m : IntervalMap) (y : AddrIval) :
  In y (imap_coalesce m) -> exists x, In x m /\ begin x = begin y.
Proof.
  revert y. induction m as [|i m IH]; intros y; [intros []|].
  cbn [imap_coalesce].
  destruct (imap_coalesce m) as [|j r].
  - intros [<-|[]]. exists i. split; [now left | reflexivity].
  - assert (Hr : forall z, In z (j :: r) -> exists x, In x (i :: m) /\ begin x = begin z).
    { intros z Hz. destruct (IH z Hz) as (x & Hx & E). exists x. split; [now right | exact E]. }
    destruct (_ && _).
    + intros [<-|Hy].
      * exists i. split; [now left | reflexivity].
      * apply Hr. now right.
    + intros [<-|Hy].
      * exists i. split; [now left | reflexivity].
      * apply Hr, Hy.
Qed.

Lemma imap_coalesce_sorted (m : IntervalMap) :
  StronglySorted touching m -> StronglySorted touching (imap_coalesce m).
Proof.
  induction 1 as [|i m Hs IH Hf]; [constructor|].
  cbn [imap_coalesce].
  assert (Hfi : Forall (touching i) (imap_coalesce m)).
  { apply Forall_forall. intros y Hy.
    destruct (In_imap_coalesce_begin m y Hy) as (x & Hx & E).
    rewrite Forall_forall in Hf. specialize (Hf x Hx).
    unfold touching in *. lia. }
  destruct (imap_coalesce m) as [|j r]; [repeat constructor|].
  destruct (_ && _).
  - inversion IH as [|? ? Hsr Hfr]; subst. constructor; [assumption|].
    exact Hfr.
  - constructor; assumption.
Qed.

Lemma imap_add_sorted (m : IntervalMap) (iv : AddrIval) :
  imap_sorted m -> imap_sorted (imap_add m iv).
Proof.
  intros Hm. split; [|apply imap_add_nonnull, Hm].
  unfold imap_add, is_null.
  destruct (Z.leb_spec (end_ iv) (begin iv)); [apply Hm|].
  apply imap_coalesce_sorted, imap_insert_sorted; [lia | |].
  - apply imap_cut_sorted; [lia | exact Hm].
  - intros x Hx. apply In_imap_cut in Hx. destruct Hx as (_ & _ & _ & _ & H1 & H2).
    split; assumption.
Qed.

Lemma updates_sorted (a a' : AllocatorAddrSpaceModel) :
  updates a a' -> imap_sorted (__addr_ivals a) -> imap_sorted (__addr_ivals a').
Proof.
  induction 1 as [|a1 iv _ IH|a1 t _ IH]; intros H; [assumption| |apply IH, H].
  simpl. apply imap_add_sorted, IH, H.
Qed.

Lemma imap_sorted_init : imap_sorted (__addr_ivals AllocatorAddrSpaceModel_init).
Proof. split; [repeat constructor | reflexivity]. Qed.

Lemma sorted_touching_head (x y : AddrIval) (l : list AddrIval) :
  end_ x = end_ y -> Sorted touching (x :: l) -> Sorted touching (y :: l).
Proof.
  intros E H. inversion H as [|? ? Hs Hh]; subst. constructor; [assumption|].
  inversion Hh; subst; constructor. unfold touching in *. lia.
Qed.

Lemma pools_from_raise (ivals : list AddrIval) :
  forall pb pe,
    ~ Sorted touching (mkIval pb pe None :: ivals) ->
    pools_from pb pe ivals = Raise AssertionError.
Proof.
  induction ivals as [|i r IH]; intros pb pe Hn.
  - exfalso. apply Hn. repeat constructor.
  - cbn [pools_from].
    destruct (Z.leb_spec pe (begin i)) as [Hle|Hgt].
    + assert (Hn' : forall b, ~ Sorted touching (mkIval b (end_ i) None :: r)).
      { intros b Hs. apply Hn. constructor.
        - apply (sorted_touching_head (mkIval b (end_ i) None)); [reflexivity|assumption].
        - constructor. exact Hle. }
      destruct (_ <? _).
      * apply IH, Hn'.
      * rewrite (IH _ _ (Hn' (begin i))). reflexivity.
    + destruct (Z.ltb_spec (begin i - pe) POOL_MAX_ARTIFICIAL_GROWTH) as [|Hw];
        [reflexivity|].
      unfold POOL_MAX_ARTIFICIAL_GROWTH in Hw. lia.
Qed.

Lemma pools_from_spec (ivals : list AddrIval) :
  forall pb pe,
    pb < pe ->
    Sorted touching (mkIval pb pe None :: ivals) ->
    Forall (fun i => begin i < end_ i) ivals ->
    exists P0 rest,
      pools_from pb pe ivals = Ok (P0 :: rest) /\
      begin P0 = pb /\ pe <= end_ P0 /\ state P0 = None /\
      (end_ P0 = pe \/ exists j, In j ivals /\ end_ j = end_ P0) /\
      (forall i, In i ivals ->
         exists P, In P (P0 :: rest) /\ begin P <= begin i /\ end_ i <= end_ P) /\
      Sorted far_apart (P0 :: rest) /\
      (forall P, In P rest ->
         state P = None /\ begin P < end_ P /\
         (exists i, In i ivals /\ begin i = begin P) /\
         (exists j, In j ivals /\ end_ j = end_ P)) /\
      List.length (P0 :: rest) = S (wide_gaps pe ivals).
Proof.
  induction ivals as [|i r IH]; intros pb pe Hlt Hs Hnn.
  - exists (mkIval pb pe None), []. cbn [pools_from begin end_ state wide_gaps].
    split; [reflexivity|]. split; [reflexivity|]. split; [lia|].
    split; [reflexivity|]. split; [now left|].
    split; [intros i []|]. split; [repeat constructor|].
    split; [intros P []|reflexivity].
  - inversion Hs as [|? ? Hs' Hh]; subst. inversion Hh as [|? ? Hle]; subst.
    unfold touching in Hle. cbn [end_ begin] in Hle.
    inversion Hnn as [|? ? Hi Hnn']; subst.
    cbn [pools_from wide_gaps].
    destruct (Z.leb_spec pe (begin i)); [|lia].
    destruct (Z.ltb_spec (begin i - pe) POOL_MAX_ARTIFICIAL_GROWTH) as [Hg|Hg].
    + assert (Hpb : pb < end_ i) by lia.
      destruct (IH pb (end_ i) Hpb
                  (sorted_touching_head i (mkIval pb (end_ i) None) r eq_refl Hs') Hnn')
        as (P0 & rest & E & Hb & He & Hst & Hend & Hcov & Hfar & Hrest & Hlen).
      exists P0, rest. rewrite E.
      split; [reflexivity|]. split; [exact Hb|]. split; [lia|].
      split; [exact Hst|]. split; [|split; [|split; [|split]]].
      * right. destruct Hend as [Hend|(j & Hj & Hend)].
        -- exists i. split; [now left | now symmetry].
        -- exists j. split; [now right | exact Hend].
      * intros x [<-|Hx].
        -- exists P0. split; [now left|]. lia.
        -- apply Hcov, Hx.
      * exact Hfar.
      * intros P HP. destruct (Hrest P HP) as (H1 & H2 & (x & Hx & H3) & (y & Hy & H4)).
        split; [exact H1|]. split; [exact H2|].
        split; [exists x | exists y]; (split; [now right | assumption]).
      * exact Hlen.
    + destruct (IH (begin i) (end_ i) Hi
                  (sorted_touching_head i (mkIval (begin i) (end_ i) None) r
                     eq_refl Hs') Hnn')
        as (P0 & rest & E & Hb & He & Hst & Hend & Hcov & Hfar & Hrest & Hlen).
      exists (mkIval pb pe None), (P0 :: rest). rewrite E. cbn [rbind begin end_ state].
      split; [reflexivity|]. split; [reflexivity|]. split; [lia|].
      split; [reflexivity|]. split; [now left|].
      split; [|split; [|split]].
      * intros x [<-|Hx].
        -- exists P0. split; [right; now left|]. lia.
        -- destruct (Hcov x Hx) as (P & HP & H1). exists P. split; [now right | exact H1].
      * constructor; [exact Hfar|]. constructor.
        unfold far_apart. cbn [end_]. lia.
      * intros P [<-|HP].
        -- split; [exact Hst|]. split; [lia|]. split.
           ++ exists i. split; [now left | now symmetry].
           ++ destruct Hend as [Hend|(j & Hj & Hend)].
              ** exists i. split; [now left | now symmetry].
              ** exists j. split; [now right | exact Hend].
        -- destruct (Hrest P HP) as (H1 & H2 & (x & Hx & H3) & (y & Hy & H4)).
           split; [exact H1|]. split; [exact H2|].
           split; [exists x | exists y]; (split; [now right | assumption]).
      * cbn [List.length] in *. lia.
Qed.

Lemma pool_chunks_partition_witness :
  chunk_bounds (mkIval 4096 4219 None) =
    Ok (2, List.map (fun k => (4096 + chunk_offset 123 (Z.of_nat k),
                               4096 + chunk_offset 123 (Z.of_nat k + 1)))
             (seq 0 60)) /\
  chunk_bounds (mkIval 4096 4155 None) = Ok (59, [(4096, 4155)]) /\
  chunk_bounds (mkIval 4096 4096 None) = Raise ValueError.
Proof.
  pose proof (pool_chunks_partition (World_init 0) (mkIval 4096 4219 None)) as H1.
  pose proof (pool_chunks_partition (World_init 0) (mkIval 4096 4155 None)) as H2.
  pose proof (pool_chunks_partition (World_init 0) (mkIval 4096 4096 None)) as H3.
  cbv zeta in H1, H2, H3. cbn [begin end_] in H1, H2, H3.
  split; [|split].
  - apply (proj1 H1). lia.
  - apply (proj1 (proj2 H2)). lia.
  - apply (proj2 (proj2 H3)). lia.
Defined.

(** X10.  How [_get_memory_pools] groups a list of intervals.  If some
    interval begins before its predecessor ends, the call fails its
    assertion.  Otherwise, the intervals being non-empty, it returns
    pools in ascending order such that every interval lies within a
    pool, any pool begins at least 4096 bytes after the previous one
    ends, every pool is non-empty, carries no state, begins where one of
    the intervals begins and ends where one ends, and there is one pool
    more than there are gaps of 4096 bytes or more between neighbouring
    intervals. *)
Theorem memory_pools_groups (ivals : list AddrIval) :
  (~ Sorted touching ivals -> memory_pools ivals = Raise AssertionError) /\
  (Sorted touching ivals ->
   Forall (fun i => begin i < end_ i) ivals ->
   exists pools,
     memory_pools ivals = Ok pools /\
     (forall i, In i ivals ->
        exists P, In P pools /\ begin P <= begin i /\ end_ i <= end_ P) /\
     Sorted far_apart pools /\
     (forall P, In P pools ->
        state P = None /\ begin P < end_ P /\
        (exists i, In i ivals /\ begin i = begin P) /\
        (exists j, In j ivals /\ end_ j = end_ P)) /\
     List.length pools =
       match ivals with
       | [] => 0%nat
       | i :: rest => S (wide_gaps (end_ i) rest)
       end).
Proof.
  split.
  - destruct ivals as [|i r]; intros Hn.
    + exfalso. apply Hn. constructor.
    + cbn [memory_pools]. apply pools_from_raise. intros Hs. apply Hn.
      apply (sorted_touching_head (mkIval (begin i) (end_ i) None)); [reflexivity|].
      exact Hs.
  - destruct ivals as [|i r]; intros Hs Hnn.
    + exists []. cbn [memory_pools List.length].
      split; [reflexivity|]. split; [intros i []|].
      split; [constructor|]. split; [intros P []|reflexivity].
    + inversion Hnn as [|? ? Hi Hnn']; subst.
      destruct (pools_from_spec r (begin i) (end_ i) Hi
                  (sorted_touching_head i (mkIval (begin i) (end_ i) None) r
                     eq_refl Hs) Hnn')
        as (P0 & rest & E & Hb & He & Hst & Hend & Hcov & Hfar & Hrest & Hlen).
      exists (P0 :: rest). cbn [memory_pools].
      split; [exact E|]. split; [|split; [exact Hfar|split; [|exact Hlen]]].
      * intros x [<-|Hx].
        -- exists P0. split; [now left|]. lia.
        -- apply Hcov, Hx.
      * intros P [<-|HP].
        -- split; [exact Hst|]. split; [lia|]. split.
           ++ exists i. split; [now left | now symmetry].
           ++ destruct Hend as [Hend|(j & Hj & Hend)].
              ** exists i. split; [now left | now symmetry].
              ** exists j. split; [now right | exact Hend].
        -- destruct (Hrest P HP) as (H1 & H2 & (x & Hx & H3) & (y & Hy & H4)).
           split; [exact H1|]. split; [exact H2|].
           split; [exists x | exists y]; (split; [now right | assumption]).
Qed.

Lemma memory_pools_groups_witness :
  (~ Sorted touching [mkIval 0 16 (Some ALLOCD); mkIval 8 32 (Some FREED)] /\
   memory_pools [mkIval 0 16 (Some ALLOCD); mkIval 8 32 (Some FREED)] =
     Raise AssertionError) /\
  (Sorted touching
     [mkIval 0 16 (Some ALLOCD); mkIval 16 32 (Some FREED);
      mkIval 8192 8200 (Some ALLOCD)] /\
   Forall (fun i => begin i < end_ i)
     [mkIval 0 16 (Some ALLOCD); mkIval 16 32 (Some FREED);
      mkIval 8192 8200 (Some ALLOCD)] /\
   exists pools,
     memory_pools
       [mkIval 0 16 (Some ALLOCD); mkIval 16 32 (Some FREED);
        mkIval 8192 8200 (Some ALLOCD)] = Ok pools /\
     List.length pools = 2%nat).
Proof.
  split.
  - assert (H : ~ Sorted touching
                    [mkIval 0 16 (Some ALLOCD); mkIval 8 32 (Some FREED)]).
    { intros H. inversion H as [|? ? _ Hh]; subst.
      inversion Hh as [|? ? Ht]; subst. unfold touching in Ht. simpl in Ht. lia. }
    split; [exact H|]. exact (proj1 (memory_pools_groups _) H).
  - assert (Hs : Sorted touching
                   [mkIval 0 16 (Some ALLOCD); mkIval 16 32 (Some FREED);
                    mkIval 8192 8200 (Some ALLOCD)]).
    { repeat constructor; unfold touching; simpl; lia. }
    assert (Hn : Forall (fun i => begin i < end_ i)
                   [mkIval 0 16 (Some ALLOCD); mkIval 16 32 (Some FREED);
                    mkIval 8192 8200 (Some ALLOCD)]).
    { repeat constructor; simpl; lia. }
    split; [exact Hs|]. split; [exact Hn|].
    destruct (proj2 (memory_pools_groups _) Hs Hn) as (pools & E & _ & _ & _ & Hl).
    exists pools. split; [exact E | exact Hl].
Defined.

Lemma pool_row_wide (w : World) (p : AddrIval) :
  60 <= end_ p - begin p ->
  exists symbols,
    pool_row w p = Ok (begin p, end_ p, symbols, (end_ p - begin p) / 60) /\
    String.length symbols = 60%nat.
Proof.
  intros Hp. unfold pool_row. rewrite (chunk_bounds_wide p Hp).
  cbn [rbind fst snd]. eexists. split; [reflexivity|].
  rewrite concat_symbols_length, length_map, length_seq. reflexivity.
Qed.

Lemma pool_row_narrow (w : World) (p : AddrIval) :
  0 < end_ p - begin p < 60 ->
  pool_row w p =
  Ok (begin p, end_ p, _chunk_state w (begin p) (end_ p), end_ p - begin p).
Proof.
  intros Hp. unfold pool_row. rewrite (chunk_bounds_narrow p Hp). reflexivity.
Qed.

Lemma pool_rows_spec (w : World) (pools : list AddrIval) :
  Forall (fun p => begin p < end_ p) pools ->
  exists rows, pool_rows w pools = Ok rows /\ Forall2 row_of_pool pools rows.
Proof.
  induction 1 as [|p pools Hp _ IH].
  - exists []. split; [reflexivity | constructor].
  - destruct IH as (rows & E & Hrows). cbn [pool_rows]. rewrite E.
    destruct (Z_lt_le_dec (end_ p - begin p) 60) as [Hn|Hw].
    + assert (Hpn : 0 < end_ p - begin p < 60) by lia.
      rewrite (pool_row_narrow w p Hpn). cbn [rbind].
      eexists. split; [reflexivity|].
      constructor; [|exact Hrows].
      eexists _, _. split; [reflexivity|]. right.
      split; [lia|]. split; [apply chunk_state_length | reflexivity].
    + destruct (pool_row_wide w p Hw) as (symbols & Er & Hl).
      rewrite Er. cbn [rbind]. eexists. split; [reflexivity|].
      constructor; [|exact Hrows].
      eexists _, _. split; [reflexivity|]. left.
      split; [lia|]. split; [exact Hl | reflexivity].
Qed.

Lemma memory_pools_sorted (m : list AddrIval) (f : AddrIval -> bool) :
  imap_sorted m ->
  exists pools,
    memory_pools (List.filter f m) = Ok pools /\
    Sorted far_apart pools /\
    Forall (fun p => begin p < end_ p) pools /\
    (forall i, In i m -> f i = true ->
       exists P, In P pools /\ begin P <= begin i /\ end_ i <= end_ P).
Proof.
  intros [Hs Hnn].
  assert (Hs' : Sorted touching (List.filter f m)).
  { apply StronglySorted_Sorted, StronglySorted_filter_keeps, Hs. }
  assert (Hn' : Forall (fun i => begin i < end_ i) (List.filter f m)).
  { apply Forall_forall. intros i Hi. apply filter_In in Hi.
    apply (proj1 (imap_nonnull_iff m) Hnn), Hi. }
  clear Hs Hnn. revert Hs' Hn'.
  assert (Hin : forall i, In i m -> f i = true -> In i (List.filter f m)).
  { intros i Hi Hf. apply filter_In. split; assumption. }
  revert Hin. generalize (List.filter f m). intros l Hin Hs Hn.
  destruct l as [|i r].
  - exists []. split; [reflexivity|]. split; [constructor|].
    split; [constructor|]. intros i Hi Hf. destruct (Hin i Hi Hf).
  - inversion Hn as [|? ? Hi Hnr]; subst.
    destruct (pools_from_spec r (begin i) (end_ i) Hi
                (sorted_touching_head i (mkIval (begin i) (end_ i) None) r
                   eq_refl Hs) Hnr)
      as (P0 & rest & E & Hb & He & Hst & Hend & Hcov & Hfar & Hrest & Hlen).
    exists (P0 :: rest). cbn [memory_pools].
    split; [exact E|]. split; [exact Hfar|]. split.
    + constructor; [lia|]. apply Forall_forall. intros P HP. apply (Hrest P HP).
    + intros x Hx Hf. destruct (Hin x Hx Hf) as [<-|Hxr].
      * exists P0. split; [now left|]. lia.
      * apply Hcov, Hxr.
Qed.

(** X11.  After any sequence of allocator events on a fresh model, with
    any of the program's subscribers registered and whatever the buffer
    of reused ranges holds, the body of [AllocationMapOutput.update]
    runs through: the pool assertion holds, no chunk range is
    ill-formed.  It prints one row for each pool, sixty symbols for a
    pool of sixty bytes or more and one symbol for a smaller one, the
    pools being non-empty, in ascending order and at least 4096 bytes
    apart; every interval of the map with a state other than UNMAPD lies
    within a pool; and it leaves the buffer of reused ranges empty and
    the allocator model untouched. *)
Theorem map_output_update_succeeds (ks : list SubscriberKind)
    (capacity : Z) (evs : list Event) (w : World) :
  apply_events (List.map subscriber_of ks) (World_init capacity) evs = Ok w ->
  forall w2, alloc_state w2 = alloc_state w ->
  exists pools rows w',
    _get_memory_pools (alloc_state w) = Ok pools /\
    AllocationMapOutput_update w2 = Ok (rows, w') /\
    Forall2 row_of_pool pools rows /\
    Sorted far_apart pools /\
    Forall (fun p => begin p < end_ p) pools /\
    (forall i st, In i (__addr_ivals (alloc_state w)) ->
       state i = Some st -> st <> UNMAPD ->
       exists P, In P pools /\ begin P <= begin i /\ end_ i <= end_ P) /\
    _addr_ivals_reused w' = [] /\
    alloc_state w' = alloc_state w /\
    revoker w' = revoker w2 /\ addr_space_size w' = addr_space_size w2.
Proof.
  intros H w2 Hw2. apply apply_events_updates in H.
  apply updates_sorted in H; [|exact imap_sorted_init].
  pose proof H as Hsorted.
  set (keep := fun i : AddrIval =>
         match state i with Some _ => true | None => false end &&
         negb (state_is UNMAPD i)).
  assert (Hf : forall m : list AddrIval,
            List.filter (fun i => negb (state_is UNMAPD i))
              (List.filter
                 (fun i => match state i with Some _ => true | None => false end)
                 m) =
            List.filter keep m).
  { induction m as [|i m IH]; [reflexivity|].
    cbn [List.filter]. unfold keep at 1.
    destruct (state i) as [s|]; cbn [andb List.filter]; [|exact IH].
    destruct (negb _); [f_equal|]; exact IH. }
  destruct (memory_pools_sorted _ keep Hsorted) as (pools & E & Hfar & Hnn & Hcov).
  destruct (pool_rows_spec w2 pools Hnn) as (rows & Er & Hrows).
  exists pools, rows. eexists.
  assert (Ep : _get_memory_pools (alloc_state w) = Ok pools).
  { unfold _get_memory_pools, addr_ivals_coalesced_sorted. rewrite Hf. exact E. }
  split; [exact Ep|]. split.
  { unfold AllocationMapOutput_update. rewrite Hw2, Ep. cbn [rbind].
    rewrite Er. cbn [rbind]. reflexivity. }
  split; [exact Hrows|]. split; [exact Hfar|]. split; [exact Hnn|].
  split; [|cbn [_addr_ivals_reused alloc_state revoker addr_space_size]; auto].
  intros i st Hi Hst Hne. apply (Hcov i Hi). unfold keep, state_is.
  rewrite Hst. cbn [andb]. destruct st; try reflexivity. contradiction.
Qed.

Lemma map_output_update_succeeds_witness :
  exists w pools rows w',
    apply_events (List.map subscriber_of [Naive]) (World_init 10)
      [EvOp (OpAllocd 0 16); EvOp (OpAllocd 16 64); EvOp (OpFreed 16);
       EvOp (OpAllocd 8192 8400)] = Ok w /\
    _get_memory_pools (alloc_state w) = Ok pools /\
    AllocationMapOutput_update w = Ok (rows, w') /\
    Forall2 row_of_pool pools rows.
Proof.
  assert (E : exists w,
            apply_events (List.map subscriber_of [Naive]) (World_init 10)
              [EvOp (OpAllocd 0 16); EvOp (OpAllocd 16 64); EvOp (OpFreed 16);
               EvOp (OpAllocd 8192 8400)] = Ok w)
    by (eexists; vm_compute; reflexivity).
  destruct E as [w E].
  destruct (map_output_update_succeeds [Naive] 10 _ w E w eq_refl)
    as (pools & rows & w' & H1 & H2 & H3 & _).
  exists w, pools, rows, w'.
  split; [exact E|]. split; [exact H1|]. split; [exact H2 | exact H3].
Defined.

(** ** The rate limiter of the outputs *)

Lemma rate_limited_meth_spec (period last t : Z) :
  (fst (rate_limited_meth period last t) = true /\
   snd (rate_limited_meth period last t) = t /\
   (last = 0 \/ period < t - last)) \/
  (fst (rate_limited_meth period last t) = false /\
   snd (rate_limited_meth period last t) = last /\
   last <> 0 /\ t - last <= period).
Proof.
  unfold rate_limited_meth.
  destruct (Z.eqb_spec last 0); cbn [orb fst snd]; [left; auto|].
  destruct (Z.ltb_spec period (t - last)); cbn [fst snd]; [left | right]; auto.
Qed.

Lemma rate_limited_runs_head (period : Z) (ts : list Z) :
  forall last h r,
    rate_limited_runs period last ts = h :: r ->
    (last = 0 \/ period < h - last) /\
    exists ts', r = rate_limited_runs period h ts'.
Proof.
  induction ts as [|t ts IH]; intros last h r; cbn [rate_limited_runs];
    [discriminate|].
  destruct (rate_limited_meth_spec period last t)
    as [(E1 & E2 & Hc)|(E1 & E2 & Hc)]; rewrite E1, E2.
  - intros H. injection H as <- <-. split; [exact Hc|]. now exists ts.
  - apply IH.
Qed.

Lemma rate_limited_runs_adjacent (period : Z) (l1 : list Z) :
  forall last ts t1 t2 l2,
    rate_limited_runs period last ts = l1 ++ t1 :: t2 :: l2 ->
    t1 = 0 \/ period < t2 - t1.
Proof.
  induction l1 as [|x l1 IH]; intros last ts t1 t2 l2 H; cbn [app] in H.
  - destruct (rate_limited_runs_head _ _ _ _ _ H) as [_ [ts' E]].
    symmetry in E. apply (rate_limited_runs_head _ _ _ _ _ E).
  - destruct (rate_limited_runs_head _ _ _ _ _ H) as [_ [ts' E]].
    symmetry in E. apply (IH _ _ _ _ _ E).
Qed.

(** X12.  A method wrapped by [rate_limited_runms] runs on its first
    call, whatever the timestamp; of two successive runs the later one
    is more than the period after the earlier one, unless the earlier
    one was at timestamp 0; and as long as the timestamp is 0 every call
    runs, a run at timestamp 0 not being remembered. *)
Theorem rate_limited_runs_spaced (call_period_ms : Z) (timestamps : list Z) :
  (forall t ts, timestamps = t :: ts ->
     exists runs, rate_limited_runs call_period_ms 0 timestamps = t :: runs) /\
  (forall l1 t1 t2 l2,
     rate_limited_runs call_period_ms 0 timestamps = l1 ++ t1 :: t2 :: l2 ->
     t1 = 0 \/ call_period_ms < t2 - t1) /\
  (Forall (fun t => t = 0) timestamps ->
   rate_limited_runs call_period_ms 0 timestamps = timestamps).
Proof.
  split; [|split].
  - intros t ts ->. cbn [rate_limited_runs]. eexists. reflexivity.
  - intros l1 t1 t2 l2. apply rate_limited_runs_adjacent.
  - induction 1 as [|t ts Ht _ IH]; [reflexivity|].
    subst t. cbn [rate_limited_runs]. unfold rate_limited_meth.
    cbn [Z.eqb orb fst snd]. now rewrite IH.
Qed.

Lemma rate_limited_runs_spaced_witness :
  rate_limited_runs 100 0 [5; 60; 105; 106; 300] = [] ++ 5 :: 106 :: [300] /\
  (5 = 0 \/ 100 < 106 - 5) /\
  rate_limited_runs 100 0 [0; 0; 0] = [0; 0; 0].
Proof.
  assert (E : rate_limited_runs 100 0 [5; 60; 105; 106; 300] =
              [] ++ 5 :: 106 :: [300]) by (vm_compute; reflexivity).
  split; [exact E|]. split.
  - exact (proj1 (proj2 (rate_limited_runs_spaced 100 _)) [] 5 106 [300] E).
  - apply (proj2 (proj2 (rate_limited_runs_spaced 100 [0; 0; 0]))).
    repeat constructor.
Defined.

(** ** The mapped-bytes total *)

Lemma bytes_in_from (st : AddrIvalState) (m : IntervalMap) (c lo hi : Z) :
  Forall (fun i => c <= begin i) m ->
  bytes_in st m lo hi = bytes_in st m (Z.max lo c) hi.
Proof.
  induction 1 as [|i m Hi _ IH]; [reflexivity|].
  rewrite (bytes_in_cons st i m lo hi), (bytes_in_cons st i m (Z.max lo c) hi), IH.
  replace (Z.max (begin i) (Z.max lo c)) with (Z.max (begin i) lo) by lia.
  reflexivity.
Qed.

Lemma bytes_in_bounds (st : AddrIvalState) (m : IntervalMap) :
  imap_sorted m ->
  forall lo hi, 0 <= bytes_in st m lo hi <= Z.max 0 (hi - lo).
Proof.
  intros [Hs Hnn]. rewrite imap_nonnull_iff in Hnn.
  induction Hs as [|i m Hs IH Hf]; intros lo hi.
  - change (bytes_in st [] lo hi) with 0. lia.
  - assert (Hnn' : forall j, In j m -> begin j < end_ j)
      by (intros j Hj; apply Hnn; now right).
    specialize (IH Hnn').
    rewrite bytes_in_cons.
    rewrite (bytes_in_from st m (end_ i) lo hi)
      by (eapply Forall_impl; [|exact Hf]; intros j Hj; exact Hj).
    pose proof (IH (Z.max lo (end_ i)) hi) as Hb.
    pose proof (Hnn i (or_introl eq_refl)) as Hi.
    destruct (state_is st i); lia.
Qed.

Lemma _update_window (st : AddrIvalState) (m : IntervalMap) (iv : AddrIval) :
  imap_nonnull m = true ->
  sum_sizes st (imap_range (imap_add m iv) (begin iv - 1) (end_ iv + 1)) -
  sum_sizes st (imap_range m (begin iv - 1) (end_ iv + 1)) =
  (if is_null iv then 0 else if state_is st iv then end_ iv - begin iv else 0)
  - bytes_in st m (begin iv) (end_ iv).
Proof.
  intros Hnn.
  rewrite !sum_sizes_range by (try apply imap_add_nonnull; assumption).
  rewrite bytes_in_add by assumption.
  replace (Z.max (begin iv - 1) (begin iv)) with (begin iv) by lia.
  replace (Z.min (end_ iv + 1) (end_ iv)) with (end_ iv) by lia.
  unfold is_null. destruct (Z.leb_spec (end_ iv) (begin iv)).
  - rewrite (bytes_in_empty_window st m (begin iv)); lia.
  - rewrite bytes_in_cons.
    change (bytes_in st [] (begin iv - 1) (end_ iv + 1)) with 0.
    destruct (state_is st iv); lia.
Qed.

Lemma bytes_in_assigned (st : AddrIvalState) (m : IntervalMap) (iv : AddrIval) :
  imap_nonnull m = true -> begin iv < end_ iv ->
  bytes_in st (imap_add m iv) (begin iv) (end_ iv) =
  if state_is st iv then end_ iv - begin iv else 0.
Proof.
  intros Hnn Hiv. rewrite bytes_in_add by assumption.
  replace (Z.max (begin iv) (begin iv)) with (begin iv) by lia.
  replace (Z.min (end_ iv) (end_ iv)) with (end_ iv) by lia.
  unfold is_null. destruct (Z.leb_spec (end_ iv) (begin iv)); [lia|].
  rewrite bytes_in_cons. change (bytes_in st [] (begin iv) (end_ iv)) with 0.
  destruct (state_is st iv); lia.
Qed.

(** X13.  [mapd] and [unmapd] count every byte of the address space
    once.  On a model whose map is in order, a [mapd] of a non-empty
    range from an allocator call stack adds to [mapd_size] the size of
    the range less the bytes of it that were recorded as Mapped already,
    so the total never drops and grows by the size of the range at
    most; mapping the same range again changes nothing; unmapping it
    leaves the total that was there beforehand less the bytes of the
    range that were Mapped beforehand; and unmapping it a second time
    changes nothing. *)
Theorem mapd_size_counts_bytes_once (a : AllocatorAddrSpaceModel)
    (callstack : string) (b e : Z) :
  imap_sorted (__addr_ivals a) ->
  allocator_frame callstack = true ->
  b < e ->
  let mapped_before := bytes_in MAPD (__addr_ivals a) b e in
  let a1 := mapd a callstack b e in
  let a2 := unmapd a1 callstack b e in
  mapd_size a1 = mapd_size a + (e - b) - mapped_before /\
  mapd_size a <= mapd_size a1 <= mapd_size a + (e - b) /\
  mapd_size (mapd a1 callstack b e) = mapd_size a1 /\
  mapd_size a2 = mapd_size a - mapped_before /\
  mapd_size (unmapd a2 callstack b e) = mapd_size a2.
Proof.
  intros Hsorted Hframe Hbe. cbv zeta.
  pose proof (proj2 Hsorted) as Hnn.
  pose proof (bytes_in_bounds MAPD _ Hsorted b e) as Hb.
  assert (Hmapd : forall x, mapd x callstack b e = _update x (mkIval b e (Some MAPD))).
  { intros x. unfold mapd. unfold allocator_frame in Hframe. now rewrite Hframe. }
  assert (Hupd : forall x s,
            imap_nonnull (__addr_ivals x) = true ->
            mapd_size (_update x (mkIval b e (Some s))) =
            mapd_size x
            + (if state_is MAPD (mkIval b e (Some s)) then e - b else 0)
            - bytes_in MAPD (__addr_ivals x) b e).
  { intros x s Hx. unfold _update. cbn [mapd_size].
    pose proof (_update_window MAPD (__addr_ivals x) (mkIval b e (Some s)) Hx) as Hw.
    unfold is_null in Hw. cbn [begin end_] in Hw.
    destruct (Z.leb_spec e b); [lia|]. cbn [begin end_]. lia. }
  assert (Hafter : forall x s,
            imap_nonnull (__addr_ivals x) = true ->
            bytes_in MAPD (__addr_ivals (_update x (mkIval b e (Some s)))) b e =
            if state_is MAPD (mkIval b e (Some s)) then e - b else 0).
  { intros x s Hx.
    apply (bytes_in_assigned MAPD (__addr_ivals x) (mkIval b e (Some s)) Hx Hbe). }
  assert (Hnn1 : forall x s,
            imap_nonnull (__addr_ivals x) = true ->
            imap_nonnull (__addr_ivals (_update x (mkIval b e (Some s)))) = true).
  { intros x s Hx. apply imap_add_nonnull, Hx. }
  rewrite !Hmapd. unfold unmapd.
  rewrite !Hupd by (repeat apply Hnn1; exact Hnn).
  rewrite !Hafter by (repeat apply Hnn1; exact Hnn).
  unfold state_is. cbn [state state_eqb]. lia.
Qed.

Lemma mapd_size_counts_bytes_once_witness :
  let a := mapd AllocatorAddrSpaceModel_init "malloc" 0 4096 in
  imap_sorted (__addr_ivals a) /\
  allocator_frame "driver_malloc_x" = true /\
  mapd_size (mapd a "driver_malloc_x" 2048 8192) = 8192 /\
  mapd_size (unmapd (mapd a "driver_malloc_x" 2048 8192) "driver_malloc_x" 2048 8192)
    = 2048.
Proof.
  cbv zeta.
  assert (Hs : imap_sorted
                 (__addr_ivals (mapd AllocatorAddrSpaceModel_init "malloc" 0 4096))).
  { change (mapd AllocatorAddrSpaceModel_init "malloc" 0 4096)
      with (_update AllocatorAddrSpaceModel_init (mkIval 0 4096 (Some MAPD))).
    apply imap_add_sorted, imap_sorted_init. }
  assert (Hf : allocator_frame "driver_malloc_x" = true) by (vm_compute; reflexivity).
  assert (Hbe : 2048 < 8192) by lia.
  pose proof (mapd_size_counts_bytes_once _ _ 2048 8192 Hs Hf Hbe) as H.
  cbv zeta in H. destruct H as (H1 & _ & _ & H4 & _).
  split; [exact Hs|]. split; [exact Hf|]. split.
  - rewrite H1. vm_compute. reflexivity.
  - rewrite H4. vm_compute. reflexivity.
Defined.

(** ** The coalescing point query *)

Lemma coalesce_left_any (t : IntervalTree) (dc : list (option AddrIvalState)) :
  tree_ok t ->
  forall fuel cur b0,
    intervaltree_query_checked t (b0 - 1) = Ok cur ->
    (List.length (filter (fun i => (begin i <? b0)%Z) t) <= fuel)%nat ->
    exists b,
      coalesce_left fuel t dc cur b0 = Ok b /\
      b <= b0 /\
      (forall p, b <= p < b0 -> covers_in t dc p) /\
      ~ covers_in t dc (b - 1).
Proof.
  intros Hok. pose proof Hok as (_ & _ & Hdj).
  induction fuel as [|fuel IH]; intros cur b0 Hq Hfuel;
    pose proof (query_checked_inv t _ _ Hok Hq) as Hcur.
  - destruct cur as [il|]; cbn [coalesce_left].
    + destruct Hcur as [Hil Hp].
      destruct (data_in il dc) eqn:Hd.
      * exfalso.
        assert (0 < List.length (filter (fun i => (begin i <? b0)%Z) t))%nat
          by (apply (filter_length_pos _ _ il); auto; apply Z.ltb_lt; lia).
        lia.
      * exists b0. split; [reflexivity|]. split; [lia|]. split; [intros; lia|].
        intros [j [Hj [Hpj Hdj']]].
        assert (j = il) by (apply (Hdj j il (b0 - 1)); auto). subst. congruence.
    + exists b0. split; [reflexivity|]. split; [lia|]. split; [intros; lia|].
      intros [j [Hj [Hpj _]]]. apply (Hcur j Hj Hpj).
  - destruct cur as [il|]; cbn [coalesce_left].
    + destruct Hcur as [Hil Hp].
      destruct (data_in il dc) eqn:Hd.
      * destruct (query_checked_total t (begin il - 1) Hok) as [next Hnext].
        rewrite Hnext. cbn [rbind].
        destruct (IH next (begin il) Hnext) as [b [Hrun [Hle [Hcov Hend]]]].
        { assert (List.length (filter (fun i => (begin i <? begin il)%Z) t) <
                  List.length (filter (fun i => (begin i <? b0)%Z) t))%nat.
          { apply (filter_length_lt _ _ t il); auto.
            - intros x Hx. apply Z.ltb_lt in Hx. apply Z.ltb_lt. lia.
            - apply Z.ltb_irrefl.
            - apply Z.ltb_lt. lia. }
          lia. }
        exists b. split; [assumption|]. split; [lia|]. split; [|assumption].
        intros p Hpb. destruct (Z_lt_dec p (begin il)); [apply Hcov; lia|].
        exists il. repeat split; auto; lia.
      * exists b0. split; [reflexivity|]. split; [lia|]. split; [intros; lia|].
        intros [j [Hj [Hpj Hdj']]].
        assert (j = il) by (apply (Hdj j il (b0 - 1)); auto). subst. congruence.
    + exists b0. split; [reflexivity|]. split; [lia|]. split; [intros; lia|].
      intros [j [Hj [Hpj _]]]. apply (Hcur j Hj Hpj).
Qed.

Lemma coalesce_right_any (t : IntervalTree) (dc : list (option AddrIvalState)) :
  tree_ok t ->
  forall fuel cur e0,
    intervaltree_query_checked t e0 = Ok cur ->
    (List.length (filter (fun i => (e0 <? end_ i)%Z) t) <= fuel)%nat ->
    exists e,
      coalesce_right fuel t dc cur e0 = Ok e /\
      e0 <= e /\
      (forall p, e0 <= p < e -> covers_in t dc p) /\
      ~ covers_in t dc e.
Proof.
  intros Hok. pose proof Hok as (_ & _ & Hdj).
  induction fuel as [|fuel IH]; intros cur e0 Hq Hfuel;
    pose proof (query_checked_inv t _ _ Hok Hq) as Hcur.
  - destruct cur as [ir|]; cbn [coalesce_right].
    + destruct Hcur as [Hir Hp].
      destruct (data_in ir dc) eqn:Hd.
      * exfalso.
        assert (0 < List.length (filter (fun i => (e0 <? end_ i)%Z) t))%nat
          by (apply (filter_length_pos _ _ ir); auto; apply Z.ltb_lt; lia).
        lia.
      * exists e0. split; [reflexivity|]. split; [lia|]. split; [intros; lia|].
        intros [j [Hj [Hpj Hdj']]].
        assert (j = ir) by (apply (Hdj j ir e0); auto). subst. congruence.
    + exists e0. split; [reflexivity|]. split; [lia|]. split; [intros; lia|].
      intros [j [Hj [Hpj _]]]. apply (Hcur j Hj Hpj).
  - destruct cur as [ir|]; cbn [coalesce_right].
    + destruct Hcur as [Hir Hp].
      destruct (data_in ir dc) eqn:Hd.
      * destruct (query_checked_total t (end_ ir) Hok) as [next Hnext].
        rewrite Hnext. cbn [rbind].
        destruct (IH next (end_ ir) Hnext) as [e [Hrun [Hle [Hcov Hend]]]].
        { assert (List.length (filter (fun i => (end_ ir <? end_ i)%Z) t) <
                  List.length (filter (fun i => (e0 <? end_ i)%Z) t))%nat.
          { apply (filter_length_lt _ _ t ir); auto.
            - intros x Hx. apply Z.ltb_lt in Hx. apply Z.ltb_lt. lia.
            - apply Z.ltb_irrefl.
            - apply Z.ltb_lt. lia. }
          lia. }
        exists e. split; [assumption|]. split; [lia|]. split; [|assumption].
        intros p Hpb. destruct (Z_le_dec (end_ ir) p); [apply Hcov; lia|].
        exists ir. repeat split; auto; lia.
      * exists e0. split; [reflexivity|]. split; [lia|]. split; [intros; lia|].
        intros [j [Hj [Hpj Hdj']]].
        assert (j = ir) by (apply (Hdj j ir e0); auto). subst. congruence.
    + exists e0. split; [reflexivity|]. split; [lia|]. split; [intros; lia|].
      intros [j [Hj [Hpj _]]]. apply (Hcur j Hj Hpj).
Qed.

(** X14.  [intervaltree_query_coalesced] on a tree of disjoint,
    non-empty intervals always returns -- its two loops end and no
    assertion fails.  It answers [None] where no interval holds the
    point.  Where interval [i] holds it, the answer carries the data of
    [i] and spans the longest run around [i] of adjacent intervals whose
    data is that of [i] or one of [coalesce_with]: every address of the
    answer lies in such an interval, the address before its begin and
    the one at its end do not. *)
Theorem query_coalesced_contract (t : IntervalTree) (point : Z)
    (coalesce_with : list (option AddrIvalState)) :
  tree_ok t ->
  ((forall i, In i t -> ~ (begin i <= point < end_ i)) ->
   intervaltree_query_coalesced t point coalesce_with = Ok None) /\
  (forall i, In i t -> begin i <= point < end_ i ->
   exists b e,
     intervaltree_query_coalesced t point coalesce_with =
       Ok (Some (mkIval b e (state i))) /\
     b <= begin i /\ end_ i <= e /\
     (forall p, b <= p < e -> covers_in t (state i :: coalesce_with) p) /\
     ~ covers_in t (state i :: coalesce_with) (b - 1) /\
     ~ covers_in t (state i :: coalesce_with) e).
Proof.
  intros Hok. pose proof Hok as (_ & Hnn & Hdj).
  unfold intervaltree_query_coalesced. split.
  - intros Hnone.
    destruct (query_checked_ok t point Hok) as [[Hq _]|[i [_ [Hi Hp]]]].
    + rewrite Hq. reflexivity.
    + destruct (Hnone i Hi Hp).
  - intros f Hf Hpf. pose proof (Hnn f Hf) as Hfn.
    destruct (query_checked_ok t point Hok) as [[_ Hnone]|[i [Hq [Hi Hp]]]].
    { destruct (Hnone f Hf Hpf). }
    assert (i = f) by (apply (Hdj i f point); auto). subst i.
    rewrite Hq. cbn [rbind].
    set (dc := state f :: coalesce_with).
    assert (Hd : data_in f dc = true).
    { unfold data_in, dc. cbn [existsb].
      rewrite (proj2 (ostate_eqb_eq (state f) (state f)) eq_refl). reflexivity. }
    destruct (List.length t) as [|n] eqn:Hlen.
    { destruct t; [contradiction | discriminate]. }
    cbn [coalesce_left coalesce_right]. rewrite Hd.
    destruct (query_checked_total t (begin f - 1) Hok) as [nl Hnl].
    destruct (query_checked_total t (end_ f) Hok) as [nr Hnr].
    rewrite Hnl. cbn [rbind].
    destruct (coalesce_left_any t dc Hok n nl (begin f) Hnl)
      as [b [Hb [Hble [Hbcov Hbend]]]].
    { assert (List.length (filter (fun i => (begin i <? begin f)%Z) t)
              < List.length t)%nat
        by (apply (filter_length_lt_all _ _ f); auto; apply Z.ltb_irrefl).
      lia. }
    rewrite Hb. cbn [rbind]. rewrite Hnr. cbn [rbind].
    destruct (coalesce_right_any t dc Hok n nr (end_ f) Hnr)
      as [e [He [Hele [Hecov Heend]]]].
    { assert (List.length (filter (fun i => (end_ f <? end_ i)%Z) t)
              < List.length t)%nat
        by (apply (filter_length_lt_all _ _ f); auto; apply Z.ltb_irrefl).
      lia. }
    rewrite He. cbn [rbind].
    exists b, e. split; [reflexivity|]. split; [assumption|].
    split; [assumption|]. split; [|split; assumption].
    intros p Hpp.
    destruct (Z_lt_dec p (begin f)); [apply Hbcov; lia|].
    destruct (Z_le_dec (end_ f) p); [apply Hecov; lia|].
    exists f. split; [assumption|]. split; [lia | assumption].
Qed.

Lemma query_coalesced_contract_witness :
  let t := [mkIval 0 16 (Some FREED); mkIval 16 32 (Some REVOKED);
            mkIval 32 48 (Some ALLOCD)] in
  tree_ok t /\
  intervaltree_query_coalesced t 100 [Some REVOKED] = Ok None /\
  exists b e,
    intervaltree_query_coalesced t 20 [] = Ok (Some (mkIval b e (Some REVOKED))) /\
    b <= 16 /\ 32 <= e.
Proof.
  cbv zeta.
  assert (Hok : tree_ok [mkIval 0 16 (Some FREED); mkIval 16 32 (Some REVOKED);
                         mkIval 32 48 (Some ALLOCD)])
    by (apply tree_okb_correct; vm_compute; reflexivity).
  split; [exact Hok|]. split.
  - apply (proj1 (query_coalesced_contract _ 100 [Some REVOKED] Hok)).
    intros i Hi. simpl in Hi.
    destruct Hi as [<-|[<-|[<-|[]]]]; simpl; lia.
  - destruct (proj2 (query_coalesced_contract _ 20 [] Hok)
                (mkIval 16 32 (Some REVOKED)))
      as (b & e & E & H1 & H2 & _).
    + simpl. auto.
    + simpl. lia.
    + exists b, e. split; [exact E|]. split; [exact H1 | exact H2].
Defined.
